(** * SproutCore bindings ([foundation/binding.js]) in Rocq

    A shallow embedding of [SC.Binding]: JavaScript objects live in a heap
    of cells with prototype links, every method of the object literal is a
    computation in a state-and-exception monad that also records a trace of
    the calls the engine makes, and the collaborators that are not part of
    the file (path resolution, property reads and writes on targets, user
    supplied transform functions) are the fields of a [Host].

    A method call on a binding runs the method of the literal of that name:
    no instance overrides one.  [builder] and the deprecated aliases the
    file installs after the literal ([SC.Binding.From], [SC.Binding.Single]
    and so on) are left out; they add properties with capitalised names to
    [SC.Binding] and derive bindings of their own. *)

From Stdlib Require Import ZArith.
From stdpp Require Import base gmap strings list.

Open Scope string_scope.
Open Scope list_scope.
Open Scope nat_scope.

(** ** Values and heap cells *)

Abbreviation loc := nat (only parsing).

(** JavaScript values.  Numbers are restricted to integers; every object,
    array and function is a reference into the heap, so [===] on references
    is identity. *)
Inductive value :=
| VUndef
| VNull
| VBool (b : bool)
| VNum (n : Z)
| VStr (s : string)
| VRef (l : loc).

#[global] Instance value_eq_dec : EqDecision value.
Proof. solve_decision. Defined.

Definition YES : value := VBool true.
Definition NO : value := VBool false.

Definition MULTIPLE_PLACEHOLDER : value := VStr "@@MULT@@".
Definition NULL_PLACEHOLDER : value := VStr "@@NULL@@".
Definition EMPTY_PLACEHOLDER : value := VStr "@@EMPTY@@".

(** ToBoolean. *)
Definition truthy (v : value) : bool :=
  match v with
  | VUndef | VNull => false
  | VBool b => b
  | VNum n => negb (n =? 0)%Z
  | VStr s => negb (String.eqb s "")
  | VRef _ => true
  end.

(** [a === b]. *)
Definition strict_eq (a b : value) : bool := bool_decide (a = b).

(** [v == null]. *)
Definition is_nullish (v : value) : bool :=
  match v with VUndef | VNull => true | _ => false end.

(** The code a function object runs.  [Method] stands for the methods of the
    [SC.Binding] literal, the [_Fn] constructors for the closures the helper
    methods create (with the variables they capture), [UserFn] for a function
    written by the application. *)
Inductive code :=
| Method (name : string)
| SingleFn (placeholder : value)
| NotEmptyFn (placeholder : value)
| NotNullFn (placeholder : value)
| MultipleFn
| BoolFn
| NotFn
| IsNullFn
| UserFn (id : nat).

Inductive cell :=
| CObj (props : gmap string value) (proto : option loc)
| CArr (elems : list value) (hasObjectAt : bool)
| CSet (members : list value)
| CFun (c : code)
| CErr (message : string).

(** Property lookup along the prototype chain.  An object is allocated after
    its prototype, so a prototype link leads to a smaller location (a link
    that does not is not followed) and [S l] steps are enough starting from
    [l]. *)
Fixpoint lookup_chain (fuel : nat) (h : gmap loc cell) (l : loc) (k : string) : value :=
  match fuel with
  | O => VUndef
  | S n =>
      match h !! l with
      | Some (CObj props proto) =>
          match props !! k with
          | Some v => v
          | None =>
              match proto with
              | Some p => if p <? l then lookup_chain n h p k else VUndef
              | None => VUndef
              end
          end
      | _ => VUndef
      end
  end.

(** Modelled from the spec: [$type] and [SC.isArray] of the framework core,
    which is not part of this file; a value is error-typed when it refers to
    an error object and a sequence when it refers to an array. *)
Inductive sc_type :=
| T_UNDEFINED | T_NULL | T_BOOL | T_NUMBER | T_STRING
| T_ARRAY | T_FUNCTION | T_ERROR | T_HASH.

#[global] Instance sc_type_eq_dec : EqDecision sc_type.
Proof. solve_decision. Defined.

(** Modelled from the spec: [$type(v)]. *)
Definition type_of (h : gmap loc cell) (v : value) : sc_type :=
  match v with
  | VUndef => T_UNDEFINED
  | VNull => T_NULL
  | VBool _ => T_BOOL
  | VNum _ => T_NUMBER
  | VStr _ => T_STRING
  | VRef l =>
      match h !! l with
      | Some (CArr _ _) => T_ARRAY
      | Some (CFun _) => T_FUNCTION
      | Some (CErr _) => T_ERROR
      | _ => T_HASH
      end
  end.

(** Modelled from the spec: [SC.isArray(v)]. *)
Definition isArray (h : gmap loc cell) (v : value) : bool :=
  match v with
  | VRef l => match h !! l with Some (CArr _ _) => true | _ => false end
  | _ => false
  end.

(** ** The collaborators *)

(** What a call into code outside the file does, as far as the binding
    engine can tell: it changes its own world, it notifies bindings
    ([b.fromPropertyDidChange(key, target)]), it asks for a flush
    ([SC.Binding.flushPendingChanges()]), it throws, or it returns. *)
Inductive script (W : Type) :=
| Done (v : value)
| Touch (f : W → W) (k : script W)
| Notify (b : loc) (key target : value) (k : script W)
| Flush (k : script W)
| Raise (msg : string).

Arguments Done {W} v.
Arguments Touch {W} f k.
Arguments Notify {W} b key target k.
Arguments Flush {W} k.
Arguments Raise {W} msg.

Class Host := {
  World : Type;
  (** [SC.Object.tupleForPropertyPath(path, root)]: a (target, key) pair, or
      nothing while the path cannot be resolved. *)
  tupleForPropertyPath : World → value → value → option (value * value);
  (** [target.get(key)]. *)
  target_get : World → value → value → value;
  (** [target.setPathIfChanged(key, v)]. *)
  target_setPathIfChanged : World → value → value → value → script World;
  (** A transform supplied by the application, called as [f(v, binding)]. *)
  user_fn : nat → World → value → value → script World;
}.

(** One entry of the observer registry [SC.Observers]. *)
Record registration := Registration {
  reg_path : value;
  reg_handler : value;
  reg_context : value;
  reg_root : value;
}.

#[global] Instance registration_eq_dec : EqDecision registration.
Proof. solve_decision. Defined.

(** ** State, trace and monad *)

(** What the trace records: the start and the end of the drain loop of
    [flushPendingChanges], a call [b.applyBindingValue()] made by that loop,
    a call [SC.Binding._changeQueue.add(b)], a call
    [target.setPathIfChanged(key, v)], and a call [transforms[idx](v, this)]
    with the function [f] found at [idx]. *)
Inductive event :=
| EFlushBegin
| EFlushEnd
| EApply (b : loc)
| EEnqueue (b : loc)
| ESetPath (target key v : value)
| ETransform (idx : nat) (f v : value).

#[global] Instance event_eq_dec : EqDecision event.
Proof. solve_decision. Defined.

Inductive error :=
| ReferenceError (name : string)
| TypeError (what : string)
| HostError (msg : string)
| OutOfFuel.

Section Binding.
Context {H : Host}.

Record State := mkState {
  heap : gmap loc cell;
  next : loc;
  globals : gmap string value;
  observers : list registration;
  world : World;
}.

(** An exception leaves the state as it was when it was thrown. *)
Inductive outcome (A : Type) :=
| Ret (a : A) (s : State) (t : list event)
| Throw (e : error) (s : State) (t : list event).

Arguments Ret {A} a s t.
Arguments Throw {A} e s t.

Definition M (A : Type) : Type := State → outcome A.

Definition ret {A} (a : A) : M A := λ s, Ret a s [].

Definition bind {A B} (m : M A) (f : A → M B) : M B := λ s,
  match m s with
  | Ret a s1 t1 =>
      match f a s1 with
      | Ret b s2 t2 => Ret b s2 (t1 ++ t2)
      | Throw e s2 t2 => Throw e s2 (t1 ++ t2)
      end
  | Throw e s1 t1 => Throw e s1 t1
  end.

#[global] Instance M_ret : MRet M := @ret.
#[global] Instance M_bind : MBind M := λ A B f m, bind m f.

Definition throw {A} (e : error) : M A := λ s, Throw e s [].
Definition emit (ev : event) : M unit := λ s, Ret () s [ev].
Definition gets {A} (f : State → A) : M A := λ s, Ret (f s) s [].
Definition modify (f : State → State) : M unit := λ s, Ret () (f s) [].

Definition final_state {A} (o : outcome A) : State :=
  match o with Ret _ s _ | Throw _ s _ => s end.

Definition trace_of {A} (o : outcome A) : list event :=
  match o with Ret _ _ t | Throw _ _ t => t end.

(** ** Heap primitives *)

Definition set_heap (h : gmap loc cell) (s : State) : State :=
  mkState h (next s) (globals s) (observers s) (world s).

Definition set_world (w : World) (s : State) : State :=
  mkState (heap s) (next s) (globals s) (observers s) w.

Definition set_observers (o : list registration) (s : State) : State :=
  mkState (heap s) (next s) (globals s) o (world s).

(** [this.k] *)
Definition prop (s : State) (l : loc) (k : string) : value :=
  lookup_chain (S l) (heap s) l k.

Definition getp (l : loc) (k : string) : M value := gets (λ s, prop s l k).

(** [v.k] for an arbitrary value. *)
Definition read (v : value) (k : string) : M value :=
  match v with
  | VRef l => getp l k
  | VUndef | VNull => throw (TypeError "property of undefined or null")
  | _ => ret VUndef
  end.

(** [l.k = v]: creates or overwrites an own property. *)
Definition setp (l : loc) (k : string) (v : value) : M unit := λ s,
  match heap s !! l with
  | Some (CObj props proto) =>
      Ret () (set_heap (<[l := CObj (<[k := v]> props) proto]> (heap s)) s) []
  | _ => Throw (TypeError "assignment to a property of a non-object") s []
  end.

Definition alloc (c : cell) : M loc := λ s,
  Ret (next s) (mkState (<[next s := c]> (heap s)) (S (next s))
                        (globals s) (observers s) (world s)) [].

(** ** Arrays and [SC.Set] *)

(** [[]] and [[v]]: arrays of the framework answer [objectAt]. *)
Definition new_array (elems : list value) : M value :=
  l ← alloc (CArr elems true); mret (VRef l).

(** [t.slice()] *)
Definition array_slice (t : value) : M value := λ s,
  match t with
  | VRef l =>
      match heap s !! l with
      | Some (CArr elems f) => (l' ← alloc (CArr elems f); mret (VRef l')) s
      | _ => Throw (TypeError "slice is not a function") s []
      end
  | _ => Throw (TypeError "slice is not a function") s []
  end.

(** [t.push(v)] *)
Definition array_push (t v : value) : M unit := λ s,
  match t with
  | VRef l =>
      match heap s !! l with
      | Some (CArr elems f) =>
          Ret () (set_heap (<[l := CArr (elems ++ [v]) f]> (heap s)) s) []
      | _ => Throw (TypeError "push is not a function") s []
      end
  | _ => Throw (TypeError "push is not a function") s []
  end.

(** The elements of the array [t] refers to, if it is one. *)
Definition array_elems (s : State) (t : value) : option (list value) :=
  match t with
  | VRef l => match heap s !! l with Some (CArr elems _) => Some elems | _ => None end
  | _ => None
  end.

(** Modelled from the spec: [SC.Set] (not part of this file), a set of
    values: [add] does nothing for a member, [popObject] removes and returns
    one member and returns nothing when the set is empty. *)
Definition set_members (s : State) (q : value) : list value :=
  match q with
  | VRef l => match heap s !! l with Some (CSet ms) => ms | _ => [] end
  | _ => []
  end.

(** Modelled from the spec: [q.add(v)]. *)
Definition set_add (q v : value) : M unit := λ s,
  match q with
  | VRef l =>
      match heap s !! l with
      | Some (CSet ms) =>
          if bool_decide (v ∈ ms) then Ret () s []
          else Ret () (set_heap (<[l := CSet (ms ++ [v])]> (heap s)) s) []
      | _ => Throw (TypeError "add is not a function") s []
      end
  | _ => Throw (TypeError "add is not a function") s []
  end.

(** Modelled from the spec: [q.get('length')]. *)
Definition set_length (q : value) : M nat := λ s,
  match q with
  | VRef l =>
      match heap s !! l with
      | Some (CSet ms) => Ret (length ms) s []
      | _ => Throw (TypeError "get is not a function") s []
      end
  | _ => Throw (TypeError "get is not a function") s []
  end.

(** Modelled from the spec: [q.popObject()]. *)
Definition set_popObject (q : value) : M value := λ s,
  match q with
  | VRef l =>
      match heap s !! l with
      | Some (CSet ms) =>
          match ms with
          | [] => Ret VUndef s []
          | v :: rest => Ret v (set_heap (<[l := CSet rest]> (heap s)) s) []
          end
      | _ => Throw (TypeError "popObject is not a function") s []
      end
  | _ => Throw (TypeError "popObject is not a function") s []
  end.

(** Modelled from the spec: the observer registry [SC.Observers] (not part
    of this file); [addObserver] records the subscription, [removeObserver]
    drops one that matches. *)
Definition addObserver (path handler : value) (context : loc) (root : value) : M unit :=
  modify (λ s, set_observers (observers s ++ [Registration path handler (VRef context) root]) s).

Fixpoint remove_first (r : registration) (l : list registration) : list registration :=
  match l with
  | [] => []
  | x :: l' => if bool_decide (x = r) then l' else x :: remove_first r l'
  end.

(** Modelled from the spec: [SC.Observers.removeObserver(path, handler,
    context, root)]. *)
Definition removeObserver (path handler : value) (context : loc) (root : value) : M unit :=
  modify (λ s, set_observers (remove_first (Registration path handler (VRef context) root) (observers s)) s).

(** ** The methods of [SC.Binding] *)

(** The object the name [SC.Binding] denotes. *)
Definition SC_Binding : loc := 0.

(** Modelled from the spec: [SC.beget(obj)] of the framework core, a new
    object whose prototype is [obj]. *)
Definition SC_beget (obj : loc) : M loc := alloc (CObj ∅ (Some obj)).

(** [this.beget()], the call without argument: [fromPath !== undefined]
    fails and the result is the new instance. *)
Definition beget_plain (this : loc) : M loc :=
  r ← SC_beget this;
  setp r "parentBinding" (VRef this);;
  mret r.

(** An identifier that is declared nowhere in the file is looked up among the
    globals; [x._fromTuple = v] with [x] unbound is a ReferenceError. *)
Definition global_setp (x k : string) (v : value) : M unit := λ s,
  match globals s !! x with
  | None => Throw (ReferenceError x) s []
  | Some (VRef l) => setp l k v s
  | Some VUndef | Some VNull => Throw (TypeError "property of undefined or null") s []
  | Some _ => Ret () s []
  end.

Definition from (this : loc) (propertyPath root : value) : M loc :=
  if negb (truthy propertyPath) then mret this else
  binding ← (if bool_decide (this = SC_Binding) then beget_plain this else mret this);
  setp binding "_fromPropertyPath" propertyPath;;
  setp binding "_fromRoot" root;;
  global_setp "bidning" "_fromTuple" VNull;;
  mret binding.

Definition beget (this : loc) (fromPath : value) : M loc :=
  r ← SC_beget this;
  setp r "parentBinding" (VRef this);;
  if negb (strict_eq fromPath VUndef) then from r fromPath VUndef else mret r.

Definition to (this : loc) (propertyPath root : value) : M loc :=
  binding ← (if bool_decide (this = SC_Binding) then beget_plain this else mret this);
  setp binding "_toPropertyPath" propertyPath;;
  setp binding "_toRoot" root;;
  setp binding "_toTuple" VNull;;
  mret binding.

Definition connect (this : loc) : M loc :=
  isConnected ← getp this "isConnected";
  if truthy isConnected then mret this else
  fromPath ← getp this "_fromPropertyPath";
  handler ← getp this "propertyDidChange";
  fromRoot ← getp this "_fromRoot";
  addObserver fromPath handler this fromRoot;;
  oneWay ← getp this "_oneWay";
  (if negb (truthy oneWay) then
     toPath ← getp this "_toPropertyPath";
     handler ← getp this "propertyDidChange";
     toRoot ← getp this "_toRoot";
     addObserver toPath handler this toRoot
   else mret ());;
  setp this "isConnected" YES;;
  mret this.

Definition disconnect (this : loc) : M loc :=
  isConnected ← getp this "isConnected";
  if negb (truthy isConnected) then mret this else
  fromPath ← getp this "_fromPropertyPath";
  handler ← getp this "propertyDidChange";
  fromRoot ← getp this "_fromRoot";
  removeObserver fromPath handler this fromRoot;;
  oneWay ← getp this "_oneWay";
  (if negb (truthy oneWay) then
     toPath ← getp this "_toPropertyPath";
     handler ← getp this "propertyDidChange";
     toRoot ← getp this "_toRoot";
     removeObserver toPath handler this toRoot
   else mret ());;
  setp this "isConnected" NO;;
  mret this.

(** The first lines of [oneWay] and [noError]: a boolean in the place of the
    path is the flag. *)
Definition shift_flag (h : gmap loc cell) (fromPath aFlag : value) : value * value :=
  if strict_eq aFlag VUndef && bool_decide (type_of h fromPath = T_BOOL)
  then (VNull, fromPath) else (fromPath, aFlag).

Definition oneWay (this : loc) (fromPath aFlag : value) : M loc :=
  h ← gets heap;
  let '(fromPath, aFlag) := shift_flag h fromPath aFlag in
  binding ← from this fromPath VUndef;
  binding ← (if bool_decide (binding = SC_Binding) then beget_plain binding else mret binding);
  setp binding "_oneWay" (if strict_eq aFlag VUndef then YES else aFlag);;
  mret binding.

Definition transform (this : loc) (transformFunc : value) : M loc :=
  binding ← (if bool_decide (this = SC_Binding) then beget_plain this else mret this);
  t ← getp binding "_transforms";
  t ← (if truthy t then
         parent ← getp binding "parentBinding";
         parentTransform ← read parent "_transform";
         if strict_eq t parentTransform then
           t' ← array_slice t;
           setp binding "_transforms" t';;
           mret t'
         else mret t
       else mret t);
  t ← (if negb (truthy t) then
         t' ← new_array [];
         setp binding "_transforms" t';;
         mret t'
       else mret t);
  array_push t transformFunc;;
  mret binding.

Definition resetTransforms (this : loc) : M loc :=
  binding ← (if bool_decide (this = SC_Binding) then beget_plain this else mret this);
  setp binding "_transforms" VNull;;
  mret binding.

Definition noError (this : loc) (fromPath aFlag : value) : M loc :=
  h ← gets heap;
  let '(fromPath, aFlag) := shift_flag h fromPath aFlag in
  binding ← from this fromPath VUndef;
  binding ← (if bool_decide (binding = SC_Binding) then beget_plain binding else mret binding);
  setp binding "_noError" (if strict_eq aFlag VUndef then YES else aFlag);;
  mret binding.

(** A function expression evaluates to a new function object. *)
Definition closure (c : code) : M value :=
  l ← alloc (CFun c); mret (VRef l).

Definition single (this : loc) (fromPath placeholder : value) : M loc :=
  let placeholder :=
    if strict_eq placeholder VUndef then MULTIPLE_PLACEHOLDER else placeholder in
  binding ← from this fromPath VUndef;
  f ← closure (SingleFn placeholder);
  transform binding f.

Definition notEmpty (this : loc) (fromPath placeholder : value) : M loc :=
  let placeholder :=
    if strict_eq placeholder VUndef then EMPTY_PLACEHOLDER else placeholder in
  binding ← from this fromPath VUndef;
  f ← closure (NotEmptyFn placeholder);
  transform binding f.

Definition notNull (this : loc) (fromPath placeholder : value) : M loc :=
  let placeholder :=
    if strict_eq placeholder VUndef then EMPTY_PLACEHOLDER else placeholder in
  binding ← from this fromPath VUndef;
  f ← closure (NotNullFn placeholder);
  transform binding f.

Definition multiple (this : loc) (fromPath : value) : M loc :=
  binding ← from this fromPath VUndef;
  f ← closure MultipleFn;
  transform binding f.

Definition bool_ (this : loc) (fromPath : value) : M loc :=
  binding ← from this fromPath VUndef;
  f ← closure BoolFn;
  transform binding f.

Definition not_ (this : loc) (fromPath : value) : M loc :=
  binding ← from this fromPath VUndef;
  f ← closure NotFn;
  transform binding f.

Definition isNull (this : loc) (fromPath : value) : M loc :=
  binding ← from this fromPath VUndef;
  f ← closure IsNullFn;
  transform binding f.

(** ** The transform closures *)

Definition array_length (h : gmap loc cell) (t : value) : nat :=
  match t with
  | VRef l => match h !! l with Some (CArr elems _) => length elems | _ => 0 end
  | _ => 0
  end.

(** [t[idx]] *)
Definition array_index (h : gmap loc cell) (t : value) (idx : nat) : value :=
  match t with
  | VRef l =>
      match h !! l with
      | Some (CArr elems _) => default VUndef (elems !! idx)
      | _ => VUndef
      end
  | _ => VUndef
  end.

(** Modelled from the spec: [objectAt] of the framework's array mixin (not
    part of this file), the element at an index. *)
Definition objectAt (h : gmap loc cell) (t : value) (idx : nat) : value :=
  array_index h t idx.

(** [t.objectAt], as a condition. *)
Definition has_objectAt (h : gmap loc cell) (t : value) : bool :=
  match t with
  | VRef l => match h !! l with Some (CArr _ f) => f | _ => false end
  | _ => false
  end.

Definition single_fn (placeholder : value) (h : gmap loc cell) (v : value) : value :=
  if isArray h v then
    if (1 <? array_length h v)%nat then placeholder
    else if (array_length h v <=? 0)%nat then VNull
    else if has_objectAt h v then objectAt h v 0
    else array_index h v 0
  else v.

Definition notEmpty_fn (placeholder : value) (h : gmap loc cell) (v : value) : value :=
  if strict_eq v VNull || strict_eq v VUndef || strict_eq v (VStr "")
     || (isArray h v && (array_length h v =? 0)%nat)
  then placeholder else v.

Definition notNull_fn (placeholder : value) (v : value) : value :=
  if strict_eq v VNull || strict_eq v VUndef then placeholder else v.

Definition multiple_fn (v : value) : M value :=
  h ← gets heap;
  if negb (isArray h v) then
    if is_nullish v then new_array [] else new_array [v]
  else mret v.

Definition bool_fn (h : gmap loc cell) (v : value) : value :=
  let t := type_of h v in
  if bool_decide (t = T_ERROR) then v
  else VBool (if bool_decide (t = T_ARRAY) then (0 <? array_length h v)%nat
              else if strict_eq v (VStr "") then false else truthy v).

Definition not_fn (h : gmap loc cell) (v : value) : value :=
  let t := type_of h v in
  if bool_decide (t = T_ERROR) then v
  else VBool (negb (if bool_decide (t = T_ARRAY) then (0 <? array_length h v)%nat
                    else if strict_eq v (VStr "") then false else truthy v)).

Definition isNull_fn (h : gmap loc cell) (v : value) : value :=
  let t := type_of h v in
  if bool_decide (t = T_ERROR) then v else VBool (is_nullish v).

(** ** Change notification, value application and the flush *)

Definition fromPropertyDidChange (this : loc) (key target : value) : M unit :=
  v ← gets (λ s, target_get (world s) target key);
  bindingValue ← getp this "_bindingValue";
  if negb (strict_eq v bindingValue) then
    setp this "_bindingValue" v;;
    queue ← getp SC_Binding "_changeQueue";
    set_add queue (VRef this);;
    emit (EEnqueue this)
  else mret ().

(** Running what a call into outside code does; [flush] is what
    [SC.Binding.flushPendingChanges()] does when that code calls it. *)
Fixpoint run_script (flush : M value) (sc : script World) : M value :=
  match sc with
  | Done v => mret v
  | Touch f k => modify (λ s, set_world (f (world s)) s);; run_script flush k
  | Notify b key target k => fromPropertyDidChange b key target;; run_script flush k
  | Flush k => flush;; run_script flush k
  | Raise msg => throw (HostError msg)
  end.

(** [f(v, this)] for a function value [f]. *)
Definition call_fn (flush : M value) (f v : value) (this : loc) : M value := λ s,
  match f with
  | VRef l =>
      match heap s !! l with
      | Some (CFun c) =>
          match c with
          | SingleFn p => Ret (single_fn p (heap s) v) s []
          | NotEmptyFn p => Ret (notEmpty_fn p (heap s) v) s []
          | NotNullFn p => Ret (notNull_fn p v) s []
          | MultipleFn => multiple_fn v s
          | BoolFn => Ret (bool_fn (heap s) v) s []
          | NotFn => Ret (not_fn (heap s) v) s []
          | IsNullFn => Ret (isNull_fn (heap s) v) s []
          | UserFn id => run_script flush (user_fn id (world s) v (VRef this)) s
          | Method _ => Throw (HostError "a method called as a transform") s []
          end
      | _ => Throw (TypeError "transform is not a function") s []
      end
  | _ => Throw (TypeError "transform is not a function") s []
  end.

(** [target.setPathIfChanged(key, v)] *)
Definition setPathIfChanged (flush : M value) (target key v : value) : M unit :=
  emit (ESetPath target key v);;
  sc ← gets (λ s, target_setPathIfChanged (world s) target key v);
  run_script flush sc;;
  mret ().

Definition _computeBindingTargets (this : loc) : M unit :=
  fromTarget ← getp this "_fromTarget";
  (if negb (truthy fromTarget) then
     path ← getp this "_fromPropertyPath";
     root ← getp this "_fromRoot";
     tuple ← gets (λ s, tupleForPropertyPath (world s) path root);
     match tuple with
     | Some (target, key) =>
         setp this "_fromTarget" target;;
         setp this "_fromPropertyKey" key
     | None => mret ()
     end
   else mret ());;
  toTarget ← getp this "_toTarget";
  if negb (truthy toTarget) then
    path ← getp this "_toPropertyPath";
    root ← getp this "_toRoot";
    tuple ← gets (λ s, tupleForPropertyPath (world s) path root);
    match tuple with
    | Some (target, key) =>
        setp this "_toTarget" target;;
        setp this "_toPropertyKey" key
    | None => mret ()
    end
  else mret ().

(** The [for] loop of [applyBindingValue]: [n] iterations are left, the next
    index is [idx]. *)
Fixpoint transform_loop (flush : M value) (this : loc) (transforms : value)
    (n idx : nat) (v : value) : M value :=
  match n with
  | O => mret v
  | S n' =>
      f ← gets (λ s, array_index (heap s) transforms idx);
      emit (ETransform idx f v);;
      v' ← call_fn flush f v this;
      transform_loop flush this transforms n' (S idx) v'
  end.

Definition applyBindingValue (flush : M value) (this : loc) : M unit :=
  _computeBindingTargets this;;
  v ← getp this "_bindingValue";
  oneWay ← getp this "_oneWay";
  fromTarget ← getp this "_fromTarget";
  (if negb (truthy oneWay) && truthy fromTarget then
     key ← getp this "_fromPropertyKey";
     setPathIfChanged flush fromTarget key v
   else mret ());;
  transforms ← getp this "_transforms";
  v ← (if truthy transforms then
         len ← gets (λ s, array_length (heap s) transforms);
         transform_loop flush this transforms len 0 v
       else mret v);
  noErr ← getp this "_noError";
  h ← gets heap;
  let v := if truthy noErr && bool_decide (type_of h v = T_ERROR) then VNull else v in
  toTarget ← getp this "_toTarget";
  if truthy toTarget then
    key ← getp this "_toPropertyKey";
    setPathIfChanged flush toTarget key v
  else mret ().

(** [while (binding = queue.popObject()) binding.applyBindingValue()] *)
Fixpoint drain (apply : loc → M unit) (fuel : nat) (queue : value) : M unit :=
  match fuel with
  | O => throw OutOfFuel
  | S n =>
      binding ← set_popObject queue;
      if truthy binding then
        match binding with
        | VRef b => emit (EApply b);; apply b
        | _ => throw (TypeError "applyBindingValue is not a function")
        end;;
        drain apply n queue
      else mret ()
  end.

(** The outer [while] loop of [flushPendingChanges]. *)
Fixpoint flush_loop (apply : loc → M unit) (fuel : nat) (this : loc) : M unit :=
  match fuel with
  | O => throw OutOfFuel
  | S n =>
      queue ← getp this "_changeQueue";
      len ← set_length queue;
      if (0 <? len)%nat then
        alternate ← getp this "_alternateChangeQueue";
        setp this "_changeQueue" alternate;;
        setp this "_alternateChangeQueue" queue;;
        drain apply n queue;;
        flush_loop apply n this
      else mret ()
  end.

(** [fuel] bounds the iterations of the two loops and the depth of the calls
    outside code makes back into [flushPendingChanges]. *)
Fixpoint flushPendingChanges (fuel : nat) (this : loc) : M value :=
  isFlushing ← getp this "_isFlushing";
  if truthy isFlushing then mret VUndef else
  match fuel with
  | O => throw OutOfFuel
  | S n =>
      setp this "_isFlushing" YES;;
      emit EFlushBegin;;
      flush_loop (applyBindingValue (flushPendingChanges n SC_Binding)) n this;;
      setp this "_isFlushing" NO;;
      emit EFlushEnd;;
      mret (VRef this)
  end.

(** ** The state after the object literal is evaluated *)

Definition method_names : list string :=
  ["beget"; "builder"; "from"; "to"; "connect"; "disconnect";
   "fromPropertyDidChange"; "flushPendingChanges"; "applyBindingValue";
   "_computeBindingTargets"; "oneWay"; "transform"; "resetTransforms";
   "noError"; "single"; "notEmpty"; "notNull"; "multiple"; "bool"; "not";
   "isNull"].

Definition method_cells : list (loc * cell) :=
  imap (λ i name, (3 + i, CFun (Method name))) method_names.

Definition literal_props : gmap string value :=
  <["_changeQueue" := VRef 1]> (<["_alternateChangeQueue" := VRef 2]>
    (list_to_map (imap (λ i name, (name, VRef (3 + i))) method_names))).

Definition initial_heap : gmap loc cell :=
  <[SC_Binding := CObj literal_props None]> (<[1 := CSet []]> (<[2 := CSet []]>
    (list_to_map method_cells))).

Definition initial_state (w : World) : State :=
  mkState initial_heap (3 + length method_names) ∅ [] w.

End Binding.

Arguments Ret {H A} a s t.
Arguments Throw {H A} e s t.

(** * Properties *)

Section Properties.
Context {H : Host}.

(** ** Inverting a computation that returned *)

Lemma bind_Ret_inv {A B} (m : M A) (f : A → M B) s b s' t :
  (m ≫= f) s = Ret b s' t →
  ∃ a s1 t1 t2, m s = Ret a s1 t1 ∧ f a s1 = Ret b s' t2 ∧ t = t1 ++ t2.
Proof.
  unfold mbind, M_bind, bind. destruct (m s) as [a s1 t1|]; [|done].
  destruct (f a s1) as [b' s2 t2|] eqn:E; [|done].
  intros [= -> -> <-]. by exists a, s1, t1, t2.
Qed.

Lemma mret_inv {A} (a b : A) s s' t :
  (mret a : M A) s = Ret b s' t → b = a ∧ s' = s ∧ t = [].
Proof. by intros [= -> -> <-]. Qed.

Lemma gets_inv {A} (f : State → A) s a s' t :
  gets f s = Ret a s' t → a = f s ∧ s' = s ∧ t = [].
Proof. by intros [= <- <- <-]. Qed.

Lemma getp_inv l k s v s' t :
  getp l k s = Ret v s' t → v = prop s l k ∧ s' = s ∧ t = [].
Proof. by intros [= <- <- <-]. Qed.

Lemma modify_inv (f : State → State) s u s' t :
  modify f s = Ret u s' t → s' = f s ∧ t = [].
Proof. by intros [= _ <- <-]. Qed.

Lemma emit_inv ev s u s' t : emit ev s = Ret u s' t → s' = s ∧ t = [ev].
Proof. by intros [= _ <- <-]. Qed.

Lemma setp_inv l k v s u s' t :
  setp l k v s = Ret u s' t →
  ∃ props proto, heap s !! l = Some (CObj props proto) ∧
    s' = set_heap (<[l := CObj (<[k := v]> props) proto]> (heap s)) s ∧ t = [].
Proof.
  unfold setp. destruct (heap s !! l) as [[props proto| | | |]|]; try done.
  intros [= <- <-]. by exists props, proto.
Qed.

Lemma alloc_inv c s l s' t :
  alloc c s = Ret l s' t →
  l = next s ∧ t = [] ∧
  s' = mkState (<[next s := c]> (heap s)) (S (next s)) (globals s) (observers s) (world s).
Proof. by intros [= <- <- <-]. Qed.

Lemma throw_inv {A} e s (a : A) s' t : throw e s = Ret a s' t → False.
Proof. done. Qed.

(** Peels the steps of a computation that returned, leaving the heap
    conditions of its writes as hypotheses. *)
Ltac minv :=
  repeat match goal with
  | Hm : (_ ≫= _) _ = Ret _ _ _ |- _ =>
      apply bind_Ret_inv in Hm as (? & ? & ? & ? & ? & Hm & ->)
  | Hm : @mret _ _ _ _ _ = Ret _ _ _ |- _ => apply mret_inv in Hm as (-> & -> & ->)
  | Hm : getp _ _ _ = Ret _ _ _ |- _ => apply getp_inv in Hm as (-> & -> & ->)
  | Hm : gets _ _ = Ret _ _ _ |- _ => apply gets_inv in Hm as (-> & -> & ->)
  | Hm : modify _ _ = Ret _ _ _ |- _ => apply modify_inv in Hm as (-> & ->)
  | Hm : emit _ _ = Ret _ _ _ |- _ => apply emit_inv in Hm as (-> & ->)
  | Hm : setp _ _ _ _ = Ret _ _ _ |- _ =>
      apply setp_inv in Hm as (? & ? & ? & -> & ->)
  | Hm : alloc _ _ = Ret _ _ _ |- _ => apply alloc_inv in Hm as (-> & -> & ->)
  | Hm : throw _ _ = Ret _ _ _ |- _ => destruct (throw_inv _ _ _ _ _ Hm)
  end.

(** ** Property lookup under heap updates *)

Lemma prop_own s l k props proto v :
  heap s !! l = Some (CObj props proto) → props !! k = Some v → prop s l k = v.
Proof. unfold prop. simpl. by intros -> ->. Qed.

(** Replacing a cell that is not an object by one that is not an object
    leaves every property lookup as it was. *)
Definition is_obj (c : cell) : bool :=
  match c with CObj _ _ => true | _ => false end.

Lemma lookup_chain_insert_data n h l0 c c' l k :
  h !! l0 = Some c → is_obj c = false → is_obj c' = false →
  lookup_chain n (<[l0 := c']> h) l k = lookup_chain n h l k.
Proof.
  intros Hc Hn Hn'. revert l. induction n as [|n IH]; intros l; [done|].
  simpl. destruct (decide (l0 = l)) as [->|Hne].
  - rewrite lookup_insert_eq, Hc. by destruct c, c'.
  - rewrite lookup_insert_ne by done.
    destruct (h !! l) as [[props [p|]| | | |]|]; try done.
    destruct (props !! k); [done|]. by rewrite IH.
Qed.

(** Writing a property [k'] leaves the lookups of every other property as
    they were. *)
Lemma lookup_chain_insert_other n h l0 props proto k' v l k :
  h !! l0 = Some (CObj props proto) → k' ≠ k →
  lookup_chain n (<[l0 := CObj (<[k' := v]> props) proto]> h) l k
  = lookup_chain n h l k.
Proof.
  intros Hc Hk. revert l. induction n as [|n IH]; intros l; [done|].
  simpl. destruct (decide (l0 = l)) as [->|Hne].
  - rewrite lookup_insert_eq, Hc, lookup_insert_ne by done.
    destruct (props !! k); [done|]. destruct proto; [by rewrite IH|done].
  - rewrite lookup_insert_ne by done.
    destruct (h !! l) as [[props' [p|]| | | |]|]; try done.
    destruct (props' !! k); [done|]. by rewrite IH.
Qed.


(** ** Inverting the array primitives *)

Lemma read_inv v k s r s' t : read v k s = Ret r s' t → s' = s ∧ t = [].
Proof. destruct v; simpl; try done; by intros [= _ <- <-]. Qed.

Lemma array_slice_inv a s r s' t :
  array_slice a s = Ret r s' t →
  ∃ l elems f, a = VRef l ∧ heap s !! l = Some (CArr elems f) ∧
    r = VRef (next s) ∧ t = [] ∧
    s' = mkState (<[next s := CArr elems f]> (heap s)) (S (next s))
                 (globals s) (observers s) (world s).
Proof.
  unfold array_slice. destruct a as [| | | | |l]; try done.
  destruct (heap s !! l) as [[| elems f| | |]|] eqn:E; try done.
  intros [= <- <- <-]. by exists l, elems, f.
Qed.

Lemma new_array_inv elems s r s' t :
  new_array elems s = Ret r s' t →
  r = VRef (next s) ∧ t = [] ∧
  s' = mkState (<[next s := CArr elems true]> (heap s)) (S (next s))
               (globals s) (observers s) (world s).
Proof. by intros [= <- <- <-]. Qed.

Lemma array_push_inv a v s u s' t :
  array_push a v s = Ret u s' t →
  ∃ l elems f, a = VRef l ∧ heap s !! l = Some (CArr elems f) ∧ t = [] ∧
    s' = set_heap (<[l := CArr (elems ++ [v]) f]> (heap s)) s.
Proof.
  unfold array_push. destruct a as [| | | | |l]; try done.
  destruct (heap s !! l) as [[| elems f| | |]|] eqn:E; try done.
  intros [= <- <-]. by exists l, elems, f.
Qed.

Lemma prop_setp_eq s l k v props proto :
  heap s !! l = Some (CObj props proto) →
  prop (set_heap (<[l := CObj (<[k := v]> props) proto]> (heap s)) s) l k = v.
Proof.
  intros _. unfold prop. simpl. by rewrite lookup_insert_eq, lookup_insert_eq.
Qed.

Lemma prop_push s l elems f v b k :
  heap s !! l = Some (CArr elems f) →
  prop (set_heap (<[l := CArr (elems ++ [v]) f]> (heap s)) s) b k = prop s b k.
Proof.
  intros Hl. unfold prop, set_heap. cbn [heap].
  by eapply lookup_chain_insert_data.
Qed.

(** ** Cells that never change *)

(** Function objects are never written: every computation of the model
    leaves the ones that exist where they are. *)
Definition keeps_functions (s s' : State) : Prop :=
  next s ≤ next s' ∧
  ∀ l c, l < next s → heap s !! l = Some (CFun c) → heap s' !! l = Some (CFun c).

#[local] Instance keeps_functions_preorder : PreOrder keeps_functions.
Proof.
  split.
  - intros s. by split.
  - intros s1 s2 s3 [Hn1 H1] [Hn2 H2]. split; [lia|].
    intros l c Hl Hc. apply H2; [lia|]. by apply H1.
Qed.

(** [respects R m]: whatever [m] does, and however it ends, the state it
    leaves is related by [R] to the one it started in. *)
Definition respects {A} (R : relation State) (m : M A) : Prop :=
  ∀ s, R s (final_state (m s)).

Lemma respects_bind {A B} (R : relation State) `{!PreOrder R} (m : M A) (f : A → M B) :
  respects R m → (∀ a, respects R (f a)) → respects R (m ≫= f).
Proof.
  intros Hm Hf s. unfold mbind, M_bind, bind.
  specialize (Hm s). destruct (m s) as [a s1 t1|e s1 t1]; simpl in *; [|done].
  specialize (Hf a s1). destruct (f a s1); simpl in *; by etrans.
Qed.

Lemma respects_pure {A} (R : relation State) `{!Reflexive R} (m : M A) :
  (∀ s, final_state (m s) = s) → respects R m.
Proof. intros Hm s. by rewrite Hm. Qed.

Lemma respects_mret {A} (R : relation State) `{!Reflexive R} (a : A) :
  respects R (mret a).
Proof. by apply respects_pure. Qed.

Lemma respects_gets {A} (R : relation State) `{!Reflexive R} (f : State → A) :
  respects R (gets f).
Proof. by apply respects_pure. Qed.

Lemma respects_getp (R : relation State) `{!Reflexive R} l k :
  respects R (getp l k).
Proof. by apply respects_pure. Qed.

Lemma respects_emit (R : relation State) `{!Reflexive R} ev :
  respects R (emit ev).
Proof. by apply respects_pure. Qed.

Lemma respects_throw {A} (R : relation State) `{!Reflexive R} e :
  respects R (throw e : M A).
Proof. by apply respects_pure. Qed.

Lemma respects_read (R : relation State) `{!Reflexive R} v k :
  respects R (read v k).
Proof. apply respects_pure; [done|]. intros s. by destruct v. Qed.

Lemma setp_keeps_functions l k v : respects keeps_functions (setp l k v).
Proof.
  intros s. unfold setp.
  destruct (heap s !! l) as [[props proto| | | |]|] eqn:E; try reflexivity.
  simpl. split; [done|]. intros l' c _ Hc. simpl.
  rewrite lookup_insert_ne; [done|]. intros ->. congruence.
Qed.

Lemma alloc_keeps_functions c : respects keeps_functions (alloc c).
Proof.
  intros s. split; [simpl; lia|]. intros l' c' Hl Hc. simpl.
  rewrite lookup_insert_ne; [done|]. lia.
Qed.

Lemma array_push_keeps_functions a v : respects keeps_functions (array_push a v).
Proof.
  intros s. unfold array_push. destruct a as [| | | | |l]; try reflexivity.
  destruct (heap s !! l) as [[| elems f| | |]|] eqn:E; try reflexivity.
  simpl. split; [done|]. intros l' c _ Hc. simpl.
  rewrite lookup_insert_ne; [done|]. intros ->. congruence.
Qed.

Lemma array_slice_keeps_functions a : respects keeps_functions (array_slice a).
Proof.
  intros s. unfold array_slice. destruct a as [| | | | |l]; try reflexivity.
  destruct (heap s !! l) as [[| elems f| | |]|] eqn:E; try reflexivity.
  split; [simpl; lia|]. intros l' c' Hl Hc. simpl.
  rewrite lookup_insert_ne; [done|]. lia.
Qed.

Create HintDb respects.

(** Decomposes a computation into its steps and closes each with the
    lemmas of the primitives. *)
Ltac respects_steps :=
  repeat first
    [ lazymatch goal with
      | |- respects _ (_ ≫= _) => simple apply @respects_bind; [apply _| |intros ?]
      | |- respects _ (mret _) => simple apply @respects_mret; apply _
      | |- respects _ (getp _ _) => simple apply @respects_getp; apply _
      | |- respects _ (gets _) => simple apply @respects_gets; apply _
      | |- respects _ (emit _) => simple apply @respects_emit; apply _
      | |- respects _ (throw _) => simple apply @respects_throw; apply _
      | |- respects _ (read _ _) => simple apply @respects_read; apply _
      | |- respects _ (match _ with _ => _ end) => case_match
      | |- respects _ (let '(_, _) := ?p in _) => destruct p
      end
    | solve [eauto with respects] ].

#[local] Hint Resolve setp_keeps_functions alloc_keeps_functions
  array_push_keeps_functions array_slice_keeps_functions : respects.

Lemma beget_plain_keeps_functions this : respects keeps_functions (beget_plain this).
Proof. unfold beget_plain, SC_beget. respects_steps. Qed.

#[local] Hint Resolve beget_plain_keeps_functions : respects.

Lemma transform_keeps_functions this f : respects keeps_functions (transform this f).
Proof. unfold transform, new_array. respects_steps. Qed.

(** What [transform] leaves behind when it returns: the pipeline of the
    binding it returns is an array that ends with the function. *)
Lemma transform_installs this f s b s' t :
  transform this f s = Ret b s' t →
  ∃ tr elems flag, prop s' b "_transforms" = VRef tr ∧
    heap s' !! tr = Some (CArr (elems ++ [f]) flag).
Proof.
  unfold transform. intros Ht. minv.
  match goal with Hp : array_push _ _ _ = _ |- _ =>
    apply array_push_inv in Hp as (tr & elems & flag & -> & Htr & -> & ->) end.
  exists tr, elems, flag. split; [|by simpl; rewrite lookup_insert_eq].
  erewrite prop_push by done.
  match goal with Hn : (if negb _ then _ else _) _ = _ |- _ => rename Hn into Hnew end.
  destruct (negb _) eqn:Ht2 in Hnew.
  - minv. match goal with Hn : new_array _ _ = _ |- _ =>
      apply new_array_inv in Hn as (-> & -> & ->) end.
    by erewrite prop_setp_eq.
  - minv.
    match goal with Hn : (if truthy _ then _ else _) _ = _ |- _ => rename Hn into Hold end.
    destruct (truthy _) eqn:Ht1 in Hold; [|by minv].
    minv. match goal with Hr : read _ _ _ = _ |- _ =>
      pose proof (read_inv _ _ _ _ _ _ Hr) as [-> ->] end.
    destruct (strict_eq _ _) in Hold; [|by minv].
    minv. match goal with Hs : array_slice _ _ = _ |- _ =>
      apply array_slice_inv in Hs as (? & ? & ? & ? & ? & -> & -> & ->) end.
    by erewrite prop_setp_eq.
Qed.

(** ** The [single] helper *)

Lemma call_single_fn flush f p v this s :
  heap s !! f = Some (CFun (SingleFn p)) →
  call_fn flush (VRef f) v this s = Ret (single_fn p (heap s) v) s [].
Proof. unfold call_fn. by intros ->. Qed.

Lemma single_fn_empty p h l f :
  h !! l = Some (CArr [] f) → single_fn p h (VRef l) = VNull.
Proof. unfold single_fn, isArray, array_length. by intros ->. Qed.

Lemma single_fn_one p h l f x :
  h !! l = Some (CArr [x] f) → single_fn p h (VRef l) = x.
Proof.
  unfold single_fn, isArray, array_length, has_objectAt, objectAt, array_index.
  intros ->. by destruct f.
Qed.

Lemma single_fn_many p h l f x y rest :
  h !! l = Some (CArr (x :: y :: rest) f) → single_fn p h (VRef l) = p.
Proof. unfold single_fn, isArray, array_length. by intros ->. Qed.

Lemma single_fn_other p h v : isArray h v = false → single_fn p h v = v.
Proof. unfold single_fn. by intros ->. Qed.

(** C10: when [single()] is called without a placeholder and returns, the
    last function of the pipeline of the binding it returns maps an empty
    array to null, an array of one element to that element, an array of more
    than one element to the multiple-values placeholder, and every value that
    is not an array to itself, in every state that still holds the function
    and without changing that state. *)
Theorem single_installs_single_transform
    (this : loc) (fromPath : value) (s : State) (b : loc) (s' : State) (t : list event) :
  single this fromPath VUndef s = Ret b s' t →
  ∃ (tr : loc) (elems : list value) (flag : bool) (f : loc),
    prop s' b "_transforms" = VRef tr ∧
    heap s' !! tr = Some (CArr (elems ++ [VRef f]) flag) ∧
    heap s' !! f = Some (CFun (SingleFn MULTIPLE_PLACEHOLDER)) ∧
    ∀ (flush : M value) (receiver : loc) (s1 : State),
      heap s1 !! f = Some (CFun (SingleFn MULTIPLE_PLACEHOLDER)) →
      (∀ l fl, heap s1 !! l = Some (CArr [] fl) →
         call_fn flush (VRef f) (VRef l) receiver s1 = Ret VNull s1 []) ∧
      (∀ l fl x, heap s1 !! l = Some (CArr [x] fl) →
         call_fn flush (VRef f) (VRef l) receiver s1 = Ret x s1 []) ∧
      (∀ l fl x y rest, heap s1 !! l = Some (CArr (x :: y :: rest) fl) →
         call_fn flush (VRef f) (VRef l) receiver s1 = Ret MULTIPLE_PLACEHOLDER s1 []) ∧
      (∀ v, isArray (heap s1) v = false →
         call_fn flush (VRef f) v receiver s1 = Ret v s1 []).
Proof.
  unfold single, closure. intros Hs. simpl in Hs. minv.
  match goal with Ht : transform ?a ?f ?st = _ |- _ =>
    pose proof (transform_installs _ _ _ _ _ _ Ht) as (tr & elems & flag & Hp & Htr);
    pose proof (transform_keeps_functions a f st) as [_ Hkeep];
    rewrite Ht in Hkeep; simpl in Hkeep end.
  exists tr, elems, flag, (next x0). split_and!; [done|done| |].
  - apply Hkeep; [lia|]. by rewrite lookup_insert_eq.
  - intros flush receiver s1 Hf. split_and!.
    + intros l fl Hl. rewrite (call_single_fn _ _ _ _ _ _ Hf).
      by rewrite (single_fn_empty _ _ _ _ Hl).
    + intros l fl y Hl. rewrite (call_single_fn _ _ _ _ _ _ Hf).
      by rewrite (single_fn_one _ _ _ _ _ Hl).
    + intros l fl y z rest Hl. rewrite (call_single_fn _ _ _ _ _ _ Hf).
      by rewrite (single_fn_many _ _ _ _ _ _ _ Hl).
    + intros v Hv. rewrite (call_single_fn _ _ _ _ _ _ Hf).
      by rewrite (single_fn_other _ _ _ Hv).
Qed.

(** ** [from] *)

Lemma from_without_path this propertyPath root s :
  truthy propertyPath = false → from this propertyPath root s = Ret this s [].
Proof. unfold from. by intros ->. Qed.

Lemma global_setp_unbound x k v s :
  globals s !! x = None → global_setp x k v s = Throw (ReferenceError x) s [].
Proof. unfold global_setp. by intros ->. Qed.

(** Every computation either returns or throws. *)
Lemma outcome_cases {A} (o : outcome A) :
  (∃ a s t, o = Ret a s t) ∨ (∃ e s t, o = Throw e s t).
Proof. destruct o; [left|right]; eauto. Qed.

Lemma setp_globals l k v s u s' t :
  setp l k v s = Ret u s' t → globals s' = globals s.
Proof. intros Hs. by minv. Qed.

Lemma beget_plain_globals this s r s' t :
  beget_plain this s = Ret r s' t → globals s' = globals s.
Proof. unfold beget_plain, SC_beget. intros Hb. by minv. Qed.

(** The state after the assignment [l.k = v]. *)
Definition write_prop (l : loc) (k : string) (v : value) (s : State) : State :=
  match heap s !! l with
  | Some (CObj props proto) =>
      set_heap (<[l := CObj (<[k := v]> props) proto]> (heap s)) s
  | _ => s
  end.

Definition is_object (s : State) (l : loc) : Prop :=
  ∃ props proto, heap s !! l = Some (CObj props proto).

Lemma setp_object l k v s :
  is_object s l → setp l k v s = Ret () (write_prop l k v s) [].
Proof. intros (props & proto & Hl). unfold setp, write_prop. by rewrite Hl. Qed.

Lemma setp_Ret l k v s u s' t :
  setp l k v s = Ret u s' t → is_object s l ∧ s' = write_prop l k v s ∧ t = [].
Proof.
  intros Hs. apply setp_inv in Hs as (props & proto & Hl & -> & ->).
  split; [by exists props, proto|]. unfold write_prop. by rewrite Hl.
Qed.

Lemma write_prop_object l k v s l' :
  is_object s l' → is_object (write_prop l k v s) l'.
Proof.
  intros (props & proto & Hl). unfold write_prop.
  destruct (heap s !! l) as [[props0 proto0| | | |]|] eqn:E; try by exists props, proto.
  unfold is_object, set_heap. cbn [heap].
  destruct (decide (l = l')) as [->|Hne].
  - eexists _, _. by rewrite lookup_insert_eq.
  - exists props, proto. by rewrite lookup_insert_ne.
Qed.

Lemma prop_write_eq l k v s : is_object s l → prop (write_prop l k v s) l k = v.
Proof.
  intros (props & proto & Hl). unfold write_prop. rewrite Hl.
  by apply prop_setp_eq.
Qed.

Lemma prop_write_ne l k v s l' k' :
  k ≠ k' → prop (write_prop l k v s) l' k' = prop s l' k'.
Proof.
  intros Hk. unfold write_prop.
  destruct (heap s !! l) as [[props proto| | | |]|] eqn:E; try done.
  unfold prop, set_heap. cbn [heap]. by apply lookup_chain_insert_other.
Qed.

Lemma write_prop_globals l k v s : globals (write_prop l k v s) = globals s.
Proof. unfold write_prop. by repeat case_match. Qed.

(** C1: with a truthy path, and [bidning] bound nowhere, [from] does not
    return a binding: it throws, a ReferenceError once the two assignments
    to the binding have gone through, and the cached from-tuple is as it
    was. *)
Theorem from_with_path_throws (this : loc) (propertyPath root : value) (s : State) :
  truthy propertyPath = true →
  globals s !! "bidning" = None →
  (∃ e s' t, from this propertyPath root s = Throw e s' t) ∧
  (this ≠ SC_Binding → is_object s this →
     ∃ s', from this propertyPath root s = Throw (ReferenceError "bidning") s' [] ∧
           prop s' this "_fromPropertyPath" = propertyPath ∧
           prop s' this "_fromTuple" = prop s this "_fromTuple").
Proof.
  intros Hp Hg. split.
  - destruct (outcome_cases (from this propertyPath root s))
      as [(b & s' & t & Hr)|?]; [exfalso|done].
    unfold from in Hr. rewrite Hp in Hr. simpl in Hr.
    apply bind_Ret_inv in Hr as (b0 & s0 & t0 & t1 & Hb & Hr & ->).
    assert (globals s0 = globals s) as Hg0.
    { case_bool_decide; [by eapply beget_plain_globals|]. by minv. }
    apply bind_Ret_inv in Hr as (? & s1 & ? & ? & H1 & Hr & ->).
    apply bind_Ret_inv in Hr as (? & s2 & ? & ? & H2 & Hr & ->).
    apply bind_Ret_inv in Hr as (? & s3 & ? & ? & H3 & Hr & ->).
    apply setp_globals in H1, H2.
    rewrite global_setp_unbound in H3; [done|]. congruence.
  - intros Hne Hthis. unfold from. rewrite Hp. simpl.
    rewrite bool_decide_eq_false_2 by done.
    unfold mbind, M_bind, bind. simpl.
    rewrite (setp_object _ _ _ _ Hthis).
    rewrite (setp_object this "_fromRoot") by by apply write_prop_object.
    rewrite global_setp_unbound by by rewrite !write_prop_globals.
    eexists. split; [done|]. split.
    + rewrite prop_write_ne by done. by apply prop_write_eq.
    + by rewrite !prop_write_ne.
Qed.

(** ** [connect] and [disconnect] *)

Definition connected (s : State) (b : loc) : bool := truthy (prop s b "isConnected").

(** The subscriptions [connect] asks the registry for. *)
Definition subscriptions (s : State) (b : loc) : list registration :=
  Registration (prop s b "_fromPropertyPath") (prop s b "propertyDidChange")
               (VRef b) (prop s b "_fromRoot")
  :: (if truthy (prop s b "_oneWay") then []
      else [Registration (prop s b "_toPropertyPath") (prop s b "propertyDidChange")
                         (VRef b) (prop s b "_toRoot")]).

Lemma prop_set_observers o s l k : prop (set_observers o s) l k = prop s l k.
Proof. done. Qed.

Lemma is_object_set_observers o s l : is_object (set_observers o s) l ↔ is_object s l.
Proof. done. Qed.

(** What [connect] does to a binding that is not connected. *)
Lemma connect_unconnected b s :
  is_object s b → connected s b = false →
  connect b s =
    Ret b (write_prop b "isConnected" YES
             (set_observers (observers s ++ subscriptions s b) s)) [].
Proof.
  intros Hb Hc. unfold connect, connected in *.
  unfold mbind, M_bind, bind, addObserver. simpl. rewrite Hc. simpl.
  rewrite !prop_set_observers. unfold subscriptions.
  destruct (truthy (prop s b "_oneWay")); simpl.
  - rewrite setp_object by done. by rewrite app_nil_r.
  - rewrite !prop_set_observers. rewrite setp_object by done.
    unfold set_observers. simpl. by rewrite <- app_assoc.
Qed.

Lemma connect_connected b s : connected s b = true → connect b s = Ret b s [].
Proof.
  intros Hc. unfold connect, connected in *.
  unfold mbind, M_bind, bind. simpl. by rewrite Hc.
Qed.

Lemma disconnect_unconnected b s :
  connected s b = false → disconnect b s = Ret b s [].
Proof.
  intros Hc. unfold disconnect, connected in *.
  unfold mbind, M_bind, bind. simpl. by rewrite Hc.
Qed.

(** C4: [connect] checks neither path: on every binding, with or without a
    from-path and a to-path, it returns the binding and leaves it connected,
    and what it has asked the registry for, if the binding was not
    connected, are the subscriptions above, of which a one-way binding has
    only the one for its from-path. *)
Theorem connect_never_throws (b : loc) (s : State) :
  is_object s b →
  ∃ s', connect b s = Ret b s' [] ∧ connected s' b = true ∧
        (connected s b = false →
         observers s' = observers s ++ subscriptions s b).
Proof.
  intros Hb. destruct (connected s b) eqn:Hc.
  - exists s. by rewrite connect_connected.
  - eexists. split; [by apply connect_unconnected|]. split.
    + unfold connected. by rewrite prop_write_eq.
    + intros _. unfold write_prop. by repeat case_match.
Qed.

(** ** The guard of [flushPendingChanges] *)

Lemma flush_guarded fuel this s :
  truthy (prop s this "_isFlushing") = true →
  flushPendingChanges fuel this s = Ret VUndef s [].
Proof.
  intros Hf. destruct fuel; simpl; unfold mbind, M_bind, bind; simpl; by rewrite Hf.
Qed.

(** ** Two concrete runs from the initial state *)

(** The value a computation returned, if it returned. *)
Definition result_of {A} (o : outcome A) : option A :=
  match o with Ret a _ _ => Some a | Throw _ _ _ => None end.

(** The pipeline a binding shows: the elements of [b._transforms]. *)
Definition pipeline (s : State) (b : loc) : option (list value) :=
  array_elems s (prop s b "_transforms").

(** A template with one transform, an instance derived from it, and a
    transform added to the instance; the result is the pipeline the template
    shows before and after. *)
Definition derive_and_transform : M (option (list value) * option (list value)) :=
  f ← closure (UserFn 0);
  g ← closure (UserFn 1);
  template ← transform SC_Binding f;
  before ← gets (λ s, pipeline s template);
  derived ← beget template VUndef;
  transform derived g;;
  after ← gets (λ s, pipeline s template);
  mret (before, after).

(** From the initial state: the transform added to the derived binding
    shows up in the pipeline of the template. *)
Example derived_transform_reaches_template (w : World) :
  ∃ f g, result_of (derive_and_transform (initial_state w))
         = Some (Some [f], Some [f; g]) ∧ f ≠ g.
Proof. eexists _, _. split; [vm_compute; reflexivity|done]. Qed.

(** A binding with both paths: [to] derives it from [SC.Binding], and [from]
    has set the from-path on it by the time it throws. *)
Definition configured (w : World) : State :=
  final_state (from 24 (VStr "A.p") VUndef
    (final_state (to SC_Binding (VStr "B.q") VUndef (initial_state w)))).

(** C3: the handler [connect] hands to the registry is the value of
    [this.propertyDidChange]; the change handler is the method
    [fromPropertyDidChange], and no property [propertyDidChange] exists, so
    the two subscriptions carry [undefined]. *)
Theorem connect_subscribes_undefined (w : World) :
  connected (configured w) 24 = false ∧
  prop (configured w) 24 "_fromPropertyPath" = VStr "A.p" ∧
  prop (configured w) 24 "_toPropertyPath" = VStr "B.q" ∧
  (∃ m, prop (configured w) 24 "fromPropertyDidChange" = VRef m ∧
        heap (configured w) !! m = Some (CFun (Method "fromPropertyDidChange"))) ∧
  result_of (connect 24 (configured w)) = Some 24 ∧
  connected (final_state (connect 24 (configured w))) 24 = true ∧
  observers (final_state (connect 24 (configured w)))
  = [Registration (VStr "A.p") VUndef (VRef 24) VUndef;
     Registration (VStr "B.q") VUndef (VRef 24) VUndef].
Proof.
  split_and!; try (vm_compute; reflexivity).
  eexists. split; vm_compute; reflexivity.
Qed.

(** ** Who changes [isConnected] *)

(** A lookup that starts at [l] only visits locations up to [l]. *)
Lemma lookup_chain_below n h l k l0 c :
  l < l0 → lookup_chain n (<[l0 := c]> h) l k = lookup_chain n h l k.
Proof.
  revert l. induction n as [|n IH]; intros l Hl; [done|].
  simpl. rewrite lookup_insert_ne by lia.
  destruct (h !! l) as [[props [p|]| | | |]|]; try done.
  destruct (props !! k); [done|].
  destruct (p <? l) eqn:Hp; [|done]. apply IH. apply Nat.ltb_lt in Hp. lia.
Qed.

(** Writing [v] to a property changes a lookup of that property to [v] or
    not at all. *)
Lemma lookup_chain_insert_same n h l0 props proto k v l :
  h !! l0 = Some (CObj props proto) →
  lookup_chain n (<[l0 := CObj (<[k := v]> props) proto]> h) l k = v ∨
  lookup_chain n (<[l0 := CObj (<[k := v]> props) proto]> h) l k = lookup_chain n h l k.
Proof.
  intros Hc. revert l. induction n as [|n IH]; intros l; [by right|].
  simpl. destruct (decide (l0 = l)) as [->|Hne].
  - rewrite lookup_insert_eq, lookup_insert_eq. by left.
  - rewrite lookup_insert_ne by done.
    destruct (h !! l) as [[props' [p|]| | | |]|]; try by right.
    destruct (props' !! k); [by right|].
    destruct (p <? l); [apply IH|by right].
Qed.

Lemma prop_write_same l k v s b :
  prop (write_prop l k v s) b k = v ∨ prop (write_prop l k v s) b k = prop s b k.
Proof.
  unfold write_prop.
  destruct (heap s !! l) as [[props proto| | | |]|] eqn:E; try by right.
  unfold prop, set_heap. cbn [heap]. by apply lookup_chain_insert_same.
Qed.

Definition keeps_connected (s s' : State) : Prop :=
  next s ≤ next s' ∧
  ∀ l, l < next s → prop s' l "isConnected" = prop s l "isConnected".

#[local] Instance keeps_connected_preorder : PreOrder keeps_connected.
Proof.
  split.
  - intros s. by split.
  - intros s1 s2 s3 [Hn1 H1] [Hn2 H2]. split; [lia|].
    intros l Hl. rewrite H2 by lia. by apply H1.
Qed.

Lemma final_state_setp l k v s : final_state (setp l k v s) = write_prop l k v s.
Proof.
  unfold setp, write_prop. by destruct (heap s !! l) as [[props proto| | | |]|].
Qed.

Lemma write_prop_next l k v s : next (write_prop l k v s) = next s.
Proof. unfold write_prop. by repeat case_match. Qed.

Lemma setp_keeps_connected l k v :
  k ≠ "isConnected" → respects keeps_connected (setp l k v).
Proof.
  intros Hk s. rewrite final_state_setp. split; [by rewrite write_prop_next|].
  intros l' _. by apply prop_write_ne.
Qed.

Lemma alloc_keeps_connected c : respects keeps_connected (alloc c).
Proof.
  intros s. split; [simpl; lia|]. intros l Hl. unfold prop, alloc.
  cbn [final_state heap]. by apply lookup_chain_below.
Qed.

(** A computation that only replaces a data cell (an array or a set) by a
    data cell. *)
Definition data_step {A} (m : M A) : Prop :=
  ∀ s, final_state (m s) = s ∨
       ∃ l c c', heap s !! l = Some c ∧ is_obj c = false ∧ is_obj c' = false ∧
                 final_state (m s) = set_heap (<[l := c']> (heap s)) s.

Lemma data_step_keeps_connected {A} (m : M A) :
  data_step m → respects keeps_connected m.
Proof.
  intros Hm s. destruct (Hm s) as [->|(l & c & c' & Hl & Hc & Hc' & ->)]; [done|].
  split; [done|]. intros l' _. unfold prop, set_heap. cbn [heap].
  by eapply lookup_chain_insert_data.
Qed.

Lemma array_push_data a v : data_step (array_push a v).
Proof.
  intros s. unfold array_push. destruct a as [| | | | |l]; try by left.
  destruct (heap s !! l) as [[| elems f| | |]|] eqn:E; try by left.
  right. by eexists l, _, (CArr (elems ++ [v]) f).
Qed.

Lemma set_add_data q v : data_step (set_add q v).
Proof.
  intros s. unfold set_add. destruct q as [| | | | |l]; try by left.
  destruct (heap s !! l) as [[| |ms| |]|] eqn:E; try by left.
  case_bool_decide; [by left|]. right. by eexists l, _, (CSet (ms ++ [v])).
Qed.

Lemma set_popObject_data q : data_step (set_popObject q).
Proof.
  intros s. unfold set_popObject. destruct q as [| | | | |l]; try by left.
  destruct (heap s !! l) as [[| |[|m ms]| |]|] eqn:E; try by left.
  right. by eexists l, _, (CSet ms).
Qed.

Lemma set_length_pure q s : final_state (set_length q s) = s.
Proof. unfold set_length. by repeat case_match. Qed.

Lemma array_slice_keeps_connected a : respects keeps_connected (array_slice a).
Proof.
  intros s. unfold array_slice. destruct a as [| | | | |l]; try reflexivity.
  destruct (heap s !! l) as [[| elems f| | |]|] eqn:E; try reflexivity.
  apply alloc_keeps_connected.
Qed.

Lemma modify_world_keeps_connected (f : World → World) :
  respects keeps_connected (modify (λ s, set_world (f (world s)) s)).
Proof. intros s. by split. Qed.

Lemma global_setp_keeps_connected x k v :
  k ≠ "isConnected" → respects keeps_connected (global_setp x k v).
Proof.
  intros Hk s. unfold global_setp.
  destruct (globals s !! x) as [[| | | | |l]|]; try reflexivity.
  by apply setp_keeps_connected.
Qed.

#[local] Hint Resolve alloc_keeps_connected array_slice_keeps_connected
  modify_world_keeps_connected : respects.
#[local] Hint Extern 1 (respects keeps_connected (setp _ _ _)) =>
  apply setp_keeps_connected; done : respects.
#[local] Hint Extern 1 (respects keeps_connected (global_setp _ _ _)) =>
  apply global_setp_keeps_connected; done : respects.
#[local] Hint Extern 1 (respects keeps_connected (array_push _ _)) =>
  apply data_step_keeps_connected, array_push_data : respects.
#[local] Hint Extern 1 (respects keeps_connected (set_add _ _)) =>
  apply data_step_keeps_connected, set_add_data : respects.
#[local] Hint Extern 1 (respects keeps_connected (set_popObject _)) =>
  apply data_step_keeps_connected, set_popObject_data : respects.
#[local] Hint Extern 1 (respects keeps_connected (set_length _)) =>
  apply respects_pure; [apply _|apply set_length_pure] : respects.

Lemma beget_plain_keeps_connected this : respects keeps_connected (beget_plain this).
Proof. unfold beget_plain, SC_beget. respects_steps. Qed.
#[local] Hint Resolve beget_plain_keeps_connected : respects.

Lemma from_keeps_connected this p r : respects keeps_connected (from this p r).
Proof. unfold from. respects_steps. Qed.
#[local] Hint Resolve from_keeps_connected : respects.

Lemma beget_keeps_connected this p : respects keeps_connected (beget this p).
Proof. unfold beget, SC_beget. respects_steps. Qed.

Lemma to_keeps_connected this p r : respects keeps_connected (to this p r).
Proof. unfold to. respects_steps. Qed.

Lemma oneWay_keeps_connected this p f : respects keeps_connected (oneWay this p f).
Proof. unfold oneWay. respects_steps. Qed.

Lemma noError_keeps_connected this p f : respects keeps_connected (noError this p f).
Proof. unfold noError. respects_steps. Qed.

Lemma transform_keeps_connected this f : respects keeps_connected (transform this f).
Proof. unfold transform, new_array. respects_steps. Qed.
#[local] Hint Resolve transform_keeps_connected : respects.

Lemma resetTransforms_keeps_connected this :
  respects keeps_connected (resetTransforms this).
Proof. unfold resetTransforms. respects_steps. Qed.

Lemma helpers_keep_connected this p ph :
  respects keeps_connected (single this p ph) ∧
  respects keeps_connected (notEmpty this p ph) ∧
  respects keeps_connected (notNull this p ph) ∧
  respects keeps_connected (multiple this p) ∧
  respects keeps_connected (bool_ this p) ∧
  respects keeps_connected (not_ this p) ∧
  respects keeps_connected (isNull this p).
Proof.
  unfold single, notEmpty, notNull, multiple, bool_, not_, isNull, closure.
  split_and!; respects_steps.
Qed.

Lemma fromPropertyDidChange_keeps_connected this key target :
  respects keeps_connected (fromPropertyDidChange this key target).
Proof. unfold fromPropertyDidChange. respects_steps. Qed.
#[local] Hint Resolve fromPropertyDidChange_keeps_connected : respects.

Lemma run_script_keeps_connected flush sc :
  respects keeps_connected flush → respects keeps_connected (run_script flush sc).
Proof. intros Hf. induction sc; simpl; respects_steps. Qed.
#[local] Hint Resolve run_script_keeps_connected : respects.

Lemma call_fn_keeps_connected flush f v this :
  respects keeps_connected flush → respects keeps_connected (call_fn flush f v this).
Proof.
  intros Hf s. unfold call_fn. destruct f as [| | | | |l]; try reflexivity.
  destruct (heap s !! l) as [[| | |c|]|]; try reflexivity.
  destruct c; try reflexivity.
  - revert s. change (respects keeps_connected (multiple_fn v)).
    unfold multiple_fn, new_array. respects_steps.
  - by apply run_script_keeps_connected.
Qed.
#[local] Hint Resolve call_fn_keeps_connected : respects.

Lemma setPathIfChanged_keeps_connected flush target key v :
  respects keeps_connected flush →
  respects keeps_connected (setPathIfChanged flush target key v).
Proof. intros Hf. unfold setPathIfChanged. respects_steps. Qed.
#[local] Hint Resolve setPathIfChanged_keeps_connected : respects.

Lemma _computeBindingTargets_keeps_connected this :
  respects keeps_connected (_computeBindingTargets this).
Proof. unfold _computeBindingTargets. respects_steps. Qed.
#[local] Hint Resolve _computeBindingTargets_keeps_connected : respects.

Lemma transform_loop_keeps_connected flush this ts n idx v :
  respects keeps_connected flush →
  respects keeps_connected (transform_loop flush this ts n idx v).
Proof. intros Hf. revert idx v. induction n; intros; simpl; respects_steps. Qed.
#[local] Hint Resolve transform_loop_keeps_connected : respects.

Lemma applyBindingValue_keeps_connected flush this :
  respects keeps_connected flush →
  respects keeps_connected (applyBindingValue flush this).
Proof. intros Hf. unfold applyBindingValue. respects_steps. Qed.

Lemma drain_keeps_connected apply fuel queue :
  (∀ b, respects keeps_connected (apply b)) →
  respects keeps_connected (drain apply fuel queue).
Proof. intros Ha. induction fuel; simpl; respects_steps. Qed.
#[local] Hint Resolve drain_keeps_connected : respects.

Lemma flush_loop_keeps_connected apply fuel this :
  (∀ b, respects keeps_connected (apply b)) →
  respects keeps_connected (flush_loop apply fuel this).
Proof. intros Ha. induction fuel; simpl; respects_steps. Qed.

Lemma flushPendingChanges_keeps_connected fuel this :
  respects keeps_connected (flushPendingChanges fuel this).
Proof.
  revert this. induction fuel as [|n IH]; intros this; simpl; respects_steps.
  apply flush_loop_keeps_connected. intros b.
  apply applyBindingValue_keeps_connected, IH.
Qed.

(** The calls a program can make on a binding. *)
Inductive operation :=
| OpBeget (fromPath : value)
| OpFrom (propertyPath root : value)
| OpTo (propertyPath root : value)
| OpConnect
| OpDisconnect
| OpFromPropertyDidChange (key target : value)
| OpFlushPendingChanges (fuel : nat)
| OpApplyBindingValue (fuel : nat)
| OpComputeBindingTargets
| OpOneWay (fromPath aFlag : value)
| OpTransform (transformFunc : value)
| OpResetTransforms
| OpNoError (fromPath aFlag : value)
| OpSingle (fromPath placeholder : value)
| OpNotEmpty (fromPath placeholder : value)
| OpNotNull (fromPath placeholder : value)
| OpMultiple (fromPath : value)
| OpBool (fromPath : value)
| OpNot (fromPath : value)
| OpIsNull (fromPath : value).

#[local] Instance operation_eq_dec : EqDecision operation.
Proof. solve_decision. Defined.

(** The state a call leaves, whether it returns or throws. *)
Definition state_after (o : operation) (this : loc) (s : State) : State :=
  match o with
  | OpBeget p => final_state (beget this p s)
  | OpFrom p r => final_state (from this p r s)
  | OpTo p r => final_state (to this p r s)
  | OpConnect => final_state (connect this s)
  | OpDisconnect => final_state (disconnect this s)
  | OpFromPropertyDidChange k t => final_state (fromPropertyDidChange this k t s)
  | OpFlushPendingChanges n => final_state (flushPendingChanges n this s)
  | OpApplyBindingValue n =>
      final_state (applyBindingValue (flushPendingChanges n SC_Binding) this s)
  | OpComputeBindingTargets => final_state (_computeBindingTargets this s)
  | OpOneWay p f => final_state (oneWay this p f s)
  | OpTransform f => final_state (transform this f s)
  | OpResetTransforms => final_state (resetTransforms this s)
  | OpNoError p f => final_state (noError this p f s)
  | OpSingle p ph => final_state (single this p ph s)
  | OpNotEmpty p ph => final_state (notEmpty this p ph s)
  | OpNotNull p ph => final_state (notNull this p ph s)
  | OpMultiple p => final_state (multiple this p s)
  | OpBool p => final_state (bool_ this p s)
  | OpNot p => final_state (not_ this p s)
  | OpIsNull p => final_state (isNull this p s)
  end.

Lemma other_operations_keep_connected o this s :
  o ≠ OpConnect → o ≠ OpDisconnect → keeps_connected s (state_after o this s).
Proof.
  intros Hc Hd.
  destruct o; try done; simpl;
    try (by apply helpers_keep_connected with (ph := VUndef));
    try (by apply helpers_keep_connected).
  - apply beget_keeps_connected.
  - apply from_keeps_connected.
  - apply to_keeps_connected.
  - apply fromPropertyDidChange_keeps_connected.
  - apply flushPendingChanges_keeps_connected.
  - apply applyBindingValue_keeps_connected, flushPendingChanges_keeps_connected.
  - apply _computeBindingTargets_keeps_connected.
  - apply oneWay_keeps_connected.
  - apply transform_keeps_connected.
  - apply resetTransforms_keeps_connected.
  - apply noError_keeps_connected.
Qed.

Lemma final_state_bind {A B} (m : M A) (f : A → M B) s :
  final_state ((m ≫= f) s)
  = match m s with
    | Ret a s1 _ => final_state (f a s1)
    | Throw _ s1 _ => s1
    end.
Proof.
  unfold mbind, M_bind, bind. destruct (m s) as [a s1 t1|]; [|done].
  by destruct (f a s1).
Qed.

Lemma final_state_connect_unconnected this s :
  connected s this = false →
  final_state (connect this s)
  = write_prop this "isConnected" YES
      (set_observers (observers s ++ subscriptions s this) s).
Proof.
  intros Hc. unfold connect, connected, subscriptions, addObserver in *.
  rewrite final_state_bind. simpl. rewrite Hc.
  repeat (rewrite final_state_bind; cbn -[setp write_prop prop]).
  rewrite ?prop_set_observers.
  destruct (truthy (prop s this "_oneWay")); simpl;
    repeat (rewrite final_state_bind; cbn -[setp write_prop prop]);
    rewrite <- final_state_setp; unfold final_state;
    rewrite ?prop_set_observers; unfold set_observers; cbn -[setp];
    by rewrite <- ?app_assoc, ?app_nil_r.
Qed.

Lemma final_state_disconnect_connected this s :
  connected s this = true →
  ∃ o, final_state (disconnect this s)
       = write_prop this "isConnected" NO (set_observers o s).
Proof.
  intros Hc. unfold disconnect, connected, removeObserver in *.
  destruct (truthy (prop s this "_oneWay")) eqn:Ho; eexists;
    rewrite final_state_bind; simpl; rewrite Hc; simpl;
    repeat (rewrite final_state_bind; cbn -[setp write_prop prop]);
    rewrite ?prop_set_observers, Ho; simpl;
    repeat (rewrite final_state_bind; cbn -[setp write_prop prop]);
    rewrite <- final_state_setp; unfold final_state;
    unfold set_observers; cbn -[setp]; reflexivity.
Qed.

Lemma final_state_connect this s b :
  connected s b = true → connected (final_state (connect this s)) b = true.
Proof.
  intros Hb. destruct (connected s this) eqn:Hc.
  - by rewrite connect_connected.
  - rewrite final_state_connect_unconnected by done. unfold connected in *.
    by destruct (prop_write_same this "isConnected" YES
      (set_observers (observers s ++ subscriptions s this) s) b) as [->| ->].
Qed.

Lemma final_state_disconnect this s b :
  connected s b = false → connected (final_state (disconnect this s)) b = false.
Proof.
  intros Hb. destruct (connected s this) eqn:Hc.
  2: by rewrite disconnect_unconnected.
  destruct (final_state_disconnect_connected this s Hc) as [o ->].
  unfold connected in *.
  by destruct (prop_write_same this "isConnected" NO (set_observers o s) b) as [->| ->].
Qed.

(** C9: [connect] on a connected binding and [disconnect] on a binding that
    is not connected change nothing, subscribe and unsubscribe nothing, and
    return the binding; and whatever is called on whatever receiver, the
    connected flag of an existing binding goes from false to true only in a
    call of [connect] and from true to false only in a call of
    [disconnect]. *)
Theorem connect_disconnect_idempotent (b : loc) (s : State) :
  b < next s →
  (connected s b = true → connect b s = Ret b s []) ∧
  (connected s b = false → disconnect b s = Ret b s []) ∧
  (∀ (o : operation) (this : loc),
     (connected s b = false → connected (state_after o this s) b = true →
        o = OpConnect) ∧
     (connected s b = true → connected (state_after o this s) b = false →
        o = OpDisconnect)).
Proof.
  intros Hb. split_and!.
  - apply connect_connected.
  - apply disconnect_unconnected.
  - intros o this.
    destruct (decide (o = OpConnect)) as [->|Hc].
    { split; [done|]. intros H1 H2. simpl in H2.
      by rewrite final_state_connect in H2. }
    destruct (decide (o = OpDisconnect)) as [->|Hd].
    { split; [|done]. intros H1 H2. simpl in H2.
      by rewrite final_state_disconnect in H2. }
    destruct (other_operations_keep_connected o this s Hc Hd) as [_ Hk].
    unfold connected. rewrite (Hk b Hb). split; congruence.
Qed.

(** ** The order of [applyBindingValue] *)

(** The steps of value application as the specification words them, each a
    relation between the state before, the state after and the events in
    between. *)

(** Writing [v] to an endpoint with the set-if-changed primitive. *)
Definition write_endpoint (flush : M value) (target key v : value)
    (s s' : State) (t : list event) : Prop :=
  ∃ r t', run_script flush (target_setPathIfChanged (world s) target key v) s
          = Ret r s' t' ∧
          t = ESetPath target key v :: t'.

(** Step 3: if not one-way and the from-target is resolved, write the
    pending value back to the from-endpoint. *)
Definition echo_step (flush : M value) (b : loc) (v : value)
    (s s' : State) (t : list event) : Prop :=
  if negb (truthy (prop s b "_oneWay")) && truthy (prop s b "_fromTarget")
  then write_endpoint flush (prop s b "_fromTarget") (prop s b "_fromPropertyKey") v s s' t
  else s' = s ∧ t = [].

(** Step 4: the transforms in pipeline order, each receiving the output of
    the one before and the binding. *)
Inductive chain (flush : M value) (b : loc) (ts : value) :
    nat → nat → value → State → value → State → list event → Prop :=
| chain_done idx len v s :
    len ≤ idx → chain flush b ts idx len v s v s []
| chain_call idx len v s v1 s1 t1 vn sn t2 :
    idx < len →
    call_fn flush (array_index (heap s) ts idx) v b s = Ret v1 s1 t1 →
    chain flush b ts (S idx) len v1 s1 vn sn t2 →
    chain flush b ts idx len v s vn sn
      (ETransform idx (array_index (heap s) ts idx) v :: t1 ++ t2).

Definition pipeline_step (flush : M value) (b : loc) (v : value)
    (s : State) (vn : value) (s' : State) (t : list event) : Prop :=
  if truthy (prop s b "_transforms")
  then chain flush b (prop s b "_transforms") 0
         (array_length (heap s) (prop s b "_transforms")) v s vn s' t
  else vn = v ∧ s' = s ∧ t = [].

(** Step 5: an error-typed result becomes null when errors are
    suppressed. *)
Definition suppressed (s : State) (b : loc) (vn : value) : value :=
  if truthy (prop s b "_noError") && bool_decide (type_of (heap s) vn = T_ERROR)
  then VNull else vn.

(** Step 6: if the to-target is resolved, write the final value to the
    to-endpoint. *)
Definition deliver_step (flush : M value) (b : loc) (v : value)
    (s s' : State) (t : list event) : Prop :=
  if truthy (prop s b "_toTarget")
  then write_endpoint flush (prop s b "_toTarget") (prop s b "_toPropertyKey") v s s' t
  else s' = s ∧ t = [].

Lemma bind_Ret_iff {A B} (m : M A) (f : A → M B) s b s' t :
  (m ≫= f) s = Ret b s' t ↔
  ∃ a s1 t1 t2, m s = Ret a s1 t1 ∧ f a s1 = Ret b s' t2 ∧ t = t1 ++ t2.
Proof.
  split; [apply bind_Ret_inv|].
  intros (a & s1 & t1 & t2 & Hm & Hf & ->).
  unfold mbind, M_bind, bind. by rewrite Hm, Hf.
Qed.

Lemma setPathIfChanged_Ret flush target key v s u s' t :
  setPathIfChanged flush target key v s = Ret u s' t ↔
  write_endpoint flush target key v s s' t.
Proof.
  unfold setPathIfChanged, write_endpoint. split.
  - intros Hs. minv. eexists _, _. split; [done|]. simpl. by rewrite app_nil_r.
  - intros (r & t' & Hr & ->). destruct u.
    unfold mbind, M_bind, bind. simpl. by rewrite Hr, app_nil_r.
Qed.

Lemma transform_loop_chain flush b ts n idx v s vn sn t :
  transform_loop flush b ts n idx v s = Ret vn sn t ↔
  chain flush b ts idx (idx + n) v s vn sn t.
Proof.
  revert idx v s t. induction n as [|n IH]; intros idx v s t; simpl.
  - split.
    + intros [= -> -> <-]. apply chain_done. lia.
    + inversion 1; subst; [done|lia].
  - rewrite bind_Ret_iff. split.
    + intros (f & s0 & t0 & t1 & Hf & Hr & ->). minv.
      apply IH in Hr. replace (S idx + n) with (idx + S n) in Hr by lia.
      simpl. eapply chain_call; [lia|done|done].
    + inversion 1 as [|?????????? Hlt Hc Hch]; subst; [lia|].
      eexists _, s, [], _. split; [done|]. split; [|done].
      apply bind_Ret_iff. eexists (), s, [_], _. split; [done|]. split; [|done].
      apply bind_Ret_iff. eexists _, _, _, _. split; [exact Hc|]. split; [|done].
      apply IH. by replace (S idx + n) with (idx + S n) by lia.
Qed.

Lemma _computeBindingTargets_trace b s u s' t :
  _computeBindingTargets b s = Ret u s' t → t = [].
Proof.
  unfold _computeBindingTargets. intros Hc. minv.
  repeat match goal with
  | Hi : (if ?c then _ else _) _ = Ret _ _ _ |- _ => destruct c; minv
  | Hi : match ?o with Some _ => _ | None => _ end _ = Ret _ _ _ |- _ =>
      destruct o as [[? ?]|]; minv
  end; done.
Qed.

Lemma echo_step_Ret flush b v s u s' t :
  (if negb (truthy (prop s b "_oneWay")) && truthy (prop s b "_fromTarget")
   then key ← getp b "_fromPropertyKey";
        setPathIfChanged flush (prop s b "_fromTarget") key v
   else mret ()) s = Ret u s' t ↔
  echo_step flush b v s s' t.
Proof.
  unfold echo_step. destruct (_ && _).
  - rewrite <- (setPathIfChanged_Ret _ _ _ _ _ u). rewrite bind_Ret_iff. split.
    + intros (? & ? & ? & ? & Hg & Hs & ->). by minv.
    + intros Hs. by eexists _, s, [], _.
  - destruct u. split; [by intros [= <- <-]|by intros [-> ->]].
Qed.

Lemma pipeline_step_Ret flush b v s vn s' t :
  (if truthy (prop s b "_transforms")
   then len ← gets (λ s0, array_length (heap s0) (prop s b "_transforms"));
        transform_loop flush b (prop s b "_transforms") len 0 v
   else mret v) s = Ret vn s' t ↔
  pipeline_step flush b v s vn s' t.
Proof.
  unfold pipeline_step. destruct (truthy _).
  - rewrite bind_Ret_iff.
    pose proof (transform_loop_chain flush b (prop s b "_transforms")
      (array_length (heap s) (prop s b "_transforms")) 0 v s vn s' t) as Hl.
    simpl in Hl. rewrite <- Hl. split.
    + intros (? & ? & ? & ? & Hg & Hs & ->). by minv.
    + intros Hs. by eexists _, s, [], _.
  - split; [by intros [= <- <- <-]|by intros (-> & -> & ->)].
Qed.

Lemma deliver_step_Ret flush b v s u s' t :
  (if truthy (prop s b "_toTarget")
   then key ← getp b "_toPropertyKey";
        setPathIfChanged flush (prop s b "_toTarget") key v
   else mret ()) s = Ret u s' t ↔
  deliver_step flush b v s s' t.
Proof.
  unfold deliver_step. destruct (truthy _).
  - rewrite <- (setPathIfChanged_Ret _ _ _ _ _ u). rewrite bind_Ret_iff. split.
    + intros (? & ? & ? & ? & Hg & Hs & ->). by minv.
    + intros Hs. by eexists _, s, [], _.
  - destruct u. split; [by intros [= <- <-]|by intros [-> ->]].
Qed.

(** C5: a call of [applyBindingValue] returns exactly when, after the
    endpoints are resolved, these steps go through one after the other: the
    pending value itself is written back to the from-endpoint if the binding
    is not one-way and the from-target is resolved; the transforms are
    applied to it in pipeline order; an error-typed result becomes null if
    errors are suppressed; the result is written to the to-endpoint if the
    to-target is resolved.  The events of the call are those of the steps in
    that order. *)
Theorem applyBindingValue_order (flush : M value) (b : loc)
    (s s' : State) (t : list event) :
  applyBindingValue flush b s = Ret () s' t ↔
  ∃ (s1 s2 : State) (vn : value) (s3 : State) (t1 t2 t3 : list event),
    _computeBindingTargets b s = Ret () s1 [] ∧
    echo_step flush b (prop s1 b "_bindingValue") s1 s2 t1 ∧
    pipeline_step flush b (prop s1 b "_bindingValue") s2 vn s3 t2 ∧
    deliver_step flush b (suppressed s3 b vn) s3 s' t3 ∧
    t = t1 ++ t2 ++ t3.
Proof.
  unfold applyBindingValue. split.
  - intros Ha.
    apply bind_Ret_inv in Ha as ([] & s1 & t0 & ? & Hc & Ha & ->).
    pose proof (_computeBindingTargets_trace _ _ _ _ _ Hc) as ->.
    minv.
    match goal with He : (if negb _ && _ then _ else _) _ = Ret ?u _ _ |- _ =>
      destruct u; apply echo_step_Ret in He end.
    match goal with Hp : (if truthy (prop _ _ "_transforms") then _ else _) _ = _ |- _ =>
      apply pipeline_step_Ret in Hp end.
    match goal with Hd : (if truthy (prop _ _ "_toTarget") then _ else _) _ = _ |- _ =>
      apply deliver_step_Ret in Hd end.
    eexists s1, _, _, _, _, _, _. split_and!; try done.
  - intros (s1 & s2 & vn & s3 & t1 & t2 & t3 & Hc & He & Hp & Hd & ->).
    apply bind_Ret_iff. eexists (), s1, [], _. split; [done|]. split; [|done].
    apply bind_Ret_iff. eexists _, s1, [], _. split; [done|]. split; [|done].
    apply bind_Ret_iff. eexists _, s1, [], _. split; [done|]. split; [|done].
    apply bind_Ret_iff. eexists _, s1, [], _. split; [done|]. split; [|done].
    apply bind_Ret_iff. eexists (), s2, t1, _. split; [by apply echo_step_Ret|].
    split; [|done].
    apply bind_Ret_iff. eexists _, s2, [], _. split; [done|]. split; [|done].
    apply bind_Ret_iff. eexists vn, s3, t2, _.
    split; [by apply pipeline_step_Ret|]. split; [|done].
    apply bind_Ret_iff. eexists _, s3, [], _. split; [done|]. split; [|done].
    apply bind_Ret_iff. eexists _, s3, [], _. split; [done|]. split; [|done].
    apply bind_Ret_iff. eexists _, s3, [], _. split; [done|]. split; [|done].
    by apply (deliver_step_Ret _ _ _ _ ()).
Qed.

(** ** The change queues *)

(** The members of the active and of the alternate set. *)
Definition active (s : State) : list value :=
  set_members s (prop s SC_Binding "_changeQueue").

Definition alternate (s : State) : list value :=
  set_members s (prop s SC_Binding "_alternateChangeQueue").

Definition flushing (s : State) : bool := truthy (prop s SC_Binding "_isFlushing").

Definition is_ref (v : value) : Prop :=
  match v with VRef _ => True | _ => False end.

(** A set of bindings stored at [q]. *)
Definition binding_set (s : State) (q : loc) : Prop :=
  q < next s ∧
  ∃ ms, heap s !! q = Some (CSet ms) ∧ NoDup ms ∧ Forall is_ref ms.

(** [SC.Binding] holds two different sets, the active one at [qa] and the
    alternate one at [qb]. *)
Definition queues_at (qa qb : loc) (s : State) : Prop :=
  is_object s SC_Binding ∧ SC_Binding < next s ∧
  prop s SC_Binding "_changeQueue" = VRef qa ∧
  prop s SC_Binding "_alternateChangeQueue" = VRef qb ∧
  qa ≠ qb ∧ binding_set s qa ∧ binding_set s qb.

(** The bindings a trace enqueues and applies, and its flush marks. *)
Definition enqueued (t : list event) : list loc :=
  omap (λ e, match e with EEnqueue b => Some b | _ => None end) t.

Definition applied (t : list event) : list loc :=
  omap (λ e, match e with EApply b => Some b | _ => None end) t.

Definition flush_marks (t : list event) : list event :=
  filter (λ e, e = EFlushBegin ∨ e = EFlushEnd) t.

Lemma enqueued_app t1 t2 : enqueued (t1 ++ t2) = enqueued t1 ++ enqueued t2.
Proof. apply omap_app. Qed.

Lemma applied_app t1 t2 : applied (t1 ++ t2) = applied t1 ++ applied t2.
Proof. apply omap_app. Qed.

Lemma flush_marks_app t1 t2 : flush_marks (t1 ++ t2) = flush_marks t1 ++ flush_marks t2.
Proof. apply filter_app. Qed.

(** [add] on a list of members, and a run of them. *)
Definition enq (ms : list value) (b : loc) : list value :=
  if bool_decide (VRef b ∈ ms) then ms else ms ++ [VRef b].

Definition enq_all (ms : list value) (bs : list loc) : list value :=
  foldl enq ms bs.

Lemma enq_all_app ms bs1 bs2 :
  enq_all ms (bs1 ++ bs2) = enq_all (enq_all ms bs1) bs2.
Proof. apply foldl_app. Qed.

Lemma enq_NoDup ms b : NoDup ms → NoDup (enq ms b).
Proof.
  intros Hn. unfold enq. case_bool_decide; [done|].
  apply NoDup_app. split_and!; [done| |apply NoDup_singleton].
  intros x Hx ->%list_elem_of_singleton. done.
Qed.

Lemma enq_refs ms b : Forall is_ref ms → Forall is_ref (enq ms b).
Proof.
  intros Hf. unfold enq. case_bool_decide; [done|].
  apply Forall_app. split; [done|]. by constructor.
Qed.

Lemma elem_of_enq ms b v : v ∈ enq ms b ↔ v ∈ ms ∨ v = VRef b.
Proof.
  unfold enq. case_bool_decide.
  - split; [auto|]. by intros [?| ->].
  - rewrite elem_of_app, list_elem_of_singleton. done.
Qed.

Lemma elem_of_enq_all ms bs v :
  v ∈ enq_all ms bs ↔ v ∈ ms ∨ ∃ b, b ∈ bs ∧ v = VRef b.
Proof.
  revert ms. induction bs as [|b bs IH]; intros ms; simpl.
  - split; [auto|]. intros [?|(b & Hb & _)]; [done|]. by apply elem_of_nil in Hb.
  - rewrite IH, elem_of_enq. split.
    + intros [[?| ->]|(b' & Hb' & ->)]; [by left| |].
      * right. exists b. split; [left|done].
      * right. exists b'. split; [by right|done].
    + intros [?|(b' & Hb' & ->)]; [by left; left|].
      apply elem_of_cons in Hb' as [->|Hb']; [by left; right|].
      right. by exists b'.
Qed.

(** ** Steps that leave the queues to the notifications *)

(** [queue_step g qa qb s s' t]: from a state that holds the two sets (and,
    when [g] is set, in which a flush is in progress) the events [t] lead to
    a state that holds the same two sets, with the same flag; the active set
    has grown by the bindings [t] enqueues, the alternate set is as it was,
    and [t] applies no binding and starts no flush. *)
Definition queue_step (g : bool) (qa qb : loc) (s s' : State) (t : list event) : Prop :=
  (g = true → flushing s = true) → queues_at qa qb s →
  queues_at qa qb s' ∧
  prop s' SC_Binding "_isFlushing" = prop s SC_Binding "_isFlushing" ∧
  next s ≤ next s' ∧
  active s' = enq_all (active s) (enqueued t) ∧
  alternate s' = alternate s ∧
  applied t = [] ∧
  flush_marks t = [].

Lemma queue_step_refl g qa qb s : queue_step g qa qb s s [].
Proof. intros _ Hq. by split_and!. Qed.

Lemma queue_step_trans g qa qb s1 s2 s3 t1 t2 :
  queue_step g qa qb s1 s2 t1 → queue_step g qa qb s2 s3 t2 →
  queue_step g qa qb s1 s3 (t1 ++ t2).
Proof.
  intros H1 H2 Hg Hq.
  destruct (H1 Hg Hq) as (Hq2 & Hf2 & Hn2 & Ha2 & Hl2 & Hp2 & Hm2).
  destruct H2 as (Hq3 & Hf3 & Hn3 & Ha3 & Hl3 & Hp3 & Hm3); [|done|].
  { intros Hg'. unfold flushing. rewrite Hf2. by apply Hg. }
  split_and!; [done|congruence|lia| |congruence| |].
  - by rewrite Ha3, Ha2, enqueued_app, enq_all_app.
  - by rewrite applied_app, Hp2, Hp3.
  - by rewrite flush_marks_app, Hm2, Hm3.
Qed.

(** [follows R m]: however [m] ends, the state it leaves and the events it
    has emitted are related by [R] to the state it started in. *)
Definition follows {A} (R : State → State → list event → Prop) (m : M A) : Prop :=
  ∀ s, R s (final_state (m s)) (trace_of (m s)).

Lemma follows_bind {A B} g qa qb (m : M A) (f : A → M B) :
  follows (queue_step g qa qb) m → (∀ a, follows (queue_step g qa qb) (f a)) →
  follows (queue_step g qa qb) (m ≫= f).
Proof.
  intros Hm Hf s. unfold mbind, M_bind, bind.
  specialize (Hm s). destruct (m s) as [a s1 t1|e s1 t1]; simpl in *; [|done].
  specialize (Hf a s1). destruct (f a s1); simpl in *; by eapply queue_step_trans.
Qed.

Lemma follows_pure {A} g qa qb (m : M A) :
  (∀ s, final_state (m s) = s ∧ trace_of (m s) = []) →
  follows (queue_step g qa qb) m.
Proof. intros Hm s. destruct (Hm s) as [-> ->]. apply queue_step_refl. Qed.

(** A change of state that touches neither a set nor the three properties
    of [SC.Binding] the flush works with. *)
Definition queue_frame (s s' : State) : Prop :=
  next s ≤ next s' ∧
  (∀ q ms, q < next s → heap s !! q = Some (CSet ms) → heap s' !! q = Some (CSet ms)) ∧
  (0 < next s →
   (is_object s SC_Binding → is_object s' SC_Binding) ∧
   prop s' SC_Binding "_changeQueue" = prop s SC_Binding "_changeQueue" ∧
   prop s' SC_Binding "_alternateChangeQueue" = prop s SC_Binding "_alternateChangeQueue" ∧
   prop s' SC_Binding "_isFlushing" = prop s SC_Binding "_isFlushing").

Lemma queue_frame_binding_set s s' q :
  queue_frame s s' → binding_set s q → binding_set s' q.
Proof.
  intros (Hn & Hs & _) (Hq & ms & Hms & Hnd & Hr).
  split; [lia|]. exists ms. split_and!; [|done..]. by apply Hs.
Qed.

Lemma queue_frame_step g qa qb s s' t :
  queue_frame s s' → enqueued t = [] → applied t = [] → flush_marks t = [] →
  queue_step g qa qb s s' t.
Proof.
  intros Hf He Ha Hm _ (Ho & H0 & Hqa & Hqb & Hne & Hsa & Hsb).
  pose proof Hf as (Hn & Hs & Hp). destruct (Hp H0) as (Hobj & Hp1 & Hp2 & Hp3).
  assert (∀ q, binding_set s q → set_members s' (VRef q) = set_members s (VRef q)) as Hmem.
  { intros q (Hq & ms & Hms & _). simpl. by rewrite (Hs _ _ Hq Hms), Hms. }
  split_and!; try done.
  - split_and!; [by apply Hobj|lia|congruence|congruence|done| |];
      by eapply queue_frame_binding_set.
  - unfold active. rewrite He, Hp1, Hqa. simpl. by apply Hmem.
  - unfold alternate. rewrite Hp2, Hqb. by apply Hmem.
Qed.

Lemma follows_frame {A} g qa qb (m : M A) :
  (∀ s, queue_frame s (final_state (m s)) ∧ trace_of (m s) = []) →
  follows (queue_step g qa qb) m.
Proof.
  intros Hm s. destruct (Hm s) as [Hf Ht]. rewrite Ht.
  by apply queue_frame_step.
Qed.

Lemma queue_frame_refl s : queue_frame s s.
Proof. by split_and!. Qed.

Lemma trace_of_setp l k v s : trace_of (setp l k v s) = [].
Proof. unfold setp. by repeat case_match. Qed.

Lemma write_prop_lookup_set l k v s q ms :
  heap s !! q = Some (CSet ms) → heap (write_prop l k v s) !! q = Some (CSet ms).
Proof.
  intros Hq. unfold write_prop.
  destruct (heap s !! l) as [[props proto| | | |]|] eqn:E; try done.
  simpl. rewrite lookup_insert_ne; [done|]. intros ->. congruence.
Qed.

Definition queue_key (k : string) : Prop :=
  k = "_changeQueue" ∨ k = "_alternateChangeQueue" ∨ k = "_isFlushing".

Lemma setp_queue_frame l k v s :
  ¬ queue_key k → queue_frame s (final_state (setp l k v s)).
Proof.
  intros Hk. rewrite final_state_setp. unfold queue_key in Hk.
  split_and!.
  - by rewrite write_prop_next.
  - intros q ms _. apply write_prop_lookup_set.
  - intros _. split_and!; [apply write_prop_object|..];
      apply prop_write_ne; naive_solver.
Qed.

Lemma prop_alloc c s l k :
  l < next s →
  prop (mkState (<[next s := c]> (heap s)) (S (next s)) (globals s)
                (observers s) (world s)) l k = prop s l k.
Proof. intros Hl. unfold prop. cbn [heap]. by apply lookup_chain_below. Qed.

Lemma alloc_queue_frame c s : queue_frame s (final_state (alloc c s)).
Proof.
  simpl. split_and!.
  - simpl. lia.
  - intros q ms Hq Hms. simpl. rewrite lookup_insert_ne; [done|lia].
  - intros H0. split_and!; try by apply prop_alloc.
    intros (props & proto & Ho). exists props, proto. simpl.
    rewrite lookup_insert_ne; [done|]. unfold SC_Binding. lia.
Qed.

Lemma data_step_queue_frame {A} (m : M A) s :
  (final_state (m s) = s ∨
   ∃ l c c', heap s !! l = Some c ∧ is_obj c = false ∧ is_obj c' = false ∧
             (∀ ms, c ≠ CSet ms) ∧
             final_state (m s) = set_heap (<[l := c']> (heap s)) s) →
  queue_frame s (final_state (m s)).
Proof.
  intros [->|(l & c & c' & Hl & Hc & Hc' & Hns & ->)]; [apply queue_frame_refl|].
  split_and!; [done| |].
  - intros q ms _ Hq. simpl. rewrite lookup_insert_ne; [done|].
    intros ->. rewrite Hl in Hq. naive_solver.
  - intros _. split_and!.
    + intros (props & proto & Ho). exists props, proto. simpl.
      rewrite lookup_insert_ne; [done|]. intros ->. rewrite Hl in Ho.
      by simplify_eq.
    + unfold prop, set_heap. cbn [heap]. by eapply lookup_chain_insert_data.
    + unfold prop, set_heap. cbn [heap]. by eapply lookup_chain_insert_data.
    + unfold prop, set_heap. cbn [heap]. by eapply lookup_chain_insert_data.
Qed.

Lemma array_push_queue_frame a v s :
  queue_frame s (final_state (array_push a v s)) ∧ trace_of (array_push a v s) = [].
Proof.
  split.
  - apply data_step_queue_frame. unfold array_push.
    destruct a as [| | | | |l]; try by left.
    destruct (heap s !! l) as [[| elems f| | |]|] eqn:E; try by left.
    right. by eexists l, _, (CArr (elems ++ [v]) f).
  - unfold array_push. by repeat case_match.
Qed.

Lemma array_slice_queue_frame a s :
  queue_frame s (final_state (array_slice a s)) ∧ trace_of (array_slice a s) = [].
Proof.
  unfold array_slice. destruct a as [| | | | |l]; try (split; [apply queue_frame_refl|done]).
  destruct (heap s !! l) as [[| elems f| | |]|] eqn:E;
    try (split; [apply queue_frame_refl|done]).
  split; [apply alloc_queue_frame|done].
Qed.

Lemma modify_world_queue_frame (f : World → World) s :
  queue_frame s (set_world (f (world s)) s).
Proof. by split_and!. Qed.

(** *** The steps of the engine *)

Section QueueSteps.
Context (g : bool) (qa qb : loc).

#[local] Abbreviation step := (follows (queue_step g qa qb)).

Lemma step_mret {A} (a : A) : step (mret a).
Proof. by apply follows_pure. Qed.

Lemma step_gets {A} (f : State → A) : step (gets f).
Proof. by apply follows_pure. Qed.

Lemma step_getp l k : step (getp l k).
Proof. by apply follows_pure. Qed.

Lemma step_throw {A} e : step (throw e : M A).
Proof. by apply follows_pure. Qed.

Lemma step_setp l k v : ¬ queue_key k → step (setp l k v).
Proof.
  intros Hk. apply follows_frame. intros s.
  split; [by apply setp_queue_frame|apply trace_of_setp].
Qed.

Lemma step_alloc c : step (alloc c).
Proof. apply follows_frame. intros s. split; [apply alloc_queue_frame|done]. Qed.

Lemma step_array_push a v : step (array_push a v).
Proof. apply follows_frame, array_push_queue_frame. Qed.

Lemma step_array_slice a : step (array_slice a).
Proof. apply follows_frame, array_slice_queue_frame. Qed.

Lemma step_touch (f : World → World) : step (modify (λ s, set_world (f (world s)) s)).
Proof.
  apply follows_frame. intros s. split; [apply modify_world_queue_frame|done].
Qed.

Lemma step_emit ev :
  (∀ b, ev ≠ EEnqueue b) → (∀ b, ev ≠ EApply b) →
  ev ≠ EFlushBegin → ev ≠ EFlushEnd → step (emit ev).
Proof.
  intros He1 He2 He3 He4 s. simpl.
  apply queue_frame_step; [apply queue_frame_refl|..].
  - destruct ev; try done. by destruct (He1 b).
  - destruct ev; try done. by destruct (He2 b).
  - unfold flush_marks. rewrite filter_cons_False; [done|]. by intros [?|?].
Qed.

(** [SC.Binding._changeQueue.add(this)]: the binding is added to the active
    set unless it is a member, and the event says so. *)
Lemma step_enqueue this :
  step (queue ← getp SC_Binding "_changeQueue";
        set_add queue (VRef this);;
        emit (EEnqueue this)).
Proof.
  intros s Hg Hq.
  pose proof Hq as (Ho & H0 & Hqa & Hqb & Hne & (Hlt & ms & Hms & Hnd & Hr) & Hsb).
  assert (active s = ms) as Hact.
  { unfold active. rewrite Hqa. simpl. by rewrite Hms. }
  unfold mbind, M_bind, bind, getp, gets. rewrite Hqa.
  unfold set_add. rewrite Hms.
  case_bool_decide as Hin; cbn [emit final_state trace_of app].
  - split_and!; try done.
    rewrite Hact. cbn. unfold enq. by rewrite bool_decide_eq_true_2.
  - set (s1 := set_heap (<[qa:=CSet (ms ++ [VRef this])]> (heap s)) s).
    assert (∀ l k, prop s1 l k = prop s l k) as Hprop.
    { intros l k. unfold prop, s1, set_heap. cbn [heap].
      by eapply lookup_chain_insert_data. }
    split_and!; try done.
    + destruct Ho as (props & proto & Ho).
      split_and!; try done; rewrite ?Hprop; try done.
      * exists props, proto. simpl. rewrite lookup_insert_ne; [done|].
        intros ->. rewrite Hms in Ho. done.
      * split; [done|]. exists (ms ++ [VRef this]). simpl.
        rewrite lookup_insert_eq. split_and!; [done| |].
        -- apply NoDup_app. split_and!; [done| |apply NoDup_singleton].
           intros x Hx ->%list_elem_of_singleton. done.
        -- apply Forall_app. split; [done|]. by constructor.
      * destruct Hsb as (Hltb & mb & Hmb & Hndb & Hrb).
        split; [done|]. exists mb. simpl. by rewrite lookup_insert_ne.
    + rewrite Hact. unfold active. rewrite Hprop, Hqa. simpl.
      rewrite lookup_insert_eq. unfold enq. by rewrite bool_decide_eq_false_2.
    + unfold alternate. rewrite Hprop, Hqb. simpl. by rewrite lookup_insert_ne.
Qed.

Lemma step_fromPropertyDidChange this key target :
  step (fromPropertyDidChange this key target).
Proof.
  unfold fromPropertyDidChange.
  apply follows_bind; [apply step_gets|intros v].
  apply follows_bind; [apply step_getp|intros bv].
  destruct (negb _); [|apply step_mret].
  apply follows_bind; [|intros _; apply step_enqueue].
  apply step_setp. by intros [?|[?|?]].
Qed.

Ltac queue_steps :=
  repeat first
    [ lazymatch goal with
      | |- follows _ (_ ≫= _) => simple apply @follows_bind; [|intros ?]
      | |- follows _ (mret _) => simple apply @step_mret
      | |- follows _ (getp _ _) => simple apply @step_getp
      | |- follows _ (gets _) => simple apply @step_gets
      | |- follows _ (throw _) => simple apply @step_throw
      | |- follows _ (alloc _) => simple apply @step_alloc
      | |- follows _ (modify _) => simple apply @step_touch
      | |- follows _ (setp _ _ _) =>
          simple apply @step_setp; by intros [?|[?|?]]
      | |- follows _ (emit _) => simple apply @step_emit; done
      | |- follows _ (fromPropertyDidChange _ _ _) =>
          simple apply @step_fromPropertyDidChange
      | |- follows _ (match _ with _ => _ end) => case_match
      end
    | assumption ].

Lemma step_run_script flush sc : step flush → step (run_script flush sc).
Proof. intros Hf. induction sc; simpl; queue_steps. Qed.

Lemma step_call_fn flush f v this : step flush → step (call_fn flush f v this).
Proof.
  intros Hf s. unfold call_fn.
  destruct f as [| | | | |l]; try apply queue_step_refl.
  destruct (heap s !! l) as [[| | |c|]|]; try apply queue_step_refl.
  destruct c; try apply queue_step_refl.
  - revert s. change (step (multiple_fn v)).
    unfold multiple_fn, new_array. queue_steps.
  - by apply step_run_script.
Qed.

Lemma step_setPathIfChanged flush target key v :
  step flush → step (setPathIfChanged flush target key v).
Proof.
  intros Hf. unfold setPathIfChanged. queue_steps. by apply step_run_script.
Qed.

Lemma step_computeBindingTargets this : step (_computeBindingTargets this).
Proof. unfold _computeBindingTargets. queue_steps. Qed.

Lemma step_transform_loop flush this ts n idx v :
  step flush → step (transform_loop flush this ts n idx v).
Proof.
  intros Hf. revert idx v. induction n as [|n IH]; intros; simpl; queue_steps.
  - by apply step_call_fn.
  - apply IH.
Qed.

Lemma step_applyBindingValue flush this :
  step flush → step (applyBindingValue flush this).
Proof.
  intros Hf. unfold applyBindingValue. queue_steps;
    first [apply step_computeBindingTargets
          |by apply step_setPathIfChanged
          |by apply step_transform_loop].
Qed.

End QueueSteps.

(** While a flush is in progress, a call of [flushPendingChanges] is one of
    these steps: it does nothing. *)
Lemma step_flush_nested qa qb fuel :
  follows (queue_step true qa qb) (flushPendingChanges fuel SC_Binding).
Proof.
  intros s. unfold queue_step. intros Hg Hq.
  rewrite flush_guarded by by apply Hg.
  by apply (queue_step_refl true).
Qed.

(** ** Draining one batch *)

Lemma set_popObject_empty s q :
  heap s !! q = Some (CSet []) → set_popObject (VRef q) s = Ret VUndef s [].
Proof. unfold set_popObject. by intros ->. Qed.

Lemma set_popObject_cons s q v ms :
  heap s !! q = Some (CSet (v :: ms)) →
  set_popObject (VRef q) s = Ret v (set_heap (<[q := CSet ms]> (heap s)) s) [].
Proof. unfold set_popObject. by intros ->. Qed.

Lemma prop_set_cell s q ms ms' l k :
  heap s !! q = Some (CSet ms) →
  prop (set_heap (<[q := CSet ms']> (heap s)) s) l k = prop s l k.
Proof.
  intros Hq. unfold prop, set_heap. cbn [heap]. by eapply lookup_chain_insert_data.
Qed.

(** The state after a binding is popped from the alternate set. *)
Lemma popped_state qa qb s v ms :
  queues_at qa qb s → heap s !! qb = Some (CSet (v :: ms)) →
  let s1 := set_heap (<[qb := CSet ms]> (heap s)) s in
  queues_at qa qb s1 ∧ flushing s1 = flushing s ∧
  active s1 = active s ∧ alternate s1 = ms.
Proof.
  intros (Ho & H0 & Hqa & Hqb & Hne & (Hlt & ma & Hma & Hnd & Hr) & (Hltb & Hsb)) Hms s1.
  destruct Hsb as (mb & Hmb & Hndb & Hrb). rewrite Hms in Hmb.
  injection Hmb as <-.
  assert (∀ l k, prop s1 l k = prop s l k) as Hprop.
  { intros l k. by eapply prop_set_cell. }
  split_and!.
  - destruct Ho as (props & proto & Ho).
    split_and!; rewrite ?Hprop; try done.
    + exists props, proto. simpl. rewrite lookup_insert_ne; [done|].
      intros ->. rewrite Hms in Ho. done.
    + split; [done|]. exists ma. simpl. by rewrite lookup_insert_ne.
    + split; [done|]. exists ms. simpl. rewrite lookup_insert_eq.
      split_and!; [done|by eapply NoDup_cons_1_2|by eapply Forall_cons_1].
  - unfold flushing. by rewrite Hprop.
  - unfold active. rewrite Hprop, Hqa. simpl. by rewrite lookup_insert_ne.
  - unfold alternate. rewrite Hprop, Hqb. simpl. by rewrite lookup_insert_eq.
Qed.

Lemma alternate_lookup qa qb s :
  queues_at qa qb s → heap s !! qb = Some (CSet (alternate s)).
Proof.
  intros (_ & _ & _ & Hqb & _ & _ & (_ & mb & Hmb & _)).
  unfold alternate. rewrite Hqb. simpl. by rewrite Hmb.
Qed.

Lemma active_lookup qa qb s :
  queues_at qa qb s → heap s !! qa = Some (CSet (active s)).
Proof.
  intros (_ & _ & Hqa & _ & _ & (_ & ma & Hma & _) & _).
  unfold active. rewrite Hqa. simpl. by rewrite Hma.
Qed.

Lemma alternate_refs qa qb s : queues_at qa qb s → Forall is_ref (alternate s).
Proof.
  intros Hq. pose proof (alternate_lookup _ _ _ Hq) as Hl.
  destruct Hq as (_ & _ & _ & _ & _ & _ & (_ & mb & Hmb & _ & Hr)). congruence.
Qed.

Lemma active_NoDup qa qb s : queues_at qa qb s → NoDup (active s).
Proof.
  intros Hq. pose proof (active_lookup _ _ _ Hq) as Hl.
  destruct Hq as (_ & _ & _ & _ & _ & (_ & ma & Hma & Hnd & _) & _). congruence.
Qed.

(** The inner loop applies the members of the alternate set, each once, and
    leaves the set empty; what the applications enqueue is in the active
    set. *)
Lemma drain_spec (apply : loc → M unit) qa qb fuel s s' t :
  (∀ b, follows (queue_step true qa qb) (apply b)) →
  flushing s = true → queues_at qa qb s →
  drain apply fuel (VRef qb) s = Ret () s' t →
  queues_at qa qb s' ∧ flushing s' = true ∧ alternate s' = [] ∧
  active s' = enq_all (active s) (enqueued t) ∧
  VRef <$> applied t = alternate s ∧ flush_marks t = [].
Proof.
  intros Happly. revert s t. induction fuel as [|n IH]; intros s t Hf Hq Hd; [done|].
  simpl in Hd. apply bind_Ret_inv in Hd as (v & s1 & t1 & t2 & Hpop & Hd & ->).
  pose proof (alternate_lookup _ _ _ Hq) as Hl.
  pose proof (alternate_refs _ _ _ Hq) as Hr.
  destruct (alternate s) as [|v' ms] eqn:Halt.
  - rewrite (set_popObject_empty _ _ Hl) in Hpop. injection Hpop as <- <- <-.
    simpl in Hd. injection Hd as <- <-. by split_and!.
  - rewrite (set_popObject_cons _ _ _ _ Hl) in Hpop. injection Hpop as <- <- <-.
    apply Forall_cons_1 in Hr as [Hv _]. destruct v' as [| | | | |b]; try done.
    simpl in Hd.
    apply bind_Ret_inv in Hd as ([] & s2 & t3 & t4 & Ha & Hd & ->).
    apply bind_Ret_inv in Ha as ([] & s3 & t5 & t6 & He & Ha & ->).
    apply emit_inv in He as (-> & ->).
    destruct (popped_state _ _ _ _ _ Hq Hl) as (Hq1 & Hf1 & Ha1 & Hl1).
    pose proof (Happly b _ (λ _, eq_trans Hf1 Hf) Hq1) as Hstep.
    rewrite Ha in Hstep. cbn [final_state trace_of] in Hstep.
    destruct Hstep as (Hq2 & Hf2 & _ & Ha2 & Hl2 & Hp2 & Hm2).
    destruct (IH s2 t4) as (Hq3 & Hf3 & Hl3 & Ha3 & Hp3 & Hm3); [|done|done|].
    { unfold flushing. rewrite Hf2. fold (flushing
        (set_heap (<[qb:=CSet ms]> (heap s)) s)). by rewrite Hf1. }
    split_and!; [done|done|done| | |].
    + rewrite Ha3, Ha2, Ha1, !enqueued_app, !enq_all_app. done.
    + rewrite !applied_app, Hp2. cbn. by rewrite Hp3, Hl2, Hl1.
    + rewrite !flush_marks_app, Hm2, Hm3. done.
Qed.

(** ** The outer loop *)

(** The events of the outer loop, batch after batch: a batch applies the
    members of the set it drains, and the next batch drains what that batch
    has enqueued; after the last batch nothing is left. *)
Inductive rounds : list value → list event → Prop :=
| rounds_done : rounds [] []
| rounds_batch A t1 t2 :
    A ≠ [] → VRef <$> applied t1 = A → flush_marks t1 = [] →
    rounds (enq_all [] (enqueued t1)) t2 →
    rounds A (t1 ++ t2).

(** The state after the two sets are swapped. *)
Lemma swapped_state qa qb s :
  queues_at qa qb s →
  let s1 := write_prop SC_Binding "_alternateChangeQueue" (VRef qa)
              (write_prop SC_Binding "_changeQueue" (VRef qb) s) in
  queues_at qb qa s1 ∧ flushing s1 = flushing s ∧
  active s1 = alternate s ∧ alternate s1 = active s.
Proof.
  intros Hq s1.
  pose proof (active_lookup _ _ _ Hq) as Hla.
  pose proof (alternate_lookup _ _ _ Hq) as Hlb.
  destruct Hq as (Ho & H0 & Hqa & Hqb & Hne & (Hlt & ma & Hma & Hnd & Hr)
                  & (Hltb & mb & Hmb & Hndb & Hrb)).
  assert (prop s1 SC_Binding "_changeQueue" = VRef qb) as Hp1.
  { unfold s1. rewrite prop_write_ne by done. by apply prop_write_eq. }
  assert (prop s1 SC_Binding "_alternateChangeQueue" = VRef qa) as Hp2.
  { unfold s1. apply prop_write_eq. by apply write_prop_object. }
  assert (∀ q ms, heap s !! q = Some (CSet ms) → heap s1 !! q = Some (CSet ms)) as Hset.
  { intros q ms Hms. unfold s1. by do 2 apply write_prop_lookup_set. }
  split_and!.
  - split_and!; try done.
    + unfold s1. by do 2 apply write_prop_object.
    + unfold s1. by rewrite !write_prop_next.
    + split; [unfold s1; by rewrite !write_prop_next|]. exists mb. eauto.
    + split; [unfold s1; by rewrite !write_prop_next|]. exists ma. eauto.
  - unfold flushing, s1. by rewrite !prop_write_ne.
  - unfold active. rewrite Hp1. simpl. by rewrite (Hset _ _ Hlb).
  - unfold alternate. rewrite Hp2. simpl. by rewrite (Hset _ _ Hla).
Qed.

Lemma set_length_active qa qb s :
  queues_at qa qb s → set_length (VRef qa) s = Ret (length (active s)) s [].
Proof.
  intros Hq. unfold set_length. by rewrite (active_lookup _ _ _ Hq).
Qed.

Lemma flush_loop_spec (apply : loc → M unit) fuel :
  (∀ qa qb b, follows (queue_step true qa qb) (apply b)) →
  ∀ qa qb s s' t,
    flushing s = true → queues_at qa qb s → alternate s = [] →
    flush_loop apply fuel SC_Binding s = Ret () s' t →
    (queues_at qa qb s' ∨ queues_at qb qa s') ∧ flushing s' = true ∧
    active s' = [] ∧ alternate s' = [] ∧
    flush_marks t = [] ∧ rounds (active s) t.
Proof.
  intros Happly. induction fuel as [|n IH]; intros qa qb s s' t Hf Hq Halt Hl; [done|].
  simpl in Hl.
  apply bind_Ret_inv in Hl as (queue & ? & ? & t1 & Hg & Hl & ->).
  apply getp_inv in Hg as (-> & -> & ->).
  pose proof Hq as (Ho & _ & Hqa & Hqb & _). rewrite Hqa in Hl.
  apply bind_Ret_inv in Hl as (len & ? & ? & t2 & Hlen & Hl & ->).
  rewrite (set_length_active _ _ _ Hq) in Hlen. injection Hlen as <- <- <-.
  destruct (active s) as [|v A] eqn:Hact.
  { simpl in Hl. injection Hl as <- <-. split_and!; try done; [by left|].
    constructor. }
  cbn [length Nat.ltb Nat.leb] in Hl.
  apply bind_Ret_inv in Hl as (alt & ? & ? & t3 & Hg & Hl & ->).
  apply getp_inv in Hg as (-> & -> & ->). rewrite Hqb in Hl.
  apply bind_Ret_inv in Hl as ([] & ? & ? & t4 & Hs1 & Hl & ->).
  apply setp_Ret in Hs1 as (_ & -> & ->).
  apply bind_Ret_inv in Hl as ([] & ? & ? & t5 & Hs2 & Hl & ->).
  apply setp_Ret in Hs2 as (_ & -> & ->).
  apply bind_Ret_inv in Hl as ([] & s2 & t6 & t7 & Hd & Hl & ->).
  destruct (swapped_state _ _ _ Hq) as (Hq1 & Hf1 & Ha1 & Hl1).
  eapply drain_spec in Hd as (Hq2 & Hf2 & Hl2 & Ha2 & Hp2 & Hm2);
    [|by apply Happly|by rewrite Hf1|done].
  eapply IH in Hl as (Hq3 & Hf3 & Ha3 & Hl3 & Hm3 & Hr3); [|done..].
  split_and!; try done.
  - destruct Hq3; [by right|by left].
  - cbn [app]. by rewrite flush_marks_app, Hm2, Hm3.
  - cbn [app]. apply rounds_batch; [done| |done|].
    + by rewrite Hp2, Hl1, Hact.
    + by rewrite Ha2, Ha1, Halt in Hr3.
Qed.

(** *** What the batches imply *)

Lemma elem_of_applied b t : b ∈ applied t ↔ EApply b ∈ t.
Proof.
  unfold applied. rewrite list_elem_of_omap. split.
  - intros (e & He & Hb). destruct e; try done. by injection Hb as ->.
  - intros He. by exists (EApply b).
Qed.

Lemma elem_of_enqueued b t : b ∈ enqueued t ↔ EEnqueue b ∈ t.
Proof.
  unfold enqueued. rewrite list_elem_of_omap. split.
  - intros (e & He & Hb). destruct e; try done. by injection Hb as ->.
  - intros He. by exists (EEnqueue b).
Qed.

(** Every enqueue of the trace is followed by an application of the same
    binding. *)
Definition settled (t : list event) : Prop :=
  ∀ pre b post, t = pre ++ EEnqueue b :: post → EApply b ∈ post.

Lemma settled_app t1 t2 :
  (∀ b, EEnqueue b ∈ t1 → EApply b ∈ t2) → settled t2 → settled (t1 ++ t2).
Proof.
  intros H1 H2. induction t1 as [|e t1 IH]; [done|].
  intros pre b post Heq. destruct pre as [|e' pre]; simpl in Heq.
  - injection Heq as -> <-. apply elem_of_app. right. apply H1. left.
  - injection Heq as -> Heq. eapply IH; [|done].
    intros b' Hb'. apply H1. by right.
Qed.

Lemma rounds_applies_members A t b : rounds A t → VRef b ∈ A → EApply b ∈ t.
Proof.
  intros [|A' t1 t2 _ Hp _ _] Hb; [by apply elem_of_nil in Hb|].
  apply elem_of_app. left. apply elem_of_applied.
  rewrite <- Hp in Hb. apply list_elem_of_fmap in Hb as (b' & [= ->] & Hb'). done.
Qed.

Lemma rounds_settled A t : rounds A t → settled t.
Proof.
  induction 1 as [|A t1 t2 _ Hp _ Hr IH]; [by intros [|??] ???|].
  apply settled_app; [|done]. intros b Hb.
  eapply rounds_applies_members; [done|].
  apply elem_of_enq_all. right. exists b. split; [|done].
  by apply elem_of_enqueued.
Qed.

(** How often a trace applies a binding. *)
Definition times_applied (b : loc) (t : list event) : nat :=
  length (filter (λ e, e = EApply b) t).

Definition times_enqueued (b : loc) (t : list event) : nat :=
  length (filter (λ e, e = EEnqueue b) t).

Lemma times_applied_app b t1 t2 :
  times_applied b (t1 ++ t2) = times_applied b t1 + times_applied b t2.
Proof. unfold times_applied. by rewrite filter_app, length_app. Qed.

Lemma times_applied_applied b t :
  times_applied b t = length (filter (λ x, x = b) (applied t)).
Proof.
  unfold times_applied. induction t as [|e t IH]; [done|].
  destruct (decide (e = EApply b)) as [->|Hne].
  - change (applied (EApply b :: t)) with (b :: applied t).
    rewrite !filter_cons_True by done. simpl. by rewrite IH.
  - rewrite filter_cons_False by done. rewrite IH.
    destruct e as [| |b'| | |]; try done.
    change (applied (EApply b' :: t)) with (b' :: applied t).
    rewrite filter_cons_False; [done|]. congruence.
Qed.

Lemma length_filter_NoDup (b : loc) (l : list loc) :
  NoDup l → length (filter (λ x, x = b) l) = if bool_decide (b ∈ l) then 1 else 0.
Proof.
  induction 1 as [|x l Hx Hnd IH]; [done|].
  destruct (decide (x = b)) as [->|Hne].
  - rewrite filter_cons_True by done. simpl. rewrite IH.
    rewrite bool_decide_eq_false_2 by done.
    rewrite bool_decide_eq_true_2; [done|left].
  - rewrite filter_cons_False by done. rewrite IH.
    apply (f_equal (λ c : bool, if c then 1 else 0)).
    apply bool_decide_ext. rewrite elem_of_cons.
    split; [auto|]. intros [->|?]; done.
Qed.

Lemma enq_all_NoDup ms bs : NoDup ms → NoDup (enq_all ms bs).
Proof.
  revert ms. induction bs as [|b bs IH]; intros ms Hnd; [done|].
  simpl. apply IH. by apply enq_NoDup.
Qed.

Lemma rounds_times_applied A t b :
  rounds A t → NoDup A → EEnqueue b ∉ t →
  times_applied b t = if bool_decide (VRef b ∈ A) then 1 else 0.
Proof.
  induction 1 as [|A t1 t2 _ Hp _ Hr IH]; intros Hnd Hb.
  - rewrite bool_decide_eq_false_2; [done|]. apply not_elem_of_nil.
  - rewrite times_applied_app, IH.
    + rewrite bool_decide_eq_false_2, Nat.add_0_r.
      * rewrite times_applied_applied, length_filter_NoDup.
        -- apply (f_equal (λ c : bool, if c then 1 else 0)).
           apply bool_decide_ext. rewrite <- Hp.
           rewrite list_elem_of_fmap. split.
           ++ intros ?. by exists b.
           ++ by intros (y & [= ->] & ?).
        -- rewrite <- Hp in Hnd. by eapply NoDup_fmap_1.
      * rewrite elem_of_enq_all. intros [Hn|(b' & Hb' & [= <-])].
        -- by apply elem_of_nil in Hn.
        -- apply Hb, elem_of_app. left. by apply elem_of_enqueued.
    + apply enq_all_NoDup. constructor.
    + intros Hin. apply Hb, elem_of_app. by right.
Qed.

(** ** A top-level flush *)

(** No flush is in progress: the two sets are in place, the flag is clear
    and the alternate set is empty. *)
Definition quiescent (s : State) : Prop :=
  ∃ qa qb, queues_at qa qb s ∧ flushing s = false ∧ alternate s = [].

(** The state after the flag is assigned. *)
Lemma flagged_state qa qb s v :
  queues_at qa qb s →
  let s1 := write_prop SC_Binding "_isFlushing" v s in
  queues_at qa qb s1 ∧ flushing s1 = truthy v ∧
  active s1 = active s ∧ alternate s1 = alternate s.
Proof.
  intros Hq s1.
  pose proof (active_lookup _ _ _ Hq) as Hla.
  pose proof (alternate_lookup _ _ _ Hq) as Hlb.
  destruct Hq as (Ho & H0 & Hqa & Hqb & Hne & (Hlt & ma & Hma & Hnd & Hr)
                  & (Hltb & mb & Hmb & Hndb & Hrb)).
  assert (prop s1 SC_Binding "_changeQueue" = VRef qa) as Hp1.
  { unfold s1. by rewrite prop_write_ne. }
  assert (prop s1 SC_Binding "_alternateChangeQueue" = VRef qb) as Hp2.
  { unfold s1. by rewrite prop_write_ne. }
  assert (∀ q ms, heap s !! q = Some (CSet ms) → heap s1 !! q = Some (CSet ms)) as Hset.
  { intros q ms Hms. unfold s1. by apply write_prop_lookup_set. }
  split_and!.
  - split_and!; try done.
    + unfold s1. by apply write_prop_object.
    + unfold s1. by rewrite write_prop_next.
    + split; [unfold s1; by rewrite write_prop_next|]. exists ma. eauto.
    + split; [unfold s1; by rewrite write_prop_next|]. exists mb. eauto.
  - unfold flushing, s1. by rewrite prop_write_eq.
  - unfold active. rewrite Hp1. simpl. by rewrite (Hset _ _ Hla).
  - unfold alternate. rewrite Hp2. simpl. by rewrite (Hset _ _ Hlb).
Qed.

Lemma flush_top fuel s v s' t :
  quiescent s →
  flushPendingChanges fuel SC_Binding s = Ret v s' t →
  v = VRef SC_Binding ∧ quiescent s' ∧ active s' = [] ∧
  ∃ t', t = EFlushBegin :: t' ++ [EFlushEnd] ∧ flush_marks t' = [] ∧
        rounds (active s) t'.
Proof.
  intros (qa & qb & Hq & Hf & Halt) Hfl.
  destruct fuel as [|n]; simpl in Hfl;
    apply bind_Ret_inv in Hfl as (? & ? & ? & ? & Hg & Hfl & ->);
    apply getp_inv in Hg as (-> & -> & ->);
    unfold flushing in Hf; rewrite Hf in Hfl; [done|].
  apply bind_Ret_inv in Hfl as ([] & ? & ? & ? & Hs1 & Hfl & ->).
  apply setp_Ret in Hs1 as (_ & -> & ->).
  apply bind_Ret_inv in Hfl as ([] & ? & ? & ? & He & Hfl & ->).
  apply emit_inv in He as (-> & ->).
  apply bind_Ret_inv in Hfl as ([] & s2 & t2 & ? & Hl & Hfl & ->).
  apply bind_Ret_inv in Hfl as ([] & ? & ? & ? & Hs2 & Hfl & ->).
  apply setp_Ret in Hs2 as (_ & -> & ->).
  apply bind_Ret_inv in Hfl as ([] & ? & ? & ? & He & Hfl & ->).
  apply emit_inv in He as (-> & ->).
  injection Hfl as <- <- <-.
  destruct (flagged_state _ _ _ YES Hq) as (Hq1 & Hf1 & Ha1 & Hl1).
  eapply flush_loop_spec in Hl as (Hq2 & Hf2 & Ha2 & Hl2 & Hm2 & Hr2);
    [| |done|done|congruence].
  2: { intros qa' qb' b. apply step_applyBindingValue, step_flush_nested. }
  rewrite Ha1 in Hr2.
  split_and!; [done| | |].
  - destruct Hq2 as [Hq2|Hq2];
      destruct (flagged_state _ _ _ NO Hq2) as (Hq3 & Hf3 & Ha3 & Hl3);
      eexists _, _; split_and!; try done; by rewrite Hl3.
  - destruct Hq2 as [Hq2|Hq2];
      destruct (flagged_state _ _ _ NO Hq2) as (Hq3 & Hf3 & Ha3 & Hl3);
      by rewrite Ha3.
  - exists t2. by split_and!.
Qed.

Lemma app_singleton_split (l : list event) e b pre post :
  l ++ [e] = pre ++ EEnqueue b :: post → e ≠ EEnqueue b →
  ∃ post', post = post' ++ [e] ∧ l = pre ++ EEnqueue b :: post'.
Proof.
  revert l. induction pre as [|x pre IH]; intros l Heq Hne.
  - destruct l as [|y l]; simpl in Heq; [by injection Heq as ->|].
    injection Heq as -> <-. by exists l.
  - destruct l as [|y l]; simpl in Heq.
    + injection Heq as -> Heq. by destruct pre.
    + injection Heq as -> Heq. destruct (IH _ Heq Hne) as (post' & -> & ->).
      by exists post'.
Qed.

Lemma flush_settled A t' : rounds A t' → settled (EFlushBegin :: t' ++ [EFlushEnd]).
Proof.
  intros Hr. apply (settled_app [EFlushBegin]).
  { intros b Hb. apply list_elem_of_singleton in Hb. done. }
  apply rounds_settled in Hr. intros pre b post Heq.
  destruct (app_singleton_split _ _ _ _ _ Heq) as (post' & -> & Heq'); [done|].
  apply elem_of_app. left. by eapply Hr.
Qed.

(** C7: while the guard flag is set, a call of [flushPendingChanges] returns
    at once, with the state as it was and without an event; and a flush that
    starts with the flag clear and returns has run one drain loop, begun at
    its first event and ended at its last, whatever calls of
    [flushPendingChanges] the code it ran has made, and has applied after
    each enqueue the binding that was enqueued. *)
Theorem nested_flush_returns_immediately
    (fuel : nat) (this : loc) (s : State) :
  (truthy (prop s this "_isFlushing") = true →
     flushPendingChanges fuel this s = Ret VUndef s []) ∧
  (∀ v s' t, quiescent s →
     flushPendingChanges fuel SC_Binding s = Ret v s' t →
     (∃ t', t = EFlushBegin :: t' ++ [EFlushEnd] ∧
            (EFlushBegin ∉ t') ∧ (EFlushEnd ∉ t')) ∧
     (∀ pre b post, t = pre ++ EEnqueue b :: post → EApply b ∈ post)).
Proof.
  split; [apply flush_guarded|].
  intros v s' t Hq Hfl.
  destruct (flush_top _ _ _ _ _ Hq Hfl) as (_ & _ & _ & t' & -> & Hm & Hr).
  split; [|by eapply flush_settled].
  exists t'. split; [done|]. unfold flush_marks in Hm.
  split; intros Hin;
    (eapply (not_elem_of_nil (A := event)); rewrite <- Hm;
     apply list_elem_of_filter; split; [|exact Hin]); auto.
Qed.

(** C8: a flush that starts with the flag clear and returns has applied,
    after each enqueue, the binding that was enqueued, and every binding
    that was pending when it started; it leaves both sets empty and the flag
    clear, and it has run a single drain loop. *)
Theorem flush_drains_to_fixed_point
    (fuel : nat) (s : State) (v : value) (s' : State) (t : list event) :
  quiescent s →
  flushPendingChanges fuel SC_Binding s = Ret v s' t →
  (∀ pre b post, t = pre ++ EEnqueue b :: post → EApply b ∈ post) ∧
  (∀ b, VRef b ∈ active s → EApply b ∈ t) ∧
  active s' = [] ∧ alternate s' = [] ∧ flushing s' = false ∧
  flush_marks t = [EFlushBegin; EFlushEnd].
Proof.
  intros Hq Hfl.
  destruct (flush_top _ _ _ _ _ Hq Hfl)
    as (_ & (qa & qb & _ & Hf & Hl) & Ha & t' & -> & Hm & Hr).
  split_and!; try done.
  - by eapply flush_settled.
  - intros b Hb. right. apply elem_of_app. left.
    by eapply rounds_applies_members.
  - change (EFlushBegin :: t' ++ [EFlushEnd])
      with ([EFlushBegin] ++ t' ++ [EFlushEnd]).
    by rewrite !flush_marks_app, Hm.
Qed.

(** ** Enqueuing a binding more than once *)

(** Code that notifies bindings and never asks for a flush. *)
Fixpoint flush_free (sc : script World) : Prop :=
  match sc with
  | Done _ | Raise _ => True
  | Touch _ k | Notify _ _ _ k => flush_free k
  | Flush _ => False
  end.

Lemma step_run_script_flush_free g qa qb flush sc :
  flush_free sc → follows (queue_step g qa qb) (run_script flush sc).
Proof.
  induction sc as [v|f k IH|b key target k IH|k IH|msg]; simpl; intros Hff.
  - apply step_mret.
  - apply follows_bind; [apply step_touch|intros _; by apply IH].
  - apply follows_bind; [apply step_fromPropertyDidChange|intros _; by apply IH].
  - done.
  - apply step_throw.
Qed.

Lemma times_enqueued_pos b t : 0 < times_enqueued b t → EEnqueue b ∈ t.
Proof.
  unfold times_enqueued. intros Hlen.
  destruct (filter _ t) as [|e l] eqn:Hf; [simpl in Hlen; lia|].
  assert (e ∈ filter (λ e, e = EEnqueue b) t) as Hin by (rewrite Hf; left).
  by apply list_elem_of_filter in Hin as [-> ?].
Qed.

(** C6: when code that runs while no flush is in progress enqueues a binding
    more than once, a flush that follows, returns, and does not enqueue the
    binding again calls its [applyBindingValue] exactly once. *)
Theorem enqueued_twice_applied_once
    (flush : M value) (sc : script World) (s : State) (r : value) (s1 : State)
    (t0 : list event) (b : loc) (fuel : nat) (v : value) (s' : State)
    (t : list event) :
  quiescent s →
  flush_free sc →
  run_script flush sc s = Ret r s1 t0 →
  1 < times_enqueued b t0 →
  flushPendingChanges fuel SC_Binding s1 = Ret v s' t →
  EEnqueue b ∉ t →
  times_applied b t = 1.
Proof.
  intros (qa & qb & Hq & Hf & Halt) Hff Hrun Hcount Hfl Hnot.
  pose proof (step_run_script_flush_free false qa qb flush sc Hff s) as Hstep.
  rewrite Hrun in Hstep. cbn [final_state trace_of] in Hstep.
  destruct Hstep as (Hq1 & Hf1 & _ & Ha1 & Hl1 & _); [done|done|].
  assert (quiescent s1) as Hqs1.
  { exists qa, qb. split_and!; [done| |congruence].
    unfold flushing in *. by rewrite Hf1. }
  assert (VRef b ∈ active s1) as Hin.
  { rewrite Ha1. apply elem_of_enq_all. right. exists b. split; [|done].
    apply elem_of_enqueued, times_enqueued_pos. lia. }
  destruct (flush_top _ _ _ _ _ Hqs1 Hfl) as (_ & _ & _ & t' & -> & Hm & Hr).
  change (EFlushBegin :: t' ++ [EFlushEnd])
    with ([EFlushBegin] ++ t' ++ [EFlushEnd]).
  rewrite !times_applied_app.
  rewrite (rounds_times_applied _ _ b Hr).
  - rewrite bool_decide_eq_true_2 by done. unfold times_applied.
    rewrite !filter_cons_False by done. done.
  - by eapply active_NoDup.
  - intros Hb. apply Hnot. right. apply elem_of_app. by left.
Qed.

(** ** A derived binding and the pipeline of its template *)

(** With prototype links leading downwards, more steps than [S l] find what
    [S l] steps find. *)
Lemma lookup_chain_fuel h k l n :
  l < n → lookup_chain n h l k = lookup_chain (S l) h l k.
Proof.
  revert n. induction (lt_wf l) as [l _ IH]. intros n Hn.
  destruct n as [|n]; [lia|]. simpl.
  destruct (h !! l) as [[props [p|]| | | |]|]; try done.
  destruct (props !! k); [done|].
  destruct (p <? l) eqn:Hp; [|done]. apply Nat.ltb_lt in Hp.
  rewrite (IH p Hp n) by lia. by rewrite (IH p Hp l).
Qed.

(** What a new instance inherits: a lookup that the instance does not answer
    itself is the lookup on its prototype. *)
Lemma prop_beget_plain this s :
  is_object s this → this < next s →
  ∃ s1, beget_plain this s = Ret (next s) s1 [] ∧
    next s1 = S (next s) ∧
    is_object s1 (next s) ∧
    prop s1 (next s) "parentBinding" = VRef this ∧
    (∀ k, k ≠ "parentBinding" → prop s1 (next s) k = prop s this k) ∧
    (∀ l k, l < next s → prop s1 l k = prop s l k) ∧
    (∀ l, l < next s → heap s1 !! l = heap s !! l).
Proof.
  intros Ho Hlt. unfold beget_plain, SC_beget.
  set (s0 := mkState (<[next s := CObj ∅ (Some this)]> (heap s)) (S (next s))
                     (globals s) (observers s) (world s)).
  assert (is_object s0 (next s)) as Ho0.
  { eexists _, _. simpl. by rewrite lookup_insert_eq. }
  eexists. split.
  { unfold mbind, M_bind, bind. simpl. fold s0. by rewrite (setp_object _ _ _ _ Ho0). }
  assert (∀ l k, l < next s → prop s0 l k = prop s l k) as Hs0.
  { intros l k Hl. by apply prop_alloc. }
  split_and!.
  - by rewrite write_prop_next.
  - by apply write_prop_object.
  - by apply prop_write_eq.
  - intros k Hk. rewrite prop_write_ne by done.
    rewrite <- (Hs0 this k Hlt). unfold prop at 1. simpl.
    rewrite lookup_insert_eq, lookup_empty.
    apply Nat.ltb_lt in Hlt as Hlt'. rewrite Hlt'.
    unfold prop. by apply lookup_chain_fuel.
  - intros l k Hl. unfold write_prop.
    destruct Ho0 as (props & proto & ->).
    unfold prop, set_heap. cbn [heap]. rewrite lookup_chain_below by done.
    by apply Hs0.
  - intros l Hl. unfold write_prop. destruct Ho0 as (props & proto & Ho0).
    rewrite Ho0. simpl. rewrite !lookup_insert_ne by lia. done.
Qed.

(** C2: [transform] compares the pipeline with [parentBinding._transform],
    not with [parentBinding._transforms], so unless a template happens to
    have a property of that name holding its pipeline, the pipeline a derived
    binding inherits is not copied: the transform added to the derived
    binding is appended to the array of the template. *)
Theorem derived_transform_mutates_template
    (template : loc) (f : value) (s : State) (tr : loc) (elems : list value)
    (fl : bool) :
  is_object s template → template < next s → tr < next s →
  prop s template "_transforms" = VRef tr →
  heap s !! tr = Some (CArr elems fl) →
  prop s template "_transform" ≠ VRef tr →
  ∃ derived s1 s2,
    beget template VUndef s = Ret derived s1 [] ∧
    transform derived f s1 = Ret derived s2 [] ∧
    pipeline s template = Some elems ∧
    pipeline s1 template = Some elems ∧
    pipeline s2 template = Some (elems ++ [f]).
Proof.
  intros Ho Hlt Htr Hp Hc Hne.
  destruct (prop_beget_plain template s Ho Hlt)
    as (s1 & Hb & Hn1 & Ho1 & Hpar & Hinh & Hold & Hheap).
  assert (next s ≠ SC_Binding) as Hd by (unfold SC_Binding; lia).
  assert (heap s1 !! tr = Some (CArr elems fl)) as Hc1 by by rewrite Hheap.
  exists (next s), s1, (set_heap (<[tr := CArr (elems ++ [f]) fl]> (heap s1)) s1).
  split_and!.
  - unfold beget. fold (beget_plain template). exact Hb.
  - unfold transform. rewrite bool_decide_eq_false_2 by done.
    unfold mbind, M_bind, bind, getp, gets. cbn [mret M_ret ret].
    rewrite (Hinh "_transforms") by done. rewrite Hp. cbn [truthy].
    rewrite Hpar. cbn [read getp gets]. rewrite Hold by done.
    unfold strict_eq. rewrite bool_decide_eq_false_2 by congruence.
    cbn [mret M_ret ret negb truthy]. unfold array_push. rewrite Hc1. done.
  - unfold pipeline. rewrite Hp. simpl. by rewrite Hc.
  - unfold pipeline. rewrite Hold, Hp by done. simpl. by rewrite Hc1.
  - unfold pipeline. erewrite prop_push by done. rewrite Hold, Hp by done.
    simpl. by rewrite lookup_insert_eq.
Qed.

(** ** More fuel, same result *)














(** * More of the code *)

(** ** The helpers and the closures they install *)

(** The pipeline of [b] ends with the function object [f], which runs [c]. *)
Definition installed_last (s : State) (b : loc) (c : code) (f : loc) : Prop :=
  ∃ tr elems flag,
    prop s b "_transforms" = VRef tr ∧
    heap s !! tr = Some (CArr (elems ++ [VRef f]) flag) ∧
    heap s !! f = Some (CFun c).

(** What every helper does after it has fixed its placeholder. *)
Lemma helper_installs this fromPath c s b s' t :
  (binding ← from this fromPath VUndef; f ← closure c; transform binding f) s
  = Ret b s' t →
  ∃ f, installed_last s' b c f.
Proof.
  unfold closure. intros Hs. minv.
  match goal with Ht : transform ?a ?f ?st = _ |- _ =>
    pose proof (transform_installs _ _ _ _ _ _ Ht) as (tr & elems & flag & Hp & Htr);
    pose proof (transform_keeps_functions a f st) as [_ Hkeep];
    rewrite Ht in Hkeep; simpl in Hkeep end.
  eexists _, tr, elems, flag. split_and!; [done|done|].
  apply Hkeep; [lia|]. by rewrite lookup_insert_eq.
Qed.

(** A value [notEmpty] replaces. *)
Definition is_empty_value (h : gmap loc cell) (v : value) : Prop :=
  v = VNull ∨ v = VUndef ∨ v = VStr "" ∨
  ∃ l fl, v = VRef l ∧ h !! l = Some (CArr [] fl).

Lemma notEmpty_fn_spec p h v :
  (is_empty_value h v → notEmpty_fn p h v = p) ∧
  (¬ is_empty_value h v → notEmpty_fn p h v = v).
Proof.
  unfold notEmpty_fn, is_empty_value, strict_eq, isArray, array_length. split.
  - intros [->|[->|[->|(l & fl & -> & Hl)]]]; try done.
    rewrite Hl. simpl. done.
  - intros Hne. destruct v as [| | | |str|l]; try done.
    + destruct Hne. by right; left.
    + destruct Hne. by left.
    + destruct (decide (str = "")) as [->|Hs].
      * destruct Hne. by right; right; left.
      * rewrite !bool_decide_eq_false_2; [done| |done|done]. congruence.
    + simpl. destruct (h !! l) as [[|[|x elems] fl| | |]|] eqn:Hl; try done.
      destruct Hne. right; right; right. by exists l, fl.
Qed.

Lemma call_closure_pure flush f c v this s r :
  heap s !! f = Some (CFun c) →
  match c with
  | SingleFn p => r = single_fn p (heap s) v
  | NotEmptyFn p => r = notEmpty_fn p (heap s) v
  | NotNullFn p => r = notNull_fn p v
  | BoolFn => r = bool_fn (heap s) v
  | NotFn => r = not_fn (heap s) v
  | IsNullFn => r = isNull_fn (heap s) v
  | _ => False
  end →
  call_fn flush (VRef f) v this s = Ret r s [].
Proof. unfold call_fn. intros -> Hr. destruct c; try done; by subst. Qed.

(** X1. [notEmpty]: the function it appends to the pipeline replaces null,
    undefined, the empty string and an empty array by the placeholder (the
    default one when none is given) and returns every other value, 0 and
    false among them, as it is. *)
Theorem notEmpty_installs_transform
    (this : loc) (fromPath placeholder : value) (s : State) (b : loc)
    (s' : State) (t : list event) :
  notEmpty this fromPath placeholder s = Ret b s' t →
  let p := if strict_eq placeholder VUndef then EMPTY_PLACEHOLDER else placeholder in
  ∃ f, installed_last s' b (NotEmptyFn p) f ∧
    ∀ (flush : M value) (receiver : loc) (s1 : State) (v : value),
      heap s1 !! f = Some (CFun (NotEmptyFn p)) →
      (is_empty_value (heap s1) v →
         call_fn flush (VRef f) v receiver s1 = Ret p s1 []) ∧
      (¬ is_empty_value (heap s1) v →
         call_fn flush (VRef f) v receiver s1 = Ret v s1 []).
Proof.
  intros Hs p. unfold notEmpty in Hs.
  destruct (helper_installs _ _ _ _ _ _ _ Hs) as (f & Hf).
  exists f. split; [done|]. intros flush receiver s1 v Hc.
  destruct (notEmpty_fn_spec p (heap s1) v) as [H1 H2].
  split; intros Hv; eapply call_closure_pure; [done| |done|]; simpl; symmetry; auto.
Qed.

(** X2. [notNull]: the function it appends replaces null and undefined by
    the placeholder and returns every other value, the empty string and an
    empty array among them, as it is. *)
Theorem notNull_installs_transform
    (this : loc) (fromPath placeholder : value) (s : State) (b : loc)
    (s' : State) (t : list event) :
  notNull this fromPath placeholder s = Ret b s' t →
  let p := if strict_eq placeholder VUndef then EMPTY_PLACEHOLDER else placeholder in
  ∃ f, installed_last s' b (NotNullFn p) f ∧
    ∀ (flush : M value) (receiver : loc) (s1 : State) (v : value),
      heap s1 !! f = Some (CFun (NotNullFn p)) →
      (v = VNull ∨ v = VUndef →
         call_fn flush (VRef f) v receiver s1 = Ret p s1 []) ∧
      (v ≠ VNull → v ≠ VUndef →
         call_fn flush (VRef f) v receiver s1 = Ret v s1 []).
Proof.
  intros Hs p. unfold notNull in Hs.
  destruct (helper_installs _ _ _ _ _ _ _ Hs) as (f & Hf).
  exists f. split; [done|]. intros flush receiver s1 v Hc. split.
  - intros [->| ->]; by eapply call_closure_pure.
  - intros Hn Hu. eapply call_closure_pure; [done|]. simpl.
    unfold notNull_fn, strict_eq. by rewrite !bool_decide_eq_false_2.
Qed.

(** The truth value [bool] gives a value that is neither an error nor an
    array; the test for the empty string in the source changes nothing. *)
Lemma bool_fn_plain h v :
  type_of h v ≠ T_ERROR → type_of h v ≠ T_ARRAY → bool_fn h v = VBool (truthy v).
Proof.
  intros He Ha. unfold bool_fn. rewrite !bool_decide_eq_false_2 by done.
  unfold strict_eq. case_bool_decide as Hs; [by subst|done].
Qed.

Lemma type_of_array h l elems fl :
  h !! l = Some (CArr elems fl) → type_of h (VRef l) = T_ARRAY.
Proof. simpl. by intros ->. Qed.

Lemma bool_fn_array h l elems fl :
  h !! l = Some (CArr elems fl) →
  bool_fn h (VRef l) = VBool (bool_decide (elems ≠ [])).
Proof.
  intros Hl. unfold bool_fn. rewrite (type_of_array _ _ _ _ Hl). simpl.
  rewrite Hl. by destruct elems.
Qed.

Lemma bool_fn_error h v : type_of h v = T_ERROR → bool_fn h v = v.
Proof. intros He. unfold bool_fn. by rewrite He. Qed.

(** [not] is [bool] with the truth value inverted. *)
Lemma not_fn_bool_fn h v :
  (type_of h v = T_ERROR → not_fn h v = v ∧ bool_fn h v = v) ∧
  (type_of h v ≠ T_ERROR →
   ∃ c, bool_fn h v = VBool c ∧ not_fn h v = VBool (negb c)).
Proof.
  unfold not_fn, bool_fn. split.
  - by intros ->.
  - intros He. rewrite !bool_decide_eq_false_2 by done. by eexists.
Qed.

(** X3. [bool]: the function it appends returns an error-typed value as it
    is, turns an array into whether it has an element, and every other value
    into its truth value (the empty string, 0, null and undefined into
    false). *)
Theorem bool_installs_transform
    (this : loc) (fromPath : value) (s : State) (b : loc)
    (s' : State) (t : list event) :
  bool_ this fromPath s = Ret b s' t →
  ∃ f, installed_last s' b BoolFn f ∧
    ∀ (flush : M value) (receiver : loc) (s1 : State) (v : value),
      heap s1 !! f = Some (CFun BoolFn) →
      (type_of (heap s1) v = T_ERROR →
         call_fn flush (VRef f) v receiver s1 = Ret v s1 []) ∧
      (∀ l elems fl, v = VRef l → heap s1 !! l = Some (CArr elems fl) →
         call_fn flush (VRef f) v receiver s1
         = Ret (VBool (bool_decide (elems ≠ []))) s1 []) ∧
      (type_of (heap s1) v ≠ T_ERROR → type_of (heap s1) v ≠ T_ARRAY →
         call_fn flush (VRef f) v receiver s1 = Ret (VBool (truthy v)) s1 []).
Proof.
  unfold bool_. intros Hs.
  destruct (helper_installs _ _ _ _ _ _ _ Hs) as (f & Hf).
  exists f. split; [done|]. intros flush receiver s1 v Hc. split_and!.
  - intros He. eapply call_closure_pure; [done|]. simpl. by rewrite bool_fn_error.
  - intros l elems fl -> Hl. eapply call_closure_pure; [done|]. simpl.
    by erewrite bool_fn_array.
  - intros He Ha. eapply call_closure_pure; [done|]. simpl. by rewrite bool_fn_plain.
Qed.

(** X4. [not]: the function it appends returns an error-typed value as it
    is and every other value as the negation of what [bool] makes of it; so
    applied after [bool] it is [not], and applied twice it is [bool]. *)
Theorem not_installs_transform
    (this : loc) (fromPath : value) (s : State) (b : loc)
    (s' : State) (t : list event) :
  not_ this fromPath s = Ret b s' t →
  ∃ f, installed_last s' b NotFn f ∧
    ∀ (flush : M value) (receiver : loc) (s1 : State) (v : value),
      heap s1 !! f = Some (CFun NotFn) →
      call_fn flush (VRef f) v receiver s1 = Ret (not_fn (heap s1) v) s1 [] ∧
      (type_of (heap s1) v = T_ERROR → not_fn (heap s1) v = v) ∧
      (type_of (heap s1) v ≠ T_ERROR →
         ∃ c, bool_fn (heap s1) v = VBool c ∧ not_fn (heap s1) v = VBool (negb c)) ∧
      not_fn (heap s1) (bool_fn (heap s1) v) = not_fn (heap s1) v ∧
      not_fn (heap s1) (not_fn (heap s1) v) = bool_fn (heap s1) v.
Proof.
  unfold not_. intros Hs.
  destruct (helper_installs _ _ _ _ _ _ _ Hs) as (f & Hf).
  exists f. split; [done|]. intros flush receiver s1 v Hc.
  destruct (not_fn_bool_fn (heap s1) v) as [He Hn].
  split_and!; [by eapply call_closure_pure|by intros [? ?]%He|done| |].
  - destruct (decide (type_of (heap s1) v = T_ERROR)) as [Ht|Ht].
    + by destruct (He Ht) as [_ ->].
    + destruct (Hn Ht) as (c & -> & ->). unfold not_fn. simpl. by destruct c.
  - destruct (decide (type_of (heap s1) v = T_ERROR)) as [Ht|Ht].
    + destruct (He Ht) as [-> ->]. by destruct (He Ht) as [-> _].
    + destruct (Hn Ht) as (c & -> & ->). unfold not_fn. simpl. by destruct c.
Qed.

(** X5. [isNull]: the function it appends returns an error-typed value as it
    is and tells of every other value whether it is null or undefined. *)
Theorem isNull_installs_transform
    (this : loc) (fromPath : value) (s : State) (b : loc)
    (s' : State) (t : list event) :
  isNull this fromPath s = Ret b s' t →
  ∃ f, installed_last s' b IsNullFn f ∧
    ∀ (flush : M value) (receiver : loc) (s1 : State) (v : value),
      heap s1 !! f = Some (CFun IsNullFn) →
      (type_of (heap s1) v = T_ERROR →
         call_fn flush (VRef f) v receiver s1 = Ret v s1 []) ∧
      (v = VNull ∨ v = VUndef →
         call_fn flush (VRef f) v receiver s1 = Ret (VBool true) s1 []) ∧
      (type_of (heap s1) v ≠ T_ERROR → v ≠ VNull → v ≠ VUndef →
         call_fn flush (VRef f) v receiver s1 = Ret (VBool false) s1 []).
Proof.
  unfold isNull. intros Hs.
  destruct (helper_installs _ _ _ _ _ _ _ Hs) as (f & Hf).
  exists f. split; [done|]. intros flush receiver s1 v Hc. split_and!.
  - intros He. eapply call_closure_pure; [done|]. simpl.
    unfold isNull_fn. by rewrite He.
  - intros [->| ->]; by eapply call_closure_pure.
  - intros He Hn Hu. eapply call_closure_pure; [done|]. simpl.
    unfold isNull_fn. rewrite bool_decide_eq_false_2 by done. by destruct v.
Qed.

Lemma call_multiple_array flush f v this s :
  heap s !! f = Some (CFun MultipleFn) → isArray (heap s) v = true →
  call_fn flush (VRef f) v this s = Ret v s [].
Proof.
  unfold call_fn, multiple_fn. intros -> Ha.
  unfold mbind, M_bind, bind. simpl. by rewrite Ha.
Qed.

Lemma call_multiple_other flush f v this s :
  heap s !! f = Some (CFun MultipleFn) → isArray (heap s) v = false →
  call_fn flush (VRef f) v this s
  = Ret (VRef (next s))
        (mkState (<[next s := CArr (if is_nullish v then [] else [v]) true]> (heap s))
                 (S (next s)) (globals s) (observers s) (world s)) [].
Proof.
  unfold call_fn, multiple_fn. intros -> Ha.
  unfold mbind, M_bind, bind. simpl. rewrite Ha. simpl. by destruct (is_nullish v).
Qed.

(** X6. [multiple]: the function it appends returns an array as it is,
    without touching the heap; for any other value it allocates a new array,
    empty for null and undefined and holding the value otherwise, and leaves
    every existing object as it was.  What it returns is an array, so a
    second application returns it unchanged, and [single] applied to it gives
    the value back (null for null and undefined). *)
Theorem multiple_installs_transform
    (this : loc) (fromPath : value) (s : State) (b : loc)
    (s' : State) (t : list event) :
  multiple this fromPath s = Ret b s' t →
  ∃ f, installed_last s' b MultipleFn f ∧
    ∀ (flush : M value) (receiver : loc) (s1 : State) (v : value),
      heap s1 !! f = Some (CFun MultipleFn) →
      (isArray (heap s1) v = true →
         call_fn flush (VRef f) v receiver s1 = Ret v s1 []) ∧
      (isArray (heap s1) v = false →
         ∃ r s2,
           call_fn flush (VRef f) v receiver s1 = Ret r s2 [] ∧
           array_elems s2 r = Some (if is_nullish v then [] else [v]) ∧
           (∀ l, l < next s1 → heap s2 !! l = heap s1 !! l) ∧
           (f < next s1 → call_fn flush (VRef f) r receiver s2 = Ret r s2 []) ∧
           (∀ p, single_fn p (heap s2) r = if is_nullish v then VNull else v)).
Proof.
  unfold multiple. intros Hs.
  destruct (helper_installs _ _ _ _ _ _ _ Hs) as (f & Hf).
  exists f. split; [done|]. intros flush receiver s1 v Hc. split.
  - by apply call_multiple_array.
  - intros Ha. eexists _, _. split; [by apply call_multiple_other|].
    split_and!.
    + simpl. by rewrite lookup_insert_eq.
    + intros l Hl. simpl. rewrite lookup_insert_ne; [done|lia].
    + intros Hlt. apply call_multiple_array; simpl.
      * rewrite lookup_insert_ne; [done|lia].
      * by rewrite lookup_insert_eq.
    + intros p. destruct (is_nullish v).
      * eapply single_fn_empty. simpl. by rewrite lookup_insert_eq.
      * eapply single_fn_one. simpl. by rewrite lookup_insert_eq.
Qed.

(** ** A from-path given to a helper *)

Definition never_returns {A} (m : M A) (s : State) : Prop :=
  ∃ e s' t, m s = Throw e s' t.

Lemma never_returns_iff {A} (m : M A) s :
  never_returns m s ↔ ∀ a s' t, m s ≠ Ret a s' t.
Proof.
  unfold never_returns. split.
  - intros (e & s' & t & ->). done.
  - intros Hn. destruct (outcome_cases (m s)) as [(a & s' & t & Hr)|?]; [|done].
    by destruct (Hn a s' t).
Qed.

Lemma never_returns_bind {A B} (m : M A) (f : A → M B) s :
  (∀ a s1 t1, m s = Ret a s1 t1 → never_returns (f a) s1) →
  never_returns (m ≫= f) s.
Proof.
  intros Hf. apply never_returns_iff. intros b s' t Hr.
  apply bind_Ret_inv in Hr as (a & s1 & t1 & t2 & Hm & Hr & _).
  apply Hf in Hm. destruct Hm as (? & ? & ? & Hm). congruence.
Qed.

Lemma from_never_returns this propertyPath root s :
  truthy propertyPath = true → globals s !! "bidning" = None →
  never_returns (from this propertyPath root) s.
Proof.
  intros Hp Hg. unfold from. rewrite Hp. simpl.
  apply never_returns_bind. intros b0 s0 t0 Hb.
  assert (globals s0 = globals s) as Hg0.
  { case_bool_decide; [by eapply beget_plain_globals|]. by minv. }
  apply never_returns_bind. intros [] s1 t1 H1%setp_globals.
  apply never_returns_bind. intros [] s2 t2 H2%setp_globals.
  apply never_returns_bind. intros [] s3 t3 H3.
  rewrite global_setp_unbound in H3; [done|]. congruence.
Qed.

Lemma helper_never_returns this p c s :
  truthy p = true → globals s !! "bidning" = None →
  never_returns (binding ← from this p VUndef; f ← closure c; transform binding f) s.
Proof.
  intros Hp Hg. apply never_returns_bind. intros b s1 t1 Hf.
  destruct (from_never_returns this p VUndef s Hp Hg) as (? & ? & ? & Hthrow).
  congruence.
Qed.

Lemma shift_flag_path h p a :
  (∀ c, p ≠ VBool c) → shift_flag h p a = (p, a).
Proof.
  intros Hp. unfold shift_flag.
  assert (type_of h p ≠ T_BOOL) as Ht.
  { destruct p as [| |c| | |l]; simpl; try done; [by destruct (Hp c)|].
    by repeat case_match. }
  by rewrite (bool_decide_eq_false_2 _ Ht), andb_false_r.
Qed.

(** X7. Every method that takes an optional from-path hands it to [from]:
    with a path that is truthy (and, for [oneWay] and [noError], not the
    boolean that stands for the flag) and [bidning] bound nowhere, none of
    [beget], [oneWay], [noError], [single], [notEmpty], [notNull],
    [multiple], [bool], [not] and [isNull] returns; each throws. *)
Theorem methods_with_path_throw
    (this : loc) (p a ph : value) (s : State) :
  truthy p = true →
  globals s !! "bidning" = None →
  never_returns (single this p ph) s ∧
  never_returns (notEmpty this p ph) s ∧
  never_returns (notNull this p ph) s ∧
  never_returns (multiple this p) s ∧
  never_returns (bool_ this p) s ∧
  never_returns (not_ this p) s ∧
  never_returns (isNull this p) s ∧
  never_returns (beget this p) s ∧
  ((∀ c, p ≠ VBool c) →
   never_returns (oneWay this p a) s ∧ never_returns (noError this p a) s).
Proof.
  intros Hp Hg.
  split_and!; try by apply helper_never_returns.
  - unfold beget. apply never_returns_bind. intros r s1 t1 Hr.
    apply never_returns_bind. intros [] s2 t2 Hs.
    unfold strict_eq. rewrite bool_decide_eq_false_2 by (by intros ->). simpl.
    apply from_never_returns; [done|].
    apply setp_globals in Hs. unfold SC_beget in Hr. minv. by rewrite Hs.
  - intros Hb. split.
    + unfold oneWay. apply never_returns_bind. intros h s1 t1 Hh. minv.
      rewrite shift_flag_path by done.
      apply never_returns_bind. intros b s1 t1 Hf.
      destruct (from_never_returns this p VUndef s Hp Hg) as (? & ? & ? & Hthrow).
      congruence.
    + unfold noError. apply never_returns_bind. intros h s1 t1 Hh. minv.
      rewrite shift_flag_path by done.
      apply never_returns_bind. intros b s1 t1 Hf.
      destruct (from_never_returns this p VUndef s Hp Hg) as (? & ? & ? & Hthrow).
      congruence.
Qed.

(** ** A pipeline of built-in transforms *)

(** The closures that compute a value from the value they are given and the
    heap, and what they compute. *)
Definition pure_code (c : code) : bool :=
  match c with
  | SingleFn _ | NotEmptyFn _ | NotNullFn _ | BoolFn | NotFn | IsNullFn => true
  | _ => false
  end.

Definition eval_code (c : code) (h : gmap loc cell) (v : value) : value :=
  match c with
  | SingleFn p => single_fn p h v
  | NotEmptyFn p => notEmpty_fn p h v
  | NotNullFn p => notNull_fn p v
  | BoolFn => bool_fn h v
  | NotFn => not_fn h v
  | IsNullFn => isNull_fn h v
  | _ => v
  end.

Definition eval_pipeline (h : gmap loc cell) (cs : list code) (v : value) : value :=
  foldl (λ v c, eval_code c h v) v cs.

(** The array element [e] is a function object that runs the pure code [c]. *)
Definition pure_closure (s : State) (e : value) (c : code) : Prop :=
  ∃ f, e = VRef f ∧ heap s !! f = Some (CFun c) ∧ pure_code c = true.

Lemma call_pure_closure flush e c v this s :
  pure_closure s e c → call_fn flush e v this s = Ret (eval_code c (heap s) v) s [].
Proof.
  intros (f & -> & Hf & Hc). eapply call_closure_pure; [done|].
  by destruct c.
Qed.

Lemma transform_loop_pure flush this tr fl pre suf cs v s :
  heap s !! tr = Some (CArr (pre ++ suf) fl) →
  Forall2 (pure_closure s) suf cs →
  ∃ t, transform_loop flush this (VRef tr) (length suf) (length pre) v s
       = Ret (eval_pipeline (heap s) cs v) s t ∧
       length t = length suf ∧ enqueued t = [] ∧ applied t = [] ∧
       (∀ target key w, ESetPath target key w ∉ t).
Proof.
  intros Htr Hall. revert pre v Htr.
  induction Hall as [|e c suf cs He Hall IH]; intros pre v Htr.
  - exists []. split_and!; try done. intros ???. apply not_elem_of_nil.
  - destruct (IH (pre ++ [e]) (eval_code c (heap s) v)) as (t & Hl & Hlen & Hen & Hap & Hset).
    { by rewrite <- app_assoc. }
    rewrite length_app in Hl. simpl in Hl. rewrite Nat.add_1_r in Hl.
    exists (ETransform (length pre) e v :: t). split_and!.
    + simpl. unfold mbind, M_bind, bind. simpl. rewrite Htr.
      rewrite lookup_app_r by done. rewrite Nat.sub_diag. simpl.
      rewrite (call_pure_closure _ _ _ _ _ _ He). by rewrite Hl.
    + simpl. by rewrite Hlen.
    + done.
    + done.
    + intros target key w Hin. apply elem_of_cons in Hin as [?|Hin]; [done|].
      by eapply Hset.
Qed.

(** *** Running a computation step by step *)

(** The outcome [o] with the events [t] in front of its own. *)
Definition prepend {A} (t : list event) (o : outcome A) : outcome A :=
  match o with
  | Ret a s t' => Ret a s (t ++ t')
  | Throw e s t' => Throw e s (t ++ t')
  end.

Lemma prepend_nil {A} (o : outcome A) : prepend [] o = o.
Proof. by destruct o. Qed.

Lemma bind_step {A B} (m : M A) (f : A → M B) s a s1 t1 :
  m s = Ret a s1 t1 → (m ≫= f) s = prepend t1 (f a s1).
Proof. intros Hm. unfold mbind, M_bind, bind. by rewrite Hm. Qed.

Lemma bind_getp {B} l k (f : value → M B) s : (getp l k ≫= f) s = f (prop s l k) s.
Proof. erewrite bind_step by done. apply prepend_nil. Qed.

Lemma bind_gets {A B} (g : State → A) (f : A → M B) s : (gets g ≫= f) s = f (g s) s.
Proof. erewrite bind_step by done. apply prepend_nil. Qed.

Lemma bind_mret {A B} (a : A) (f : A → M B) s : (mret a ≫= f) s = f a s.
Proof. erewrite bind_step by done. apply prepend_nil. Qed.

Lemma bind_setp {B} l k v (f : unit → M B) s :
  is_object s l → (setp l k v ≫= f) s = f () (write_prop l k v s).
Proof.
  intros Ho. erewrite bind_step by by apply setp_object. apply prepend_nil.
Qed.

Lemma computeBindingTargets_resolved b s :
  truthy (prop s b "_fromTarget") = true →
  truthy (prop s b "_toTarget") = true →
  _computeBindingTargets b s = Ret () s [].
Proof.
  intros Hfrom Hto. unfold _computeBindingTargets.
  rewrite bind_getp, Hfrom. cbn [negb]. rewrite bind_mret, bind_getp, Hto. done.
Qed.

(** Applying a one-way binding with resolved endpoints and a pipeline of
    built-in transforms. *)
Lemma apply_one_way
    (flush : M value) (b : loc) (s : State) (tr : loc) (elems : list value)
    (fl : bool) (cs : list code) (r : value) (s' : State) (t' : list event) :
  truthy (prop s b "_oneWay") = true →
  truthy (prop s b "_fromTarget") = true →
  truthy (prop s b "_toTarget") = true →
  prop s b "_transforms" = VRef tr →
  heap s !! tr = Some (CArr elems fl) →
  Forall2 (pure_closure s) elems cs →
  let final := suppressed s b
                 (eval_pipeline (heap s) cs (prop s b "_bindingValue")) in
  run_script flush
    (target_setPathIfChanged (world s) (prop s b "_toTarget")
       (prop s b "_toPropertyKey") final) s = Ret r s' t' →
  ∃ tp, applyBindingValue flush b s
        = Ret () s' (tp ++ ESetPath (prop s b "_toTarget")
                                    (prop s b "_toPropertyKey") final :: t') ∧
        length tp = length cs ∧ enqueued tp = [] ∧ applied tp = [] ∧
        (∀ target key w, ESetPath target key w ∉ tp).
Proof.
  intros Hone Hfrom Hto Hp Htr Hall final Hrun.
  destruct (transform_loop_pure flush b tr fl [] elems cs
              (prop s b "_bindingValue") s Htr Hall)
    as (tp & Hloop & Hlen & Hen & Hap & Hset).
  exists tp. split_and!; try done.
  - unfold applyBindingValue.
    erewrite bind_step by by apply computeBindingTargets_resolved.
    rewrite prepend_nil, !bind_getp, Hone. cbn [negb andb].
    rewrite bind_mret, bind_getp, Hp. cbn [truthy].
    assert ((len ← gets (λ s0 : State, array_length (heap s0) (VRef tr));
             transform_loop flush b (VRef tr) len 0 (prop s b "_bindingValue")) s
            = Ret (eval_pipeline (heap s) cs (prop s b "_bindingValue")) s tp) as Hl2.
    { rewrite bind_gets. unfold array_length. rewrite Htr. exact Hloop. }
    erewrite bind_step by exact Hl2.
    rewrite !bind_getp, (bind_gets heap), bind_getp, Hto.
    cbn [truthy].
    assert (setPathIfChanged flush (prop s b "_toTarget") (prop s b "_toPropertyKey")
              final s
            = Ret () s' (ESetPath (prop s b "_toTarget") (prop s b "_toPropertyKey")
                           final :: t')) as Hset'.
    { apply setPathIfChanged_Ret. by eexists _, _. }
    unfold final, suppressed in Hset'. cbn iota. rewrite bind_getp, Hset'.
    done.
  - rewrite Hlen. by eapply Forall2_length.
Qed.

(** X8. A one-way binding whose two endpoints are resolved and whose
    pipeline holds built-in transforms other than [multiple]: applying it
    writes once, to the to-endpoint, the pending value run through the
    transforms from first to last (null instead, if errors are suppressed
    and the result is error-typed); it writes nothing to the from-endpoint,
    enqueues nothing on its own and leaves the state to what the write
    does. *)
Theorem one_way_delivers_pipeline
    (flush : M value) (b : loc) (s : State) (tr : loc) (elems : list value)
    (fl : bool) (cs : list code) (r : value) (s' : State) (t' : list event) :
  truthy (prop s b "_oneWay") = true →
  truthy (prop s b "_fromTarget") = true →
  truthy (prop s b "_toTarget") = true →
  prop s b "_transforms" = VRef tr →
  heap s !! tr = Some (CArr elems fl) →
  Forall2 (pure_closure s) elems cs →
  let final := suppressed s b
                 (eval_pipeline (heap s) cs (prop s b "_bindingValue")) in
  run_script flush
    (target_setPathIfChanged (world s) (prop s b "_toTarget")
       (prop s b "_toPropertyKey") final) s = Ret r s' t' →
  ∃ tp, applyBindingValue flush b s
        = Ret () s' (tp ++ ESetPath (prop s b "_toTarget")
                                    (prop s b "_toPropertyKey") final :: t') ∧
        length tp = length cs ∧ enqueued tp = [] ∧ applied tp = [] ∧
        (∀ target key w, ESetPath target key w ∉ tp).
Proof. apply apply_one_way. Qed.

(** X9. While neither path can be resolved, applying a binding without a
    pipeline writes nothing and changes nothing: the resolution is tried
    again at the next application. *)
Theorem unresolved_binding_writes_nothing
    (flush : M value) (b : loc) (s : State) :
  truthy (prop s b "_fromTarget") = false →
  truthy (prop s b "_toTarget") = false →
  truthy (prop s b "_transforms") = false →
  tupleForPropertyPath (world s) (prop s b "_fromPropertyPath")
    (prop s b "_fromRoot") = None →
  tupleForPropertyPath (world s) (prop s b "_toPropertyPath")
    (prop s b "_toRoot") = None →
  applyBindingValue flush b s = Ret () s [].
Proof.
  intros Hfrom Hto Hts Hrf Hrt.
  assert (_computeBindingTargets b s = Ret () s []) as Hc.
  { unfold _computeBindingTargets.
    rewrite bind_getp, Hfrom. cbn [negb].
    assert ((path ← getp b "_fromPropertyPath"; root ← getp b "_fromRoot";
             tuple ← gets (λ s0 : State, tupleForPropertyPath (world s0) path root);
             match tuple with
             | Some (target, key) =>
                 setp b "_fromTarget" target;; setp b "_fromPropertyKey" key
             | None => mret ()
             end) s = Ret () s []) as Hf1.
    { by rewrite !bind_getp, bind_gets, Hrf. }
    erewrite bind_step by exact Hf1.
    rewrite prepend_nil, bind_getp, Hto. cbn [negb].
    by rewrite !bind_getp, bind_gets, Hrt. }
  unfold applyBindingValue. erewrite bind_step by exact Hc.
  rewrite prepend_nil, !bind_getp, Hfrom, andb_false_r.
  rewrite bind_mret, bind_getp, Hts, bind_mret.
  by rewrite bind_getp, (bind_gets heap), bind_getp, Hto.
Qed.

(** ** The configuration methods *)

(** The first line of most methods: the binding they work on is the
    receiver, or a new instance when the receiver is [SC.Binding]. *)
Lemma receiver_or_instance this s :
  is_object s this → this < next s →
  ∃ b s1,
    (if bool_decide (this = SC_Binding) then beget_plain this else mret this) s
    = Ret b s1 [] ∧
    is_object s1 b ∧
    (this ≠ SC_Binding → b = this ∧ s1 = s) ∧
    (this = SC_Binding →
       b = next s ∧ next s1 = S (next s) ∧
       prop s1 b "parentBinding" = VRef SC_Binding ∧
       (∀ k, k ≠ "parentBinding" → prop s1 b k = prop s SC_Binding k) ∧
       (∀ l k, l < next s → prop s1 l k = prop s l k) ∧
       (∀ l, l < next s → heap s1 !! l = heap s !! l)).
Proof.
  intros Ho Hlt. case_bool_decide as Hthis.
  - destruct (prop_beget_plain this s Ho Hlt)
      as (s1 & Hb & Hn & Ho1 & Hpar & Hinh & Hold & Hheap).
    exists (next s), s1. subst this. by split_and!.
  - exists this, s. by split_and!.
Qed.

(** [m] returns a binding, the receiver or a new instance of [SC.Binding],
    on which the property [k] is [v]; no other property of an existing
    object has changed, and none at all when the receiver is
    [SC.Binding]. *)
Definition configures (m : M loc) (this : loc) (s : State) (k : string) (v : value) : Prop :=
  ∃ b s',
    m s = Ret b s' [] ∧ prop s' b k = v ∧
    (this ≠ SC_Binding →
       b = this ∧ ∀ l k', l < next s → k' ≠ k → prop s' l k' = prop s l k') ∧
    (this = SC_Binding →
       b = next s ∧ ∀ l k', l < next s → prop s' l k' = prop s l k').

Lemma prop_write_below l k v s l' k' :
  l' < l → prop (write_prop l k v s) l' k' = prop s l' k'.
Proof.
  intros Hlt. unfold write_prop.
  destruct (heap s !! l) as [[props proto| | | |]|] eqn:E; try done.
  unfold prop, set_heap. cbn [heap]. by apply lookup_chain_below.
Qed.

(** Assigning one property on the binding a method works on. *)
Lemma assign_configures this k v s :
  is_object s this → this < next s →
  configures
    (binding ← (if bool_decide (this = SC_Binding) then beget_plain this else mret this);
     setp binding k v;; mret binding) this s k v.
Proof.
  intros Ho Hlt.
  destruct (receiver_or_instance this s Ho Hlt) as (b & s1 & Hb & Ho1 & Hne & Heq).
  exists b, (write_prop b k v s1). split_and!.
  - erewrite bind_step by exact Hb. rewrite prepend_nil.
    by rewrite bind_setp.
  - by apply prop_write_eq.
  - intros Hthis. destruct (Hne Hthis) as [-> ->]. split; [done|].
    intros l k' _ Hk. by apply prop_write_ne.
  - intros Hthis. destruct (Heq Hthis) as (-> & Hn & Hpar & _ & Hold & _).
    split; [done|].
    intros l k' Hl. rewrite prop_write_below by done. by apply Hold.
Qed.

(** The body [oneWay] and [noError] share, for the property [k]. *)
Definition flag_method (k : string) (this : loc) (fromPath aFlag : value) : M loc :=
  h ← gets heap;
  let '(fromPath, aFlag) := shift_flag h fromPath aFlag in
  binding ← from this fromPath VUndef;
  binding ← (if bool_decide (binding = SC_Binding) then beget_plain binding else mret binding);
  setp binding k (if strict_eq aFlag VUndef then YES else aFlag);;
  mret binding.

Lemma flag_method_configures k this p a p' a' s :
  is_object s this → this < next s →
  shift_flag (heap s) p a = (p', a') → truthy p' = false →
  configures (flag_method k this p a) this s k
    (if strict_eq a' VUndef then YES else a').
Proof.
  intros Ho Hlt Hshift Hp.
  destruct (assign_configures this k (if strict_eq a' VUndef then YES else a') s Ho Hlt)
    as (b & s' & Hrun & Hrest).
  exists b, s'. split; [|done].
  unfold flag_method. rewrite (bind_gets heap), Hshift.
  erewrite bind_step by by apply from_without_path.
  by rewrite prepend_nil.
Qed.

Lemma shift_flag_bool h c : shift_flag h (VBool c) VUndef = (VNull, VBool c).
Proof. done. Qed.

Lemma shift_flag_keep h p a :
  (a = VUndef → ∀ c, p ≠ VBool c) → shift_flag h p a = (p, a).
Proof.
  intros Hk. destruct (decide (a = VUndef)) as [->|Ha].
  - apply shift_flag_path. by apply Hk.
  - unfold shift_flag, strict_eq. by rewrite bool_decide_eq_false_2.
Qed.

(** X10. [oneWay] without a from-path: a boolean in the place of the path
    is the flag; otherwise the flag is the second argument, YES when there
    is none.  The binding returned is the receiver, or a new instance when
    the receiver is [SC.Binding], which is itself left as it was. *)
Theorem oneWay_sets_direction
    (this : loc) (fromPath aFlag : value) (s : State) :
  is_object s this → this < next s →
  (∀ c, fromPath = VBool c → aFlag = VUndef →
     configures (oneWay this fromPath aFlag) this s "_oneWay" (VBool c)) ∧
  (truthy fromPath = false → (aFlag = VUndef → ∀ c, fromPath ≠ VBool c) →
     configures (oneWay this fromPath aFlag) this s "_oneWay"
       (if strict_eq aFlag VUndef then YES else aFlag)).
Proof.
  intros Ho Hlt. split.
  - intros c -> ->.
    by apply (flag_method_configures "_oneWay" this _ _ VNull (VBool c)).
  - intros Hp Hk.
    apply (flag_method_configures "_oneWay" this _ _ fromPath aFlag); try done.
    by apply shift_flag_keep.
Qed.

(** X11. [noError] without a from-path sets the error-suppression flag the
    same way: a boolean first argument is the flag, the default is YES, and
    [SC.Binding] is never the binding that is changed. *)
Theorem noError_sets_suppression
    (this : loc) (fromPath aFlag : value) (s : State) :
  is_object s this → this < next s →
  (∀ c, fromPath = VBool c → aFlag = VUndef →
     configures (noError this fromPath aFlag) this s "_noError" (VBool c)) ∧
  (truthy fromPath = false → (aFlag = VUndef → ∀ c, fromPath ≠ VBool c) →
     configures (noError this fromPath aFlag) this s "_noError"
       (if strict_eq aFlag VUndef then YES else aFlag)).
Proof.
  intros Ho Hlt. split.
  - intros c -> ->.
    by apply (flag_method_configures "_noError" this _ _ VNull (VBool c)).
  - intros Hp Hk.
    apply (flag_method_configures "_noError" this _ _ fromPath aFlag); try done.
    by apply shift_flag_keep.
Qed.

(** X12. [to] sets the to-path and the to-root and clears [_toTuple] for
    every path, a falsy one included, on the receiver or on a new instance
    when the receiver is [SC.Binding]; every other property of every
    existing object, the resolved target [_toTarget] and its key among them,
    is as it was. *)
Theorem to_sets_endpoint
    (this : loc) (propertyPath root : value) (s : State) :
  is_object s this → this < next s →
  ∃ b s',
    to this propertyPath root s = Ret b s' [] ∧
    prop s' b "_toPropertyPath" = propertyPath ∧
    prop s' b "_toRoot" = root ∧
    prop s' b "_toTuple" = VNull ∧
    (this ≠ SC_Binding → b = this) ∧
    (this = SC_Binding →
       b = next s ∧ ∀ l k, l < next s → prop s' l k = prop s l k) ∧
    (∀ l k, l < next s →
       k ≠ "_toPropertyPath" → k ≠ "_toRoot" → k ≠ "_toTuple" →
       prop s' l k = prop s l k).
Proof.
  intros Ho Hlt.
  destruct (receiver_or_instance this s Ho Hlt) as (b & s1 & Hb & Ho1 & Hne & Heq).
  set (s2 := write_prop b "_toPropertyPath" propertyPath s1).
  set (s3 := write_prop b "_toRoot" root s2).
  exists b, (write_prop b "_toTuple" VNull s3). split_and!.
  - unfold to. erewrite bind_step by exact Hb. rewrite prepend_nil.
    rewrite bind_setp by done. fold s2.
    rewrite bind_setp by by apply write_prop_object. fold s3.
    rewrite bind_setp; [done|]. by do 2 apply write_prop_object.
  - unfold s3, s2. rewrite !prop_write_ne by done. by apply prop_write_eq.
  - unfold s3. rewrite prop_write_ne by done. apply prop_write_eq.
    by apply write_prop_object.
  - apply prop_write_eq. by do 2 apply write_prop_object.
  - intros Hthis. by destruct (Hne Hthis).
  - intros Hthis. destruct (Heq Hthis) as (-> & Hn & Hpar & _ & Hold & _).
    split; [done|]. intros l k Hl. unfold s3, s2.
    rewrite !prop_write_below by done. by apply Hold.
  - intros l k Hl H1 H2 H3. unfold s3, s2. rewrite !prop_write_ne by done.
    destruct (decide (this = SC_Binding)) as [Hthis|Hthis].
    + destruct (Heq Hthis) as (_ & _ & _ & _ & Hold & _). by apply Hold.
    + by destruct (Hne Hthis) as [_ ->].
Qed.

(** ** Resolved targets are kept *)

Lemma computeBindingTargets_to_resolved b s :
  is_object s b → truthy (prop s b "_toTarget") = true →
  ∃ s2, _computeBindingTargets b s = Ret () s2 [] ∧
    ∀ l k, k ≠ "_fromTarget" → k ≠ "_fromPropertyKey" → prop s2 l k = prop s l k.
Proof.
  intros Ho Hto. unfold _computeBindingTargets. rewrite bind_getp.
  destruct (truthy (prop s b "_fromTarget")) eqn:Hfrom; cbn [negb].
  { exists s. split; [|done]. by rewrite bind_mret, bind_getp, Hto. }
  destruct (tupleForPropertyPath (world s) (prop s b "_fromPropertyPath")
              (prop s b "_fromRoot")) as [[target key]|] eqn:Hr.
  - set (s1 := write_prop b "_fromTarget" target s).
    set (s2 := write_prop b "_fromPropertyKey" key s1).
    assert (∀ l k, k ≠ "_fromTarget" → k ≠ "_fromPropertyKey" →
                   prop s2 l k = prop s l k) as Hsame.
    { intros l k H1 H2. unfold s2, s1. by rewrite !prop_write_ne. }
    exists s2. split; [|done].
    assert ((path ← getp b "_fromPropertyPath"; root ← getp b "_fromRoot";
             tuple ← gets (λ s0 : State, tupleForPropertyPath (world s0) path root);
             match tuple with
             | Some (target, key) =>
                 setp b "_fromTarget" target;; setp b "_fromPropertyKey" key
             | None => mret ()
             end) s = Ret () s2 []) as Hf1.
    { rewrite !bind_getp, bind_gets, Hr. rewrite bind_setp by done.
      apply setp_object. by apply write_prop_object. }
    erewrite bind_step by exact Hf1.
    rewrite prepend_nil, bind_getp, Hsame, Hto by done. done.
  - exists s. split; [|done].
    assert ((path ← getp b "_fromPropertyPath"; root ← getp b "_fromRoot";
             tuple ← gets (λ s0 : State, tupleForPropertyPath (world s0) path root);
             match tuple with
             | Some (target, key) =>
                 setp b "_fromTarget" target;; setp b "_fromPropertyKey" key
             | None => mret ()
             end) s = Ret () s []) as Hf1.
    { by rewrite !bind_getp, bind_gets, Hr. }
    erewrite bind_step by exact Hf1.
    by rewrite prepend_nil, bind_getp, Hto.
Qed.

(** X13. [to] does not reset the target a binding has resolved: after a
    new to-path is set on a binding whose to-target is resolved,
    [_computeBindingTargets] keeps the target and key of the old path,
    whatever the new path would resolve to. *)
Theorem to_keeps_resolved_target
    (b : loc) (propertyPath root : value) (s : State) :
  is_object s b → b ≠ SC_Binding →
  truthy (prop s b "_toTarget") = true →
  ∃ s1 s2,
    to b propertyPath root s = Ret b s1 [] ∧
    prop s1 b "_toPropertyPath" = propertyPath ∧
    prop s1 b "_toRoot" = root ∧
    _computeBindingTargets b s1 = Ret () s2 [] ∧
    prop s2 b "_toPropertyPath" = propertyPath ∧
    prop s2 b "_toRoot" = root ∧
    prop s2 b "_toTarget" = prop s b "_toTarget" ∧
    prop s2 b "_toPropertyKey" = prop s b "_toPropertyKey".
Proof.
  intros Ho Hne Hto.
  set (s1 := write_prop b "_toTuple" VNull
               (write_prop b "_toRoot" root
                  (write_prop b "_toPropertyPath" propertyPath s))).
  assert (is_object s1 b) as Ho1 by by do 3 apply write_prop_object.
  assert (∀ k, k ≠ "_toPropertyPath" → k ≠ "_toRoot" → k ≠ "_toTuple" →
               prop s1 b k = prop s b k) as Hsame.
  { intros k H1 H2 H3. unfold s1. by rewrite !prop_write_ne. }
  assert (prop s1 b "_toPropertyPath" = propertyPath) as Hp.
  { unfold s1. rewrite !prop_write_ne by done. by apply prop_write_eq. }
  assert (prop s1 b "_toRoot" = root) as Hr.
  { unfold s1. rewrite prop_write_ne by done. apply prop_write_eq.
    by apply write_prop_object. }
  destruct (computeBindingTargets_to_resolved b s1 Ho1) as (s2 & Hc & Hkeep).
  { by rewrite Hsame. }
  exists s1, s2. split_and!; try done.
  - unfold to. rewrite bool_decide_eq_false_2 by done. rewrite bind_mret.
    rewrite bind_setp by done.
    rewrite bind_setp by by apply write_prop_object.
    rewrite bind_setp; [done|]. by do 2 apply write_prop_object.
  - by rewrite Hkeep.
  - by rewrite Hkeep.
  - rewrite Hkeep by done. by apply Hsame.
  - rewrite Hkeep by done. by apply Hsame.
Qed.

(** ** Pipelines *)

(** [transform] on a binding that shows no pipeline. *)
Lemma transform_fresh b f s :
  b ≠ SC_Binding → is_object s b → b < next s →
  truthy (prop s b "_transforms") = false →
  ∃ s', transform b f s = Ret b s' [] ∧
    prop s' b "_transforms" = VRef (next s) ∧
    heap s' !! next s = Some (CArr [f] true) ∧
    next s' = S (next s) ∧
    (∀ l c, l < next s → is_obj c = false → heap s !! l = Some c → heap s' !! l = Some c) ∧
    (∀ l k, l < next s → k ≠ "_transforms" → prop s' l k = prop s l k).
Proof.
  intros Hne Ho Hlt Ht.
  set (s0 := mkState (<[next s := CArr [] true]> (heap s)) (S (next s))
                     (globals s) (observers s) (world s)).
  set (s1 := write_prop b "_transforms" (VRef (next s)) s0).
  assert (is_object s0 b) as Ho0.
  { destruct Ho as (props & proto & Ho). exists props, proto. simpl.
    rewrite lookup_insert_ne; [done|lia]. }
  assert (heap s1 !! next s = Some (CArr [] true)) as Harr.
  { unfold s1, write_prop. destruct Ho0 as (props & proto & ->). simpl.
    rewrite lookup_insert_ne by lia. by rewrite lookup_insert_eq. }
  exists (set_heap (<[next s := CArr ([] ++ [f]) true]> (heap s1)) s1).
  split_and!.
  - unfold transform. rewrite bool_decide_eq_false_2 by done.
    rewrite bind_mret, bind_getp, Ht, bind_mret, Ht. cbn [negb].
    assert ((t' ← new_array []; setp b "_transforms" t';; mret t') s
            = Ret (VRef (next s)) s1 []) as Hnew.
    { unfold new_array. unfold mbind at 1. unfold M_bind, bind.
      unfold mbind at 1. unfold M_bind, bind. cbn [alloc]. fold s0.
      cbn [mret M_ret ret app]. by rewrite bind_setp by done. }
    erewrite bind_step by exact Hnew. rewrite prepend_nil.
    unfold mbind, M_bind, bind, array_push. by rewrite Harr.
  - erewrite prop_push by done. unfold s1. by apply prop_write_eq.
  - simpl. by rewrite lookup_insert_eq.
  - simpl. unfold s1. by rewrite write_prop_next.
  - intros l c Hl Hc Hlc. simpl. rewrite lookup_insert_ne by lia.
    unfold s1, write_prop. destruct Ho0 as (props & proto & Hb). rewrite Hb.
    simpl. rewrite lookup_insert_ne.
    + rewrite lookup_insert_ne by lia. done.
    + intros ->. unfold s0 in Hb. cbn [heap] in Hb.
      rewrite lookup_insert_ne in Hb by lia.
      rewrite Hb in Hlc. by simplify_eq.
  - intros l k Hl Hk. erewrite prop_push by done. unfold s1.
    rewrite prop_write_ne by done. by apply prop_alloc.
Qed.

(** X14. [resetTransforms] and then [transform]: the binding gets a
    pipeline of its own that holds the one function, and no array that
    existed, the pipeline of a template among them, is changed. *)
Theorem reset_then_transform_is_private (this : loc) (f : value) (s : State) :
  is_object s this → this < next s →
  ∃ b s1 s2,
    resetTransforms this s = Ret b s1 [] ∧
    pipeline s1 b = None ∧
    transform b f s1 = Ret b s2 [] ∧
    pipeline s2 b = Some [f] ∧
    (this ≠ SC_Binding → b = this) ∧
    (this = SC_Binding → b = next s) ∧
    (∀ l elems fl, l < next s → heap s !! l = Some (CArr elems fl) →
       heap s2 !! l = Some (CArr elems fl)).
Proof.
  intros Ho Hlt.
  destruct (receiver_or_instance this s Ho Hlt) as (b & s0 & Hb & Ho0 & Hne & Heq).
  set (s1 := write_prop b "_transforms" VNull s0).
  assert (prop s1 b "_transforms" = VNull) as Hnull by by apply prop_write_eq.
  assert (b ≠ SC_Binding ∧ b < next s0 ∧ next s ≤ next s0 ∧
          ∀ l, l < next s → l ≠ b → heap s0 !! l = heap s !! l) as (Hb0 & Hlt0 & Hle & Hheap).
  { destruct (decide (this = SC_Binding)) as [Hthis|Hthis].
    - destruct (Heq Hthis) as (-> & Hn & _ & _ & _ & Hh). subst this.
      split_and!; [unfold SC_Binding in *; lia|lia|lia|]. intros l Hl _. by apply Hh.
    - destruct (Hne Hthis) as [-> ->]. by split_and!. }
  destruct (transform_fresh b f s1 Hb0) as (s2 & Ht & Hp & Harr & _ & Hkeep & _).
  { by apply write_prop_object. }
  { unfold s1. by rewrite write_prop_next. }
  { by rewrite Hnull. }
  exists b, s1, s2. split_and!; try done.
  - unfold resetTransforms. erewrite bind_step by exact Hb.
    rewrite prepend_nil. by rewrite bind_setp.
  - unfold pipeline. by rewrite Hnull.
  - unfold pipeline. rewrite Hp. simpl. by rewrite Harr.
  - intros Hthis. by destruct (Hne Hthis).
  - intros Hthis. by destruct (Heq Hthis).
  - intros l elems fl Hl Hc.
    assert (l ≠ b) as Hlb.
    { intros ->. destruct (decide (this = SC_Binding)) as [Hthis|Hthis].
      - destruct (Heq Hthis) as (-> & _). lia.
      - destruct (Hne Hthis) as [-> ->]. destruct Ho as (? & ? & Ho). congruence. }
    apply Hkeep; [unfold s1; rewrite write_prop_next; lia|done|].
    unfold s1, write_prop. destruct Ho0 as (props & proto & ->). simpl.
    rewrite lookup_insert_ne by done. by rewrite Hheap.
Qed.

(** [transform] on a binding that shows a pipeline which is not the value
    of [_transform] of its parent. *)
Lemma transform_appends b f s tr elems fl p :
  b ≠ SC_Binding →
  prop s b "_transforms" = VRef tr →
  heap s !! tr = Some (CArr elems fl) →
  prop s b "parentBinding" = VRef p →
  prop s p "_transform" ≠ VRef tr →
  transform b f s
  = Ret b (set_heap (<[tr := CArr (elems ++ [f]) fl]> (heap s)) s) [].
Proof.
  intros Hne Hp Hc Hpar Hnp. unfold transform.
  rewrite bool_decide_eq_false_2 by done.
  rewrite bind_mret, bind_getp, Hp. cbn [truthy].
  assert ((parent ← getp b "parentBinding";
           parentTransform ← read parent "_transform";
           if strict_eq (VRef tr) parentTransform
           then t' ← array_slice (VRef tr); setp b "_transforms" t';; mret t'
           else mret (VRef tr)) s = Ret (VRef tr) s []) as Hkeep.
  { rewrite bind_getp, Hpar. cbn [read]. rewrite bind_getp.
    unfold strict_eq. by rewrite bool_decide_eq_false_2 by congruence. }
  erewrite bind_step by exact Hkeep. rewrite prepend_nil. cbn [truthy negb].
  rewrite bind_mret. unfold mbind, M_bind, bind, array_push. by rewrite Hc.
Qed.

(** [b.transform(f1).transform(f2)...], one call for each function of
    [fs]. *)
Fixpoint transform_each (b : loc) (fs : list value) : M loc :=
  match fs with
  | [] => mret b
  | f :: fs' => b' ← transform b f; transform_each b' fs'
  end.

(** X15. Transforms added one after the other to a binding that shows a
    pipeline are appended to that array, in the order of the calls and in
    place: the binding is returned, the array holds the old functions and
    then the new ones, and no other cell of the heap changes. *)
Theorem chained_transforms_append_in_order
    (b : loc) (fs : list value) (s : State) (tr : loc) (elems : list value)
    (fl : bool) (p : loc) :
  b ≠ SC_Binding →
  prop s b "_transforms" = VRef tr →
  heap s !! tr = Some (CArr elems fl) →
  prop s b "parentBinding" = VRef p →
  prop s p "_transform" ≠ VRef tr →
  ∃ s', transform_each b fs s = Ret b s' [] ∧
    pipeline s' b = Some (elems ++ fs) ∧
    heap s' !! tr = Some (CArr (elems ++ fs) fl) ∧
    (∀ l, l ≠ tr → heap s' !! l = heap s !! l).
Proof.
  intros Hne. revert s elems.
  induction fs as [|f fs IH]; intros s elems Hp Hc Hpar Hnp.
  - exists s. rewrite app_nil_r. split_and!; try done.
    unfold pipeline. rewrite Hp. simpl. by rewrite Hc.
  - set (s1 := set_heap (<[tr := CArr (elems ++ [f]) fl]> (heap s)) s).
    assert (∀ l k, prop s1 l k = prop s l k) as Hsame.
    { intros l k. by eapply prop_push. }
    destruct (IH s1 (elems ++ [f])) as (s' & Hrun & Hpipe & Harr & Hother).
    { by rewrite Hsame. }
    { simpl. by rewrite lookup_insert_eq. }
    { by rewrite Hsame. }
    { by rewrite Hsame. }
    rewrite <- app_assoc in Hpipe, Harr. simpl in Hpipe, Harr.
    exists s'. split_and!; try done.
    + simpl. erewrite bind_step by by eapply transform_appends.
      by rewrite prepend_nil.
    + intros l Hl. rewrite Hother by done. simpl. by rewrite lookup_insert_ne.
Qed.

(** ** Derived bindings *)

Lemma prop_inherit s b k props p :
  heap s !! b = Some (CObj props (Some p)) → props !! k = None → p < b →
  prop s b k = prop s p k.
Proof.
  intros Hb Hk Hp. unfold prop. simpl. rewrite Hb, Hk.
  apply Nat.ltb_lt in Hp as Hp'. rewrite Hp'. by apply lookup_chain_fuel.
Qed.

Lemma beget_plain_cell this s :
  this < next s →
  ∃ s1, beget_plain this s = Ret (next s) s1 [] ∧
    heap s1 !! next s = Some (CObj (<["parentBinding" := VRef this]> ∅) (Some this)) ∧
    (∀ l, l < next s → heap s1 !! l = heap s !! l).
Proof.
  intros Hlt. unfold beget_plain, SC_beget.
  set (s0 := mkState (<[next s := CObj ∅ (Some this)]> (heap s)) (S (next s))
                     (globals s) (observers s) (world s)).
  assert (heap s0 !! next s = Some (CObj ∅ (Some this))) as H0.
  { simpl. by rewrite lookup_insert_eq. }
  exists (write_prop (next s) "parentBinding" (VRef this) s0). split_and!.
  - unfold mbind, M_bind, bind. simpl. fold s0.
    rewrite setp_object; [done|]. by eexists _, _.
  - unfold write_prop. rewrite H0. simpl. by rewrite lookup_insert_eq.
  - intros l Hl. unfold write_prop. rewrite H0. simpl.
    by rewrite !lookup_insert_ne by lia.
Qed.

(** X16. A binding made by [beget] holds nothing but [parentBinding]: every
    other property is read from the binding it is derived from, at the time
    of the read, so a later write to the parent shows on the instance,
    while a write to the instance never shows on the parent. *)
Theorem beget_inherits_live (this : loc) (s : State) :
  is_object s this → this < next s →
  ∃ b s1,
    beget this VUndef s = Ret b s1 [] ∧ b = next s ∧
    prop s1 b "parentBinding" = VRef this ∧
    (∀ k, k ≠ "parentBinding" → prop s1 b k = prop s this k) ∧
    (∀ l k, l < next s → prop s1 l k = prop s l k) ∧
    (∀ k v, k ≠ "parentBinding" → prop (write_prop this k v s1) b k = v) ∧
    (∀ k v, prop (write_prop b k v s1) this k = prop s this k).
Proof.
  intros Ho Hlt.
  destruct (prop_beget_plain this s Ho Hlt)
    as (s1 & Hb & Hn1 & Ho1 & Hpar & Hinh & Hold & Hheap).
  destruct (beget_plain_cell this s Hlt) as (s1' & Hb' & Hcell & _).
  rewrite Hb in Hb'. injection Hb' as <-.
  exists (next s), s1. split_and!; try done.
  - intros k v Hk.
    assert (is_object s1 this) as Hot.
    { destruct Ho as (props & proto & Ho). exists props, proto. by rewrite Hheap. }
    rewrite (prop_inherit _ (next s) k (<["parentBinding" := VRef this]> ∅) this).
    + by apply prop_write_eq.
    + unfold write_prop. destruct Hot as (props & proto & ->). simpl.
      rewrite lookup_insert_ne by lia. done.
    + rewrite lookup_insert_ne by done. apply lookup_empty.
    + done.
  - intros k v. rewrite prop_write_below by done. by apply Hold.
Qed.

(** X17. A binding derived from a connected binding reads [isConnected]
    from it, so [connect] takes it for connected: it subscribes nothing and
    changes nothing. *)
Theorem derived_from_connected_never_subscribes (this : loc) (s : State) :
  is_object s this → this < next s → connected s this = true →
  ∃ b s1,
    beget this VUndef s = Ret b s1 [] ∧
    observers s1 = observers s ∧
    connected s1 b = true ∧
    connect b s1 = Ret b s1 [].
Proof.
  intros Ho Hlt Hc.
  destruct (prop_beget_plain this s Ho Hlt)
    as (s1 & Hb & Hn1 & Ho1 & Hpar & Hinh & Hold & Hheap).
  assert (connected s1 (next s) = true) as Hc1.
  { unfold connected in *. by rewrite Hinh. }
  exists (next s), s1. split_and!; try done.
  - unfold beget_plain, SC_beget in Hb. unfold mbind, M_bind, bind in Hb.
    simpl in Hb. unfold setp in Hb. simpl in Hb.
    rewrite lookup_insert_eq in Hb. by injection Hb as <-.
  - by apply connect_connected.
Qed.

(** ** Notification *)


(** ** A flush that fails *)

(** [SC.Binding] is an object and the flag is set. *)
Definition guard_set (s : State) : Prop :=
  SC_Binding < next s ∧ is_object s SC_Binding ∧ flushing s = true.

Definition keeps_guard (s s' : State) : Prop := guard_set s → guard_set s'.

#[local] Instance keeps_guard_preorder : PreOrder keeps_guard.
Proof. split; unfold keeps_guard; [by intros s|]. intros s1 s2 s3; auto. Qed.

Lemma setp_keeps_guard l k v :
  k ≠ "_isFlushing" → respects keeps_guard (setp l k v).
Proof.
  intros Hk s (Hn & Ho & Hf). rewrite final_state_setp. split_and!.
  - by rewrite write_prop_next.
  - by apply write_prop_object.
  - unfold flushing. by rewrite prop_write_ne.
Qed.

Lemma alloc_keeps_guard c : respects keeps_guard (alloc c).
Proof.
  intros s (Hn & Ho & Hf). split_and!.
  - simpl. lia.
  - destruct Ho as (props & proto & Ho). exists props, proto. simpl.
    rewrite lookup_insert_ne; [done|]. unfold SC_Binding in *. lia.
  - unfold flushing. cbn [final_state alloc]. by rewrite prop_alloc.
Qed.

Lemma data_step_keeps_guard {A} (m : M A) : data_step m → respects keeps_guard m.
Proof.
  intros Hm s (Hn & Ho & Hf).
  destruct (Hm s) as [->|(l & c & c' & Hl & Hc & Hc' & ->)]; [done|].
  split_and!; [done| |].
  - destruct Ho as (props & proto & Ho). exists props, proto. simpl.
    rewrite lookup_insert_ne; [done|]. intros ->. rewrite Hl in Ho. by simplify_eq.
  - unfold flushing, prop, set_heap. cbn [heap].
    by erewrite lookup_chain_insert_data.
Qed.

Lemma modify_world_keeps_guard (f : World → World) :
  respects keeps_guard (modify (λ s, set_world (f (world s)) s)).
Proof. by intros s Hg. Qed.

Lemma flush_keeps_guard fuel : respects keeps_guard (flushPendingChanges fuel SC_Binding).
Proof. intros s (Hn & Ho & Hf). by rewrite flush_guarded. Qed.

#[local] Hint Resolve alloc_keeps_guard modify_world_keeps_guard
  flush_keeps_guard : respects.
#[local] Hint Extern 1 (respects keeps_guard (setp _ _ _)) =>
  apply setp_keeps_guard; done : respects.
#[local] Hint Extern 1 (respects keeps_guard (set_add _ _)) =>
  apply data_step_keeps_guard, set_add_data : respects.
#[local] Hint Extern 1 (respects keeps_guard (set_popObject _)) =>
  apply data_step_keeps_guard, set_popObject_data : respects.
#[local] Hint Extern 1 (respects keeps_guard (set_length _)) =>
  apply respects_pure; [apply _|apply set_length_pure] : respects.

Lemma fromPropertyDidChange_keeps_guard this key target :
  respects keeps_guard (fromPropertyDidChange this key target).
Proof. unfold fromPropertyDidChange. respects_steps. Qed.
#[local] Hint Resolve fromPropertyDidChange_keeps_guard : respects.

Lemma run_script_keeps_guard flush sc :
  respects keeps_guard flush → respects keeps_guard (run_script flush sc).
Proof. intros Hf. induction sc; simpl; respects_steps. Qed.
#[local] Hint Resolve run_script_keeps_guard : respects.

Lemma call_fn_keeps_guard flush f v this :
  respects keeps_guard flush → respects keeps_guard (call_fn flush f v this).
Proof.
  intros Hf s. unfold call_fn. destruct f as [| | | | |l]; try reflexivity.
  destruct (heap s !! l) as [[| | |c|]|]; try reflexivity.
  destruct c; try reflexivity.
  - revert s. change (respects keeps_guard (multiple_fn v)).
    unfold multiple_fn, new_array. respects_steps.
  - by apply run_script_keeps_guard.
Qed.
#[local] Hint Resolve call_fn_keeps_guard : respects.

Lemma setPathIfChanged_keeps_guard flush target key v :
  respects keeps_guard flush →
  respects keeps_guard (setPathIfChanged flush target key v).
Proof. intros Hf. unfold setPathIfChanged. respects_steps. Qed.
#[local] Hint Resolve setPathIfChanged_keeps_guard : respects.

Lemma _computeBindingTargets_keeps_guard this :
  respects keeps_guard (_computeBindingTargets this).
Proof. unfold _computeBindingTargets. respects_steps. Qed.
#[local] Hint Resolve _computeBindingTargets_keeps_guard : respects.

Lemma transform_loop_keeps_guard flush this ts n idx v :
  respects keeps_guard flush →
  respects keeps_guard (transform_loop flush this ts n idx v).
Proof. intros Hf. revert idx v. induction n; intros; simpl; respects_steps. Qed.
#[local] Hint Resolve transform_loop_keeps_guard : respects.

Lemma applyBindingValue_keeps_guard flush this :
  respects keeps_guard flush →
  respects keeps_guard (applyBindingValue flush this).
Proof. intros Hf. unfold applyBindingValue. respects_steps. Qed.

Lemma drain_keeps_guard apply fuel queue :
  (∀ b, respects keeps_guard (apply b)) →
  respects keeps_guard (drain apply fuel queue).
Proof. intros Ha. induction fuel; simpl; respects_steps. Qed.
#[local] Hint Resolve drain_keeps_guard : respects.

Lemma flush_loop_keeps_guard apply fuel :
  (∀ b, respects keeps_guard (apply b)) →
  respects keeps_guard (flush_loop apply fuel SC_Binding).
Proof. intros Ha. induction fuel; simpl; respects_steps. Qed.

(** X19. [flushPendingChanges] resets the flag only on the way out of the
    loop: when an application throws, the error leaves the flush with the
    flag set, and from then on every call of [flushPendingChanges] returns
    at once without applying anything. *)
Theorem failed_flush_leaves_guard_set
    (fuel : nat) (s : State) (e : error) (s' : State) (t : list event) :
  is_object s SC_Binding → SC_Binding < next s →
  e ≠ OutOfFuel →
  flushPendingChanges fuel SC_Binding s = Throw e s' t →
  flushing s = false ∧ flushing s' = true ∧
  (∃ t', t = EFlushBegin :: t') ∧
  ∀ fuel', flushPendingChanges fuel' SC_Binding s' = Ret VUndef s' [].
Proof.
  intros Ho Hlt He Hrun.
  destruct (flushing s) eqn:Hf.
  { by rewrite flush_guarded in Hrun. }
  unfold flushing in Hf.
  destruct fuel as [|n].
  { simpl in Hrun. rewrite bind_getp, Hf in Hrun. by injection Hrun as <-. }
  simpl in Hrun. rewrite bind_getp, Hf in Hrun.
  rewrite bind_setp in Hrun by done.
  set (s1 := write_prop SC_Binding "_isFlushing" YES s) in Hrun.
  assert (guard_set s1) as Hg1.
  { split_and!.
    - unfold s1. by rewrite write_prop_next.
    - by apply write_prop_object.
    - unfold flushing, s1. by rewrite prop_write_eq. }
  erewrite bind_step in Hrun by reflexivity.
  pose proof (flush_loop_keeps_guard
    (applyBindingValue (flushPendingChanges n SC_Binding)) n
    (λ b, applyBindingValue_keeps_guard _ b (flush_keeps_guard n)) s1 Hg1) as Hg2.
  unfold mbind at 1 in Hrun. unfold M_bind, bind in Hrun.
  destruct (flush_loop _ n SC_Binding s1) as [[] s2 t2|e2 s2 t2];
    cbn [final_state] in Hg2.
  - destruct Hg2 as (_ & Ho2 & _).
    rewrite bind_setp in Hrun by done. by simpl in Hrun.
  - simpl in Hrun. injection Hrun as -> -> <-.
    destruct Hg2 as (_ & _ & Hf2). split_and!; [done|done|by eexists|].
    intros fuel'. by apply flush_guarded.
Qed.

(** ** Connecting and disconnecting *)

Lemma remove_first_cons r l : r ∈ l → r :: remove_first r l ≡ₚ l.
Proof.
  induction l as [|x l IH]; intros Hin; [by apply elem_of_nil in Hin|].
  simpl. case_bool_decide as Hx; [by subst|].
  apply elem_of_cons in Hin as [->|Hin]; [done|].
  rewrite Permutation_swap. by rewrite IH.
Qed.

Lemma remove_first_app_notin r l l' :
  r ∉ l → remove_first r (l ++ r :: l') = l ++ l'.
Proof.
  induction l as [|x l IH]; intros Hin; simpl.
  - by rewrite bool_decide_eq_true_2.
  - apply not_elem_of_cons in Hin as [Hx Hin].
    rewrite bool_decide_eq_false_2 by done. by rewrite IH.
Qed.

Fixpoint remove_all (rs : list registration) (l : list registration) : list registration :=
  match rs with
  | [] => l
  | r :: rs' => remove_all rs' (remove_first r l)
  end.

Lemma remove_first_notin r l : r ∉ l → remove_first r l = l.
Proof.
  induction l as [|x l IH]; intros Hl; [done|]. simpl.
  apply not_elem_of_cons in Hl as [Hx Hl].
  rewrite bool_decide_eq_false_2 by done. by rewrite IH.
Qed.

Lemma remove_first_perm r l1 l2 :
  l1 ≡ₚ l2 → remove_first r l1 ≡ₚ remove_first r l2.
Proof.
  intros Hp. destruct (decide (r ∈ l1)) as [Hin|Hin].
  - apply (Permutation_cons_inv (a := r)).
    rewrite !remove_first_cons; [done|by rewrite <- Hp|done].
  - rewrite !remove_first_notin; [done|by rewrite <- Hp|done].
Qed.

Lemma remove_all_perm rs l1 l2 : l1 ≡ₚ l2 → remove_all rs l1 ≡ₚ remove_all rs l2.
Proof.
  revert l1 l2. induction rs as [|r rs IH]; intros l1 l2 Hp; simpl; [done|].
  by apply IH, remove_first_perm.
Qed.

Lemma remove_all_app l rs : remove_all rs (l ++ rs) ≡ₚ l.
Proof.
  revert l. induction rs as [|r rs IH]; intros l; simpl; [by rewrite app_nil_r|].
  rewrite <- (IH l) at 2. apply remove_all_perm.
  apply (Permutation_cons_inv (a := r)).
  rewrite remove_first_cons by (apply elem_of_app; right; left).
  by rewrite Permutation_middle.
Qed.

Lemma remove_all_app_notin l rs :
  (∀ r, r ∈ rs → r ∉ l) → remove_all rs (l ++ rs) = l.
Proof.
  revert l. induction rs as [|r rs IH]; intros l Hrs; simpl; [by rewrite app_nil_r|].
  rewrite remove_first_app_notin by (apply Hrs; left). apply IH.
  intros r' Hr'. apply Hrs. by right.
Qed.

(** What [disconnect] does to a connected binding. *)
Lemma disconnect_connected b s :
  is_object s b → connected s b = true →
  disconnect b s =
    Ret b (write_prop b "isConnected" NO
             (set_observers (remove_all (subscriptions s b) (observers s)) s)) [].
Proof.
  intros Hb Hc. unfold disconnect, connected in *.
  unfold mbind, M_bind, bind, removeObserver. simpl. rewrite Hc. simpl.
  rewrite !prop_set_observers. unfold subscriptions.
  destruct (truthy (prop s b "_oneWay")); simpl.
  - by rewrite setp_object by done.
  - rewrite !prop_set_observers. by rewrite setp_object by done.
Qed.

(** X20. [connect] and then [disconnect] on a binding that was not
    connected: both return the binding, the binding ends up not connected,
    the registry holds the subscriptions it held before (the very list, if
    none of them was equal to one of the binding), and apart from
    [isConnected] no property of any object has changed. *)
Theorem connect_then_disconnect_restores (b : loc) (s : State) :
  is_object s b → connected s b = false →
  ∃ s1 s2,
    connect b s = Ret b s1 [] ∧ disconnect b s1 = Ret b s2 [] ∧
    connected s1 b = true ∧ connected s2 b = false ∧
    observers s1 = observers s ++ subscriptions s b ∧
    observers s2 ≡ₚ observers s ∧
    ((∀ r, r ∈ subscriptions s b → r ∉ observers s) → observers s2 = observers s) ∧
    (∀ l k, k ≠ "isConnected" → prop s2 l k = prop s l k).
Proof.
  intros Ho Hc.
  set (s1 := write_prop b "isConnected" YES
               (set_observers (observers s ++ subscriptions s b) s)).
  assert (is_object s1 b) as Ho1 by by apply write_prop_object.
  assert (connected s1 b = true) as Hc1.
  { unfold connected, s1. by rewrite prop_write_eq. }
  assert (observers s1 = observers s ++ subscriptions s b) as Hobs1.
  { unfold s1, write_prop. by repeat case_match. }
  assert (∀ l k, k ≠ "isConnected" → prop s1 l k = prop s l k) as Hsame.
  { intros l k Hk. unfold s1. by rewrite prop_write_ne. }
  assert (subscriptions s1 b = subscriptions s b) as Hsub.
  { unfold subscriptions. by rewrite !Hsame. }
  set (s2 := write_prop b "isConnected" NO
               (set_observers (remove_all (subscriptions s1 b) (observers s1)) s1)).
  assert (observers s2 = remove_all (subscriptions s b) (observers s ++ subscriptions s b))
    as Hobs2.
  { unfold s2, write_prop. rewrite Hsub, Hobs1. by repeat case_match. }
  exists s1, s2. split_and!; try done.
  - by apply connect_unconnected.
  - by apply disconnect_connected.
  - unfold connected, s2. by rewrite prop_write_eq.
  - rewrite Hobs2. apply remove_all_app.
  - intros Hnew. rewrite Hobs2. by apply remove_all_app_notin.
  - intros l k Hk. unfold s2. rewrite prop_write_ne by done.
    rewrite prop_set_observers. by apply Hsame.
Qed.

(** ** What configuring a binding leaves alone *)

(** Whatever [m] does and however it ends, it emits no event and leaves
    the members of every set, the two queue properties and the flag of
    [SC.Binding] as they were. *)
Definition leaves_queues {A} (m : M A) : Prop :=
  ∀ s, queue_frame s (final_state (m s)) ∧ trace_of (m s) = [].

Lemma queue_frame_trans s1 s2 s3 :
  queue_frame s1 s2 → queue_frame s2 s3 → queue_frame s1 s3.
Proof.
  intros (Hn1 & Hs1 & Hp1) (Hn2 & Hs2 & Hp2). split_and!; [lia| |].
  - intros q ms Hq Hms. apply Hs2; [lia|]. by apply Hs1.
  - intros H0. destruct (Hp1 H0) as (Ho1 & Ha1 & Hb1 & Hc1).
    destruct Hp2 as (Ho2 & Ha2 & Hb2 & Hc2); [lia|].
    split_and!; [auto|congruence..].
Qed.

Lemma leaves_queues_bind {A B} (m : M A) (f : A → M B) :
  leaves_queues m → (∀ a, leaves_queues (f a)) → leaves_queues (m ≫= f).
Proof.
  intros Hm Hf s. unfold mbind, M_bind, bind.
  destruct (Hm s) as [Hq Ht]. destruct (m s) as [a s1 t1|e s1 t1]; simpl in *; [|done].
  destruct (Hf a s1) as [Hq' Ht']. destruct (f a s1); simpl in *; subst;
    (split; [by eapply queue_frame_trans|done]).
Qed.

Lemma leaves_queues_pure {A} (m : M A) :
  (∀ s, final_state (m s) = s ∧ trace_of (m s) = []) → leaves_queues m.
Proof. intros Hm s. destruct (Hm s) as [-> ->]. split; [apply queue_frame_refl|done]. Qed.

Lemma leaves_queues_read v k : leaves_queues (read v k).
Proof. apply leaves_queues_pure. intros s. by destruct v. Qed.

Lemma leaves_queues_setp l k v : ¬ queue_key k → leaves_queues (setp l k v).
Proof. intros Hk s. split; [by apply setp_queue_frame|apply trace_of_setp]. Qed.

Lemma leaves_queues_alloc c : leaves_queues (alloc c).
Proof. intros s. split; [apply alloc_queue_frame|done]. Qed.

Lemma leaves_queues_global_setp x k v : ¬ queue_key k → leaves_queues (global_setp x k v).
Proof.
  intros Hk s. unfold global_setp.
  destruct (globals s !! x) as [[| | | | |l]|];
    try (split; [apply queue_frame_refl|done]).
  by apply leaves_queues_setp.
Qed.

Lemma leaves_queues_observers (f : list registration → list registration) :
  leaves_queues (modify (λ s, set_observers (f (observers s)) s)).
Proof. intros s. by split; [split_and!|]. Qed.

(** Decomposes a computation into its steps. *)
Ltac quiet_steps :=
  repeat first
    [ lazymatch goal with
      | |- leaves_queues (_ ≫= _) => simple apply @leaves_queues_bind; [|intros ?]
      | |- leaves_queues (mret _) => by apply leaves_queues_pure
      | |- leaves_queues (getp _ _) => by apply leaves_queues_pure
      | |- leaves_queues (gets _) => by apply leaves_queues_pure
      | |- leaves_queues (read _ _) => apply leaves_queues_read
      | |- leaves_queues (alloc _) => apply leaves_queues_alloc
      | |- leaves_queues (array_push _ _) => intros ?; apply array_push_queue_frame
      | |- leaves_queues (array_slice _) => intros ?; apply array_slice_queue_frame
      | |- leaves_queues (setp _ _ _) =>
          apply leaves_queues_setp; by intros [?|[?|?]]
      | |- leaves_queues (global_setp _ _ _) =>
          apply leaves_queues_global_setp; by intros [?|[?|?]]
      | |- leaves_queues (addObserver _ _ _ _) =>
          apply (leaves_queues_observers (λ o, o ++ [_]))
      | |- leaves_queues (removeObserver _ _ _ _) =>
          apply (leaves_queues_observers (remove_first _))
      | |- leaves_queues (match _ with _ => _ end) => case_match
      | |- leaves_queues (let '(_, _) := ?p in _) => destruct p
      end
    | solve [auto] ].

Lemma leaves_queues_beget_plain this : leaves_queues (beget_plain this).
Proof. unfold beget_plain, SC_beget. quiet_steps. Qed.

Lemma leaves_queues_from this p r : leaves_queues (from this p r).
Proof. pose proof leaves_queues_beget_plain. unfold from. quiet_steps. Qed.

Lemma leaves_queues_transform this f : leaves_queues (transform this f).
Proof.
  pose proof leaves_queues_beget_plain. unfold transform, new_array. quiet_steps.
Qed.

Lemma leaves_queues_helper this p c :
  leaves_queues (binding ← from this p VUndef; f ← closure c; transform binding f).
Proof.
  pose proof leaves_queues_from. pose proof leaves_queues_transform.
  unfold closure. quiet_steps.
Qed.

(** X21. The methods that derive, configure, connect and disconnect a
    binding never schedule anything: however one of them ends, it has
    emitted no event, and the members of every existing set, the two queue
    properties of [SC.Binding] and its flushing flag are as they were. *)
Theorem configuration_leaves_queues
    (this : loc) (p r a f ph : value) :
  leaves_queues (beget this p) ∧
  leaves_queues (from this p r) ∧
  leaves_queues (to this p r) ∧
  leaves_queues (connect this) ∧
  leaves_queues (disconnect this) ∧
  leaves_queues (oneWay this p a) ∧
  leaves_queues (transform this f) ∧
  leaves_queues (resetTransforms this) ∧
  leaves_queues (noError this p a) ∧
  leaves_queues (single this p ph) ∧
  leaves_queues (notEmpty this p ph) ∧
  leaves_queues (notNull this p ph) ∧
  leaves_queues (multiple this p) ∧
  leaves_queues (bool_ this p) ∧
  leaves_queues (not_ this p) ∧
  leaves_queues (isNull this p) ∧
  leaves_queues (_computeBindingTargets this).
Proof.
  pose proof leaves_queues_beget_plain.
  pose proof leaves_queues_from.
  pose proof leaves_queues_transform.
  split_and!.
  - unfold beget, SC_beget. quiet_steps.
  - done.
  - unfold to. quiet_steps.
  - unfold connect. quiet_steps.
  - unfold disconnect. quiet_steps.
  - unfold oneWay. quiet_steps.
  - done.
  - unfold resetTransforms. quiet_steps.
  - unfold noError. quiet_steps.
  - apply leaves_queues_helper.
  - apply leaves_queues_helper.
  - apply leaves_queues_helper.
  - apply leaves_queues_helper.
  - apply leaves_queues_helper.
  - apply leaves_queues_helper.
  - apply leaves_queues_helper.
  - unfold _computeBindingTargets. quiet_steps.
Qed.

(** ** From a notification to the write *)

(** The cells the built-in transforms look at: arrays, functions and error
    objects. *)
Definition data_of (h : gmap loc cell) (l : loc) : option cell :=
  match h !! l with
  | Some (CObj _ _) | Some (CSet _) | None => None
  | Some c => Some c
  end.

Definition same_data (h h' : gmap loc cell) : Prop := ∀ l, data_of h' l = data_of h l.





(** The properties the engine writes. *)
Definition engine_key (k : string) : Prop :=
  k = "_bindingValue" ∨ queue_key k.

(** [s'] is [s] up to the properties the engine writes and the members of
    the sets. *)
Definition engine_view (s s' : State) : Prop :=
  world s' = world s ∧
  same_data (heap s) (heap s') ∧
  (∀ l k, ¬ engine_key k → prop s' l k = prop s l k) ∧
  (∀ l, is_object s l → is_object s' l).

Lemma engine_view_refl s : engine_view s s.
Proof. by split_and!. Qed.


Lemma write_prop_world l k v s : world (write_prop l k v s) = world s.
Proof. unfold write_prop. by repeat case_match. Qed.










(** *** One pending binding *)


Lemma prepend_Ret {A} t (a : A) s t' : prepend t (Ret a s t') = Ret a s (t ++ t').
Proof. done. Qed.





(** ** Resolving the endpoints *)

(** X23. [_computeBindingTargets] on a binding with no target yet, both of
    whose paths resolve: the two tuples are stored as target and key of
    each side.  If both targets are truthy, the endpoints are then fixed:
    in whatever world it is called again, it looks nothing up and changes
    nothing. *)
Theorem targets_are_resolved_once
    (b : loc) (s : State) (tf kf tt kt : value) :
  is_object s b →
  truthy (prop s b "_fromTarget") = false →
  truthy (prop s b "_toTarget") = false →
  tupleForPropertyPath (world s) (prop s b "_fromPropertyPath")
    (prop s b "_fromRoot") = Some (tf, kf) →
  tupleForPropertyPath (world s) (prop s b "_toPropertyPath")
    (prop s b "_toRoot") = Some (tt, kt) →
  ∃ s1,
    _computeBindingTargets b s = Ret () s1 [] ∧
    prop s1 b "_fromTarget" = tf ∧ prop s1 b "_fromPropertyKey" = kf ∧
    prop s1 b "_toTarget" = tt ∧ prop s1 b "_toPropertyKey" = kt ∧
    (∀ l k, k ≠ "_fromTarget" → k ≠ "_fromPropertyKey" →
            k ≠ "_toTarget" → k ≠ "_toPropertyKey" → prop s1 l k = prop s l k) ∧
    (truthy tf = true → truthy tt = true →
     ∀ w, _computeBindingTargets b (set_world w s1) = Ret () (set_world w s1) []).
Proof.
  intros Ho Hfrom Hto Hrf Hrt.
  set (s1 := write_prop b "_fromTarget" tf s).
  set (s2 := write_prop b "_fromPropertyKey" kf s1).
  set (s3 := write_prop b "_toTarget" tt s2).
  set (s4 := write_prop b "_toPropertyKey" kt s3).
  assert (is_object s1 b) as Ho1 by by apply write_prop_object.
  assert (is_object s2 b) as Ho2 by by apply write_prop_object.
  assert (is_object s3 b) as Ho3 by by apply write_prop_object.
  assert (world s2 = world s) as Hw2.
  { unfold s2, s1. by rewrite !write_prop_world. }
  assert (∀ k, k ≠ "_fromTarget" → k ≠ "_fromPropertyKey" →
               prop s2 b k = prop s b k) as Hs2.
  { intros k H1 H2. unfold s2, s1. by rewrite !prop_write_ne. }
  assert (prop s4 b "_fromTarget" = tf) as H1.
  { unfold s4, s3, s2. rewrite !prop_write_ne by done. by apply prop_write_eq. }
  assert (prop s4 b "_toTarget" = tt) as H3.
  { unfold s4. rewrite !prop_write_ne by done. by apply prop_write_eq. }
  exists s4. split_and!; try done.
  - unfold _computeBindingTargets. rewrite bind_getp, Hfrom. cbn [negb].
    assert ((path ← getp b "_fromPropertyPath"; root ← getp b "_fromRoot";
             tuple ← gets (λ s0 : State, tupleForPropertyPath (world s0) path root);
             match tuple with
             | Some (target, key) =>
                 setp b "_fromTarget" target;; setp b "_fromPropertyKey" key
             | None => mret ()
             end) s = Ret () s2 []) as Hf1.
    { rewrite !bind_getp, bind_gets, Hrf. rewrite bind_setp by done.
      by apply setp_object. }
    erewrite bind_step by exact Hf1.
    rewrite prepend_nil, bind_getp, Hs2, Hto by done. cbn [negb].
    rewrite !bind_getp, bind_gets, Hw2, !Hs2, Hrt by done.
    rewrite bind_setp by done. by apply setp_object.
  - unfold s4, s3. rewrite !prop_write_ne by done. by apply prop_write_eq.
  - unfold s4. by apply prop_write_eq, write_prop_object.
  - intros l k Hk1 Hk2 Hk3 Hk4. unfold s4, s3, s2, s1. by rewrite !prop_write_ne.
  - intros Htf Htt w. apply computeBindingTargets_resolved.
    + change (truthy (prop s4 b "_fromTarget") = true). by rewrite H1.
    + change (truthy (prop s4 b "_toTarget") = true). by rewrite H3.
Qed.

(** ** The function [builder] returns *)

(** [builder] returns the function
    [function(fromProperty) { return binding.beget().from(fromProperty); }],
    [binding] being the receiver of [builder]; this is a call of that
    function. *)
Definition builder_call (binding : loc) (fromProperty : value) : M loc :=
  ret ← beget binding VUndef;
  from ret fromProperty VUndef.

(** X24. A call of the function [builder] returns: with a falsy argument
    it returns a new instance derived from the binding [builder] was called
    on, which reads every property but [parentBinding] from that binding;
    with a truthy argument, and [bidning] bound nowhere, it does not
    return. *)
Theorem builder_call_derives_or_throws
    (binding : loc) (fromProperty : value) (s : State) :
  is_object s binding → binding < next s →
  (truthy fromProperty = false →
     ∃ s1, builder_call binding fromProperty s = Ret (next s) s1 [] ∧
       prop s1 (next s) "parentBinding" = VRef binding ∧
       (∀ k, k ≠ "parentBinding" → prop s1 (next s) k = prop s binding k) ∧
       (∀ l k, l < next s → prop s1 l k = prop s l k)) ∧
  (truthy fromProperty = true → globals s !! "bidning" = None →
     never_returns (builder_call binding fromProperty) s).
Proof.
  intros Ho Hlt.
  destruct (prop_beget_plain binding s Ho Hlt)
    as (s1 & Hb & Hn1 & Ho1 & Hpar & Hinh & Hold & Hheap).
  assert (beget binding VUndef s = Ret (next s) s1 []) as Hbeget by exact Hb.
  split.
  - intros Hp. exists s1. split_and!; try done.
    unfold builder_call. erewrite bind_step by exact Hbeget.
    rewrite prepend_nil. by apply from_without_path.
  - intros Hp Hg. unfold builder_call. apply never_returns_bind.
    intros b s2 t2 Hb2. rewrite Hbeget in Hb2. injection Hb2 as <- <- <-.
    apply from_never_returns; [done|].
    by rewrite (beget_plain_globals _ _ _ _ _ Hb).
Qed.

End Properties.

(** * A concrete host and concrete runs *)

(** The world is a counter: every property reads as the counter, a write
    to a target increments it, every path with a root resolves to the root
    and the path itself, and the user function number [n] notifies the
    binding at location [n] (above 1000 it asks for a flush instead). *)
Definition demo_host : Host := {|
  World := Z;
  tupleForPropertyPath := λ _ path root,
    if truthy root then Some (root, path) else None;
  target_get := λ w _ _, VNum w;
  target_setPathIfChanged := λ _ _ _ _, Touch (λ w, (w + 1)%Z) (Done VUndef);
  user_fn := λ n _ v _,
    if 1000 <? n then Flush (Done v)
    else Notify n (VStr "value") (VStr "source") (Done v) |}.

#[local] Existing Instance demo_host.

Definition demo_start : @State demo_host := @initial_state demo_host 0%Z.

Definition demo_single : @outcome demo_host loc :=
  Eval vm_compute in single SC_Binding VUndef VUndef demo_start.

Lemma single_installs_single_transform_witness :
  ∃ (tr : loc) (elems : list value) (flag : bool) (f : loc),
    prop (final_state demo_single) 25 "_transforms" = VRef tr ∧
    heap (final_state demo_single) !! tr = Some (CArr (elems ++ [VRef f]) flag) ∧
    heap (final_state demo_single) !! f = Some (CFun (SingleFn MULTIPLE_PLACEHOLDER)) ∧
    ∀ (flush : M value) (receiver : loc) (s1 : State),
      heap s1 !! f = Some (CFun (SingleFn MULTIPLE_PLACEHOLDER)) →
      (∀ l fl, heap s1 !! l = Some (CArr [] fl) →
         call_fn flush (VRef f) (VRef l) receiver s1 = Ret VNull s1 []) ∧
      (∀ l fl x, heap s1 !! l = Some (CArr [x] fl) →
         call_fn flush (VRef f) (VRef l) receiver s1 = Ret x s1 []) ∧
      (∀ l fl x y rest, heap s1 !! l = Some (CArr (x :: y :: rest) fl) →
         call_fn flush (VRef f) (VRef l) receiver s1 = Ret MULTIPLE_PLACEHOLDER s1 []) ∧
      (∀ v, isArray (heap s1) v = false →
         call_fn flush (VRef f) v receiver s1 = Ret v s1 []).
Proof.
  apply (single_installs_single_transform SC_Binding VUndef demo_start 25 _ []).
  vm_compute. reflexivity.
Defined.

(** A binding derived from [SC.Binding] with a to-path. *)
Definition demo_to : @State demo_host :=
  Eval vm_compute in final_state (to SC_Binding (VStr "B.q") VUndef demo_start).

Lemma from_with_path_throws_witness :
  (∃ e s' t, from 24 (VStr "A.p") VUndef demo_to = Throw e s' t) ∧
  (24 ≠ SC_Binding → is_object demo_to 24 →
     ∃ s', from 24 (VStr "A.p") VUndef demo_to
           = Throw (ReferenceError "bidning") s' [] ∧
           prop s' 24 "_fromPropertyPath" = VStr "A.p" ∧
           prop s' 24 "_fromTuple" = prop demo_to 24 "_fromTuple").
Proof.
  apply (from_with_path_throws 24 (VStr "A.p") VUndef demo_to); reflexivity.
Defined.

(** A one-way binding derived from [SC.Binding] with a from-path ([from] has
    set it by the time it throws) and no to-path. *)
Definition demo_pathless : @State demo_host :=
  Eval vm_compute in
    final_state (from 24 (VStr "A.p") VUndef
      (final_state (oneWay SC_Binding VUndef VUndef demo_start))).

Lemma connect_never_throws_witness :
  ∃ s', connect 24 demo_pathless = Ret 24 s' [] ∧ connected s' 24 = true ∧
        (connected demo_pathless 24 = false →
         observers s' = observers demo_pathless ++ subscriptions demo_pathless 24).
Proof.
  apply (connect_never_throws 24 demo_pathless).
  eexists _, _. vm_compute. reflexivity.
Defined.

(** The subscriptions of that binding: one, for the from-path, with an
    undefined handler. *)
Example demo_pathless_subscriptions :
  prop demo_pathless 24 "_toPropertyPath" = VUndef ∧
  subscriptions demo_pathless 24
  = [Registration (VStr "A.p") VUndef (VRef 24) VUndef].
Proof. split; vm_compute; reflexivity. Qed.

Lemma connect_disconnect_idempotent_witness :
  (connected demo_pathless 24 = true → connect 24 demo_pathless = Ret 24 demo_pathless []) ∧
  (connected demo_pathless 24 = false →
     disconnect 24 demo_pathless = Ret 24 demo_pathless []) ∧
  (∀ (o : operation) (this : loc),
     (connected demo_pathless 24 = false →
      connected (state_after o this demo_pathless) 24 = true → o = OpConnect) ∧
     (connected demo_pathless 24 = true →
      connected (state_after o this demo_pathless) 24 = false → o = OpDisconnect)).
Proof.
  apply (connect_disconnect_idempotent 24 demo_pathless). vm_compute. lia.
Defined.

(** Two bindings: the pipeline of the first holds a function that notifies
    the second and a function that asks for a flush. *)
Definition demo_setup : M (loc * loc) :=
  a ← to SC_Binding (VStr "a") (VStr "TargetA");
  b ← to SC_Binding (VStr "b") (VStr "TargetB");
  f ← closure (UserFn b);
  transform a f;;
  g ← closure (UserFn 1001);
  transform a g;;
  mret (a, b).

Definition demo_bindings : @State demo_host :=
  Eval vm_compute in final_state (demo_setup demo_start).

(** The first binding is notified twice, the world changing in between. *)
Definition demo_notifications : script (@World demo_host) :=
  Notify 24 (VStr "value") (VStr "source")
    (Touch (λ w, (w + 1)%Z)
       (Notify 24 (VStr "value") (VStr "source") (Done VUndef))).

Definition demo_pending : @State demo_host :=
  Eval vm_compute in
    final_state (run_script (mret VUndef) demo_notifications demo_bindings).

Definition demo_flush : @outcome demo_host value :=
  Eval vm_compute in flushPendingChanges 10 SC_Binding demo_pending.

(** Decides a closed proposition by evaluation. *)
Ltac by_evaluation :=
  lazymatch goal with
  | |- ?P => apply (bool_decide_unpack P); vm_compute; exact I
  end.

(** Checks the layout of the queues in a concrete state. *)
Ltac check_binding_set :=
  split; [vm_compute; lia|];
  eexists; split_and!;
    [vm_compute; reflexivity
    |by_evaluation
    |repeat constructor].

Ltac check_queues :=
  unfold queues_at; split_and!;
    [eexists _, _; vm_compute; reflexivity
    |vm_compute; lia
    |vm_compute; reflexivity
    |vm_compute; reflexivity
    |done
    |check_binding_set
    |check_binding_set].

Ltac check_quiescent :=
  exists 1, 2; split_and!; [check_queues|vm_compute; reflexivity..].

Lemma enqueued_twice_applied_once_witness :
  times_applied 24 (trace_of demo_flush) = 1.
Proof.
  apply (@enqueued_twice_applied_once demo_host (mret VUndef) demo_notifications
           demo_bindings VUndef demo_pending [EEnqueue 24; EEnqueue 24] 24
           10 (VRef SC_Binding) (final_state demo_flush)).
  - check_quiescent.
  - exact I.
  - vm_compute. reflexivity.
  - vm_compute. lia.
  - vm_compute. reflexivity.
  - by_evaluation.
Defined.

(** The state in the middle of a flush: the flag is set and the first
    binding is pending. *)
Definition demo_flagged : @State demo_host :=
  Eval vm_compute in write_prop SC_Binding "_isFlushing" YES demo_pending.

Lemma nested_flush_returns_immediately_witness :
  flushPendingChanges 10 SC_Binding demo_flagged = Ret VUndef demo_flagged [] ∧
  (∃ t', trace_of demo_flush = EFlushBegin :: t' ++ [EFlushEnd] ∧
         (EFlushBegin ∉ t') ∧ (EFlushEnd ∉ t')) ∧
  (∀ pre b post, trace_of demo_flush = pre ++ EEnqueue b :: post → EApply b ∈ post).
Proof.
  split.
  - apply (nested_flush_returns_immediately 10 SC_Binding demo_flagged).
    vm_compute. reflexivity.
  - apply (proj2 (nested_flush_returns_immediately 10 SC_Binding demo_pending)
             (VRef SC_Binding) (final_state demo_flush) (trace_of demo_flush)).
    + check_quiescent.
    + vm_compute. reflexivity.
Defined.

Lemma flush_drains_to_fixed_point_witness :
  (∀ pre b post, trace_of demo_flush = pre ++ EEnqueue b :: post → EApply b ∈ post) ∧
  (∀ b, VRef b ∈ active demo_pending → EApply b ∈ trace_of demo_flush) ∧
  active (final_state demo_flush) = [] ∧
  alternate (final_state demo_flush) = [] ∧
  flushing (final_state demo_flush) = false ∧
  flush_marks (trace_of demo_flush) = [EFlushBegin; EFlushEnd].
Proof.
  apply (flush_drains_to_fixed_point 10 demo_pending (VRef SC_Binding)).
  - check_quiescent.
  - vm_compute. reflexivity.
Defined.

(** A two-way binding with both endpoints, a pipeline and a pending value. *)
Definition demo_two_way_setup : M unit :=
  a ← to SC_Binding (VStr "q") (VStr "TargetB");
  setp a "_fromPropertyPath" (VStr "p");;
  setp a "_fromRoot" (VStr "TargetA");;
  f ← closure (NotNullFn EMPTY_PLACEHOLDER);
  transform a f;;
  g ← closure (UserFn 1001);
  transform a g;;
  fromPropertyDidChange a (VStr "p") (VStr "TargetA").

Definition demo_two_way : @State demo_host :=
  Eval vm_compute in final_state (demo_two_way_setup demo_start).

Definition demo_apply : @outcome demo_host unit :=
  Eval vm_compute in
    applyBindingValue (flushPendingChanges 10 SC_Binding) 24 demo_two_way.

Lemma applyBindingValue_order_witness :
  ∃ (s1 s2 : State) (vn : value) (s3 : State) (t1 t2 t3 : list event),
    _computeBindingTargets 24 demo_two_way = Ret () s1 [] ∧
    echo_step (flushPendingChanges 10 SC_Binding) 24 (prop s1 24 "_bindingValue") s1 s2 t1 ∧
    pipeline_step (flushPendingChanges 10 SC_Binding) 24 (prop s1 24 "_bindingValue")
      s2 vn s3 t2 ∧
    deliver_step (flushPendingChanges 10 SC_Binding) 24 (suppressed s3 24 vn) s3
      (final_state demo_apply) t3 ∧
    trace_of demo_apply = t1 ++ t2 ++ t3.
Proof.
  apply (proj1 (applyBindingValue_order (flushPendingChanges 10 SC_Binding) 24
                  demo_two_way (final_state demo_apply) (trace_of demo_apply))).
  vm_compute. reflexivity.
Defined.

(** A template with one transform in its pipeline. *)
Definition demo_template : @State demo_host :=
  Eval vm_compute in
    final_state ((f ← closure (UserFn 0); transform SC_Binding f) demo_start).

Lemma derived_transform_mutates_template_witness :
  ∃ derived s1 s2,
    beget 25 VUndef demo_template = Ret derived s1 [] ∧
    transform derived (VStr "g") s1 = Ret derived s2 [] ∧
    pipeline demo_template 25 = Some [VRef 24] ∧
    pipeline s1 25 = Some [VRef 24] ∧
    pipeline s2 25 = Some ([VRef 24] ++ [VStr "g"]).
Proof.
  apply (derived_transform_mutates_template 25 (VStr "g") demo_template 26
           [VRef 24] true).
  - eexists _, _. vm_compute. reflexivity.
  - vm_compute. lia.
  - vm_compute. lia.
  - vm_compute. reflexivity.
  - vm_compute. reflexivity.
  - vm_compute. discriminate.
Defined.

(** ** Concrete runs for the rest of the code *)

Definition demo_notEmpty : @outcome demo_host loc :=
  Eval vm_compute in notEmpty SC_Binding VUndef VUndef demo_start.

Lemma notEmpty_installs_transform_witness :
  ∃ f, installed_last (final_state demo_notEmpty) 25 (NotEmptyFn EMPTY_PLACEHOLDER) f ∧
    ∀ (flush : M value) (receiver : loc) (s1 : State) (v : value),
      heap s1 !! f = Some (CFun (NotEmptyFn EMPTY_PLACEHOLDER)) →
      (is_empty_value (heap s1) v →
         call_fn flush (VRef f) v receiver s1 = Ret EMPTY_PLACEHOLDER s1 []) ∧
      (¬ is_empty_value (heap s1) v →
         call_fn flush (VRef f) v receiver s1 = Ret v s1 []).
Proof.
  apply (notEmpty_installs_transform SC_Binding VUndef VUndef demo_start 25 _ []).
  vm_compute. reflexivity.
Defined.

Definition demo_notNull : @outcome demo_host loc :=
  Eval vm_compute in notNull SC_Binding VUndef (VNum 0) demo_start.

Lemma notNull_installs_transform_witness :
  ∃ f, installed_last (final_state demo_notNull) 25 (NotNullFn (VNum 0)) f ∧
    ∀ (flush : M value) (receiver : loc) (s1 : State) (v : value),
      heap s1 !! f = Some (CFun (NotNullFn (VNum 0))) →
      (v = VNull ∨ v = VUndef →
         call_fn flush (VRef f) v receiver s1 = Ret (VNum 0) s1 []) ∧
      (v ≠ VNull → v ≠ VUndef →
         call_fn flush (VRef f) v receiver s1 = Ret v s1 []).
Proof.
  apply (notNull_installs_transform SC_Binding VUndef (VNum 0) demo_start 25 _ []).
  vm_compute. reflexivity.
Defined.

Definition demo_bool : @outcome demo_host loc :=
  Eval vm_compute in bool_ SC_Binding VUndef demo_start.

Lemma bool_installs_transform_witness :
  ∃ f, installed_last (final_state demo_bool) 25 BoolFn f ∧
    ∀ (flush : M value) (receiver : loc) (s1 : State) (v : value),
      heap s1 !! f = Some (CFun BoolFn) →
      (type_of (heap s1) v = T_ERROR →
         call_fn flush (VRef f) v receiver s1 = Ret v s1 []) ∧
      (∀ l elems fl, v = VRef l → heap s1 !! l = Some (CArr elems fl) →
         call_fn flush (VRef f) v receiver s1
         = Ret (VBool (bool_decide (elems ≠ []))) s1 []) ∧
      (type_of (heap s1) v ≠ T_ERROR → type_of (heap s1) v ≠ T_ARRAY →
         call_fn flush (VRef f) v receiver s1 = Ret (VBool (truthy v)) s1 []).
Proof.
  apply (bool_installs_transform SC_Binding VUndef demo_start 25 _ []).
  vm_compute. reflexivity.
Defined.

Definition demo_not : @outcome demo_host loc :=
  Eval vm_compute in not_ SC_Binding VUndef demo_start.

Lemma not_installs_transform_witness :
  ∃ f, installed_last (final_state demo_not) 25 NotFn f ∧
    ∀ (flush : M value) (receiver : loc) (s1 : State) (v : value),
      heap s1 !! f = Some (CFun NotFn) →
      call_fn flush (VRef f) v receiver s1 = Ret (not_fn (heap s1) v) s1 [] ∧
      (type_of (heap s1) v = T_ERROR → not_fn (heap s1) v = v) ∧
      (type_of (heap s1) v ≠ T_ERROR →
         ∃ c, bool_fn (heap s1) v = VBool c ∧ not_fn (heap s1) v = VBool (negb c)) ∧
      not_fn (heap s1) (bool_fn (heap s1) v) = not_fn (heap s1) v ∧
      not_fn (heap s1) (not_fn (heap s1) v) = bool_fn (heap s1) v.
Proof.
  apply (not_installs_transform SC_Binding VUndef demo_start 25 _ []).
  vm_compute. reflexivity.
Defined.

Definition demo_isNull : @outcome demo_host loc :=
  Eval vm_compute in isNull SC_Binding VUndef demo_start.

Lemma isNull_installs_transform_witness :
  ∃ f, installed_last (final_state demo_isNull) 25 IsNullFn f ∧
    ∀ (flush : M value) (receiver : loc) (s1 : State) (v : value),
      heap s1 !! f = Some (CFun IsNullFn) →
      (type_of (heap s1) v = T_ERROR →
         call_fn flush (VRef f) v receiver s1 = Ret v s1 []) ∧
      (v = VNull ∨ v = VUndef →
         call_fn flush (VRef f) v receiver s1 = Ret (VBool true) s1 []) ∧
      (type_of (heap s1) v ≠ T_ERROR → v ≠ VNull → v ≠ VUndef →
         call_fn flush (VRef f) v receiver s1 = Ret (VBool false) s1 []).
Proof.
  apply (isNull_installs_transform SC_Binding VUndef demo_start 25 _ []).
  vm_compute. reflexivity.
Defined.

Definition demo_multiple : @outcome demo_host loc :=
  Eval vm_compute in multiple SC_Binding VUndef demo_start.

Lemma multiple_installs_transform_witness :
  ∃ f, installed_last (final_state demo_multiple) 25 MultipleFn f ∧
    ∀ (flush : M value) (receiver : loc) (s1 : State) (v : value),
      heap s1 !! f = Some (CFun MultipleFn) →
      (isArray (heap s1) v = true →
         call_fn flush (VRef f) v receiver s1 = Ret v s1 []) ∧
      (isArray (heap s1) v = false →
         ∃ r s2,
           call_fn flush (VRef f) v receiver s1 = Ret r s2 [] ∧
           array_elems s2 r = Some (if is_nullish v then [] else [v]) ∧
           (∀ l, l < next s1 → heap s2 !! l = heap s1 !! l) ∧
           (f < next s1 → call_fn flush (VRef f) r receiver s2 = Ret r s2 []) ∧
           (∀ p, single_fn p (heap s2) r = if is_nullish v then VNull else v)).
Proof.
  apply (multiple_installs_transform SC_Binding VUndef demo_start 25 _ []).
  vm_compute. reflexivity.
Defined.

Lemma methods_with_path_throw_witness :
  never_returns (single SC_Binding (VStr "A.p") VUndef) demo_start ∧
  never_returns (notEmpty SC_Binding (VStr "A.p") VUndef) demo_start ∧
  never_returns (notNull SC_Binding (VStr "A.p") VUndef) demo_start ∧
  never_returns (multiple SC_Binding (VStr "A.p")) demo_start ∧
  never_returns (bool_ SC_Binding (VStr "A.p")) demo_start ∧
  never_returns (not_ SC_Binding (VStr "A.p")) demo_start ∧
  never_returns (isNull SC_Binding (VStr "A.p")) demo_start ∧
  never_returns (beget SC_Binding (VStr "A.p")) demo_start ∧
  ((∀ c, VStr "A.p" ≠ VBool c) →
   never_returns (oneWay SC_Binding (VStr "A.p") VUndef) demo_start ∧
   never_returns (noError SC_Binding (VStr "A.p") VUndef) demo_start).
Proof.
  apply (methods_with_path_throw SC_Binding (VStr "A.p") VUndef VUndef demo_start).
  - reflexivity.
  - vm_compute. reflexivity.
Defined.

(** A one-way binding with both paths, the pipeline [notNull(0)] and then
    [bool], and then the same binding with its endpoints resolved. *)
Definition demo_one_way_unresolved : @State demo_host :=
  Eval vm_compute in
    final_state
      ((to 24 (VStr "q") (VStr "Target");;
        notNull 24 VUndef (VNum 0);;
        bool_ 24 VUndef)
         (final_state (from 24 (VStr "p") (VStr "Source")
            (final_state (oneWay SC_Binding VUndef VUndef demo_start))))).

Definition demo_one_way : @State demo_host :=
  Eval vm_compute in final_state (_computeBindingTargets 24 demo_one_way_unresolved).

Definition demo_one_way_write : @State demo_host :=
  Eval vm_compute in set_world 1%Z demo_one_way.

Lemma one_way_delivers_pipeline_witness :
  ∃ tp, applyBindingValue (mret VUndef) 24 demo_one_way
        = Ret () demo_one_way_write
            (tp ++ [ESetPath (VStr "Target") (VStr "q") (VBool false)]) ∧
        length tp = 2 ∧ enqueued tp = [] ∧ applied tp = [] ∧
        (∀ target key w, ESetPath target key w ∉ tp).
Proof.
  apply (one_way_delivers_pipeline (mret VUndef) 24 demo_one_way 26
           [VRef 25; VRef 27] true [NotNullFn (VNum 0); BoolFn]
           VUndef demo_one_way_write []).
  - vm_compute. reflexivity.
  - vm_compute. reflexivity.
  - vm_compute. reflexivity.
  - vm_compute. reflexivity.
  - vm_compute. reflexivity.
  - repeat constructor; eexists; (split_and!; [reflexivity|vm_compute; reflexivity|reflexivity]).
  - vm_compute. reflexivity.
Defined.

Lemma unresolved_binding_writes_nothing_witness :
  applyBindingValue (mret VUndef) 24 demo_to = Ret () demo_to [].
Proof.
  apply (unresolved_binding_writes_nothing (mret VUndef) 24 demo_to);
    vm_compute; reflexivity.
Defined.

Lemma oneWay_sets_direction_witness :
  (∀ c, VBool false = VBool c → VUndef = VUndef →
     configures (oneWay SC_Binding (VBool false) VUndef) SC_Binding demo_start
       "_oneWay" (VBool c)) ∧
  (truthy (VBool false) = false → (VUndef = VUndef → ∀ c, VBool false ≠ VBool c) →
     configures (oneWay SC_Binding (VBool false) VUndef) SC_Binding demo_start "_oneWay"
       (if strict_eq VUndef VUndef then YES else VUndef)).
Proof.
  apply (oneWay_sets_direction SC_Binding (VBool false) VUndef demo_start).
  - eexists _, _. vm_compute. reflexivity.
  - vm_compute. lia.
Defined.

Lemma noError_sets_suppression_witness :
  (∀ c, VNull = VBool c → VBool false = VUndef →
     configures (noError 24 VNull (VBool false)) 24 demo_to "_noError" (VBool c)) ∧
  (truthy VNull = false → (VBool false = VUndef → ∀ c, VNull ≠ VBool c) →
     configures (noError 24 VNull (VBool false)) 24 demo_to "_noError"
       (if strict_eq (VBool false) VUndef then YES else VBool false)).
Proof.
  apply (noError_sets_suppression 24 VNull (VBool false) demo_to).
  - eexists _, _. vm_compute. reflexivity.
  - vm_compute. lia.
Defined.

Lemma to_sets_endpoint_witness :
  ∃ b s',
    to SC_Binding (VStr "B.q") VUndef demo_start = Ret b s' [] ∧
    prop s' b "_toPropertyPath" = VStr "B.q" ∧
    prop s' b "_toRoot" = VUndef ∧
    prop s' b "_toTuple" = VNull ∧
    (SC_Binding ≠ SC_Binding → b = SC_Binding) ∧
    (SC_Binding = SC_Binding →
       b = next demo_start ∧
       ∀ l k, l < next demo_start → prop s' l k = prop demo_start l k) ∧
    (∀ l k, l < next demo_start →
       k ≠ "_toPropertyPath" → k ≠ "_toRoot" → k ≠ "_toTuple" →
       prop s' l k = prop demo_start l k).
Proof.
  apply (to_sets_endpoint SC_Binding (VStr "B.q") VUndef demo_start).
  - eexists _, _. vm_compute. reflexivity.
  - vm_compute. lia.
Defined.

(** A binding whose to-target is resolved. *)
Definition demo_resolved : @State demo_host :=
  Eval vm_compute in
    final_state ((b ← to SC_Binding (VStr "q") (VStr "Target");
                  _computeBindingTargets b) demo_start).

Lemma to_keeps_resolved_target_witness :
  ∃ s1 s2,
    to 24 (VStr "other") (VStr "Elsewhere") demo_resolved = Ret 24 s1 [] ∧
    prop s1 24 "_toPropertyPath" = VStr "other" ∧
    prop s1 24 "_toRoot" = VStr "Elsewhere" ∧
    _computeBindingTargets 24 s1 = Ret () s2 [] ∧
    prop s2 24 "_toPropertyPath" = VStr "other" ∧
    prop s2 24 "_toRoot" = VStr "Elsewhere" ∧
    prop s2 24 "_toTarget" = prop demo_resolved 24 "_toTarget" ∧
    prop s2 24 "_toPropertyKey" = prop demo_resolved 24 "_toPropertyKey".
Proof.
  apply (to_keeps_resolved_target 24 (VStr "other") (VStr "Elsewhere") demo_resolved).
  - eexists _, _. vm_compute. reflexivity.
  - discriminate.
  - vm_compute. reflexivity.
Defined.

Example demo_resolved_target :
  prop demo_resolved 24 "_toTarget" = VStr "Target" ∧
  prop demo_resolved 24 "_toPropertyKey" = VStr "q".
Proof. split; vm_compute; reflexivity. Qed.

Lemma reset_then_transform_is_private_witness :
  ∃ b s1 s2,
    resetTransforms 25 demo_template = Ret b s1 [] ∧
    pipeline s1 b = None ∧
    transform b (VStr "g") s1 = Ret b s2 [] ∧
    pipeline s2 b = Some [VStr "g"] ∧
    (25 ≠ SC_Binding → b = 25) ∧
    (25 = SC_Binding → b = next demo_template) ∧
    (∀ l elems fl, l < next demo_template →
       heap demo_template !! l = Some (CArr elems fl) →
       heap s2 !! l = Some (CArr elems fl)).
Proof.
  apply (reset_then_transform_is_private 25 (VStr "g") demo_template).
  - eexists _, _. vm_compute. reflexivity.
  - vm_compute. lia.
Defined.

Lemma chained_transforms_append_in_order_witness :
  ∃ s', transform_each 25 [VStr "g"; VStr "h"] demo_template = Ret 25 s' [] ∧
    pipeline s' 25 = Some ([VRef 24] ++ [VStr "g"; VStr "h"]) ∧
    heap s' !! 26 = Some (CArr ([VRef 24] ++ [VStr "g"; VStr "h"]) true) ∧
    (∀ l, l ≠ 26 → heap s' !! l = heap demo_template !! l).
Proof.
  apply (chained_transforms_append_in_order 25 [VStr "g"; VStr "h"] demo_template
           26 [VRef 24] true SC_Binding).
  - discriminate.
  - vm_compute. reflexivity.
  - vm_compute. reflexivity.
  - vm_compute. reflexivity.
  - vm_compute. discriminate.
Defined.

Lemma beget_inherits_live_witness :
  ∃ b s1,
    beget 24 VUndef demo_to = Ret b s1 [] ∧ b = next demo_to ∧
    prop s1 b "parentBinding" = VRef 24 ∧
    (∀ k, k ≠ "parentBinding" → prop s1 b k = prop demo_to 24 k) ∧
    (∀ l k, l < next demo_to → prop s1 l k = prop demo_to l k) ∧
    (∀ k v, k ≠ "parentBinding" → prop (write_prop 24 k v s1) b k = v) ∧
    (∀ k v, prop (write_prop b k v s1) 24 k = prop demo_to 24 k).
Proof.
  apply (beget_inherits_live 24 demo_to).
  - eexists _, _. vm_compute. reflexivity.
  - vm_compute. lia.
Defined.

(** The one-way binding of above, connected. *)
Definition demo_connected : @State demo_host :=
  Eval vm_compute in final_state (connect 24 demo_pathless).

Lemma derived_from_connected_never_subscribes_witness :
  ∃ b s1,
    beget 24 VUndef demo_connected = Ret b s1 [] ∧
    observers s1 = observers demo_connected ∧
    connected s1 b = true ∧
    connect b s1 = Ret b s1 [].
Proof.
  apply (derived_from_connected_never_subscribes 24 demo_connected).
  - eexists _, _. vm_compute. reflexivity.
  - vm_compute. lia.
  - vm_compute. reflexivity.
Defined.


(** A binding whose pipeline holds a value that is not a function, told of
    a change. *)
Definition demo_broken : @State demo_host :=
  Eval vm_compute in
    final_state ((b ← to SC_Binding (VStr "q") (VStr "Target");
                  transform b (VNum 5);;
                  fromPropertyDidChange b (VStr "value") (VStr "source")) demo_start).

Definition demo_failed : @outcome demo_host value :=
  Eval vm_compute in flushPendingChanges 10 SC_Binding demo_broken.

Lemma failed_flush_leaves_guard_set_witness :
  flushing demo_broken = false ∧ flushing (final_state demo_failed) = true ∧
  (∃ t', trace_of demo_failed = EFlushBegin :: t') ∧
  ∀ fuel', flushPendingChanges fuel' SC_Binding (final_state demo_failed)
           = Ret VUndef (final_state demo_failed) [].
Proof.
  apply (failed_flush_leaves_guard_set 10 demo_broken
           (TypeError "transform is not a function")).
  - eexists _, _. vm_compute. reflexivity.
  - vm_compute. lia.
  - discriminate.
  - vm_compute. reflexivity.
Defined.

Lemma connect_then_disconnect_restores_witness :
  ∃ s1 s2,
    connect 24 demo_to = Ret 24 s1 [] ∧ disconnect 24 s1 = Ret 24 s2 [] ∧
    connected s1 24 = true ∧ connected s2 24 = false ∧
    observers s1 = observers demo_to ++ subscriptions demo_to 24 ∧
    observers s2 ≡ₚ observers demo_to ∧
    ((∀ r, r ∈ subscriptions demo_to 24 → r ∉ observers demo_to) →
       observers s2 = observers demo_to) ∧
    (∀ l k, k ≠ "isConnected" → prop s2 l k = prop demo_to l k).
Proof.
  apply (connect_then_disconnect_restores 24 demo_to).
  - eexists _, _. vm_compute. reflexivity.
  - vm_compute. reflexivity.
Defined.


Lemma targets_are_resolved_once_witness :
  ∃ s1,
    _computeBindingTargets 24 demo_one_way_unresolved = Ret () s1 [] ∧
    prop s1 24 "_fromTarget" = VStr "Source" ∧ prop s1 24 "_fromPropertyKey" = VStr "p" ∧
    prop s1 24 "_toTarget" = VStr "Target" ∧ prop s1 24 "_toPropertyKey" = VStr "q" ∧
    (∀ l k, k ≠ "_fromTarget" → k ≠ "_fromPropertyKey" →
            k ≠ "_toTarget" → k ≠ "_toPropertyKey" →
            prop s1 l k = prop demo_one_way_unresolved l k) ∧
    (truthy (VStr "Source") = true → truthy (VStr "Target") = true →
     ∀ w, _computeBindingTargets 24 (set_world w s1) = Ret () (set_world w s1) []).
Proof.
  apply (targets_are_resolved_once 24 demo_one_way_unresolved).
  - eexists _, _. vm_compute. reflexivity.
  - vm_compute. reflexivity.
  - vm_compute. reflexivity.
  - vm_compute. reflexivity.
  - vm_compute. reflexivity.
Defined.

Lemma builder_call_derives_or_throws_witness :
  (truthy (VStr "A.p") = false →
     ∃ s1, builder_call SC_Binding (VStr "A.p") demo_start = Ret (next demo_start) s1 [] ∧
       prop s1 (next demo_start) "parentBinding" = VRef SC_Binding ∧
       (∀ k, k ≠ "parentBinding" →
          prop s1 (next demo_start) k = prop demo_start SC_Binding k) ∧
       (∀ l k, l < next demo_start → prop s1 l k = prop demo_start l k)) ∧
  (truthy (VStr "A.p") = true → globals demo_start !! "bidning" = None →
     never_returns (builder_call SC_Binding (VStr "A.p")) demo_start).
Proof.
  apply (builder_call_derives_or_throws SC_Binding (VStr "A.p") demo_start).
  - eexists _, _. vm_compute. reflexivity.
  - vm_compute. lia.
Defined.
